(** * Zaplytics: progressive zap ingestion and the aggregation pipeline

    A shallow embedding of [src/lib/zaplytics/utils.ts] (parsing, validation
    and the pure aggregation functions) and of the pagination controller
    [loadMoreZaps] of [useProgressiveZapReceipts] (hooks/useZapAnalytics.ts),
    together with the properties the specification states about them. The
    second part of the file covers more of the same code: the other
    aggregations of utils.ts, the effects and switches around the
    controller, the content fetch, and the parsing and enrichment step of
    [useZapAnalytics].

    Conventions of the embedding:
    - JavaScript numbers that hold integers (timestamps in seconds, amounts
      in sats, counters, batch sizes) are [Z]; quotients that the source
      leaves fractional and only compares or rounds afterwards
      ([Date.now() / 1000], averages, scores) are exact rationals [Q]; the
      percentages of [groupZapsByKind], which are returned as they are, are
      IEEE 754 binary64 numbers ([F64], over the Standard Library's
      [SpecFloat]);
    - a JavaScript [Map] is an insertion-ordered association list, because
      [Array.from(map.entries())] exposes the insertion order;
    - a JavaScript [Set] of strings whose only observation is [size] is a
      [gset string]; the module-level [userZapCache] is a [gmap];
    - [Array.prototype.sort] is a stable sort driven by the sign of the
      comparator;
    - a [Date] is its time value in milliseconds; time stamps are taken
      within the range in which every [Date] is valid, and integers within
      the range in which JavaScript numbers are exact;
    - library calls whose code is not part of the repository (the bolt11
      decoder, [JSON.parse], the [Date] getters) are parameters of the
      sections that use them. *)

From Stdlib Require Import ZArith QArith List String Ascii Bool Lia Permutation Sorted.
From Stdlib Require Import Floats.SpecFloat.
From stdpp Require Import base gmap strings pretty.
Import ListNotations.

Local Open Scope string_scope.
Local Open Scope list_scope.
Local Open Scope Z_scope.

(** ** JavaScript arrays *)

Module Js.

Section Sort.
Context {A : Type}.
Variable cmp : A -> A -> Z.

(** [x] stood before every element of [l] in the array: it stays in front of
    the first element it does not compare greater than. *)
Fixpoint sort_insert (x : A) (l : list A) : list A :=
  match l with
  | [] => [x]
  | y :: ys => if cmp x y <=? 0 then x :: y :: ys else y :: sort_insert x ys
  end.

(** [arr.sort(cmp)]: stable. *)
Fixpoint sort (l : list A) : list A :=
  match l with
  | [] => []
  | x :: xs => sort_insert x (sort xs)
  end.

End Sort.

(** [arr.reduce((sum, x) => sum + f(x), 0)] *)
Definition reduce_sum {A : Type} (f : A -> Z) (l : list A) : Z :=
  fold_left (fun sum x => sum + f x) l 0.

(** [Math.min(x, ...rest)] on a non-empty argument list. *)
Definition Math_min (x : Z) (rest : list Z) : Z := fold_left Z.min rest x.

(** [Math.min(...arr)] with the empty case ([Infinity]) kept apart. *)
Definition min_of (l : list Z) : option Z :=
  match l with
  | [] => None
  | x :: rest => Some (Math_min x rest)
  end.

(** [Math.round(a / b)] for integers [a] and [b > 0]: the nearest integer,
    halves going up. *)
Definition round_div (a b : Z) : Z := (2 * a + b) / (2 * b).

(** [Math.ceil(a / b)] for integers [a] and [b > 0]. *)
Definition ceil_div (a b : Z) : Z := - ((- a) / b).

(** [o || d] on a number that may be [null]: [null] and [0] are falsy. *)
Definition or_default (o : option Z) (d : Z) : Z :=
  match o with
  | Some v => if v =? 0 then d else v
  | None => d
  end.

(** Truthiness of a string that may be [undefined]. *)
Definition truthy_str (o : option string) : bool :=
  match o with
  | Some s => negb (String.eqb s "")
  | None => false
  end.

End Js.

(** ** JavaScript numbers: IEEE 754 binary64 *)

Module F64.

Definition prec : Z := 53.
Definition emax : Z := 1024.

(** The number that holds an integer: the integer itself up to [2^53], the
    nearest binary64 number beyond. *)
Definition of_int (z : Z) : spec_float := binary_normalize prec emax z 0 false.

(** [x / y], [x * y] and [x + y], rounded to nearest, ties to even. *)
Definition div (x y : spec_float) : spec_float := SFdiv prec emax x y.
Definition mul (x y : spec_float) : spec_float := SFmul prec emax x y.
Definition add (x y : spec_float) : spec_float := SFadd prec emax x y.

(** The order of two numbers, [None] when one of them is [NaN]. *)
Definition compare (x y : spec_float) : option comparison := SFcompare x y.

(** [arr.reduce((sum, x) => sum + x, 0)] *)
Definition sum (l : list spec_float) : spec_float := fold_left add l (of_int 0).

(** The rational number a finite value stands for ([0] for the others). *)
Definition toQ (x : spec_float) : Q :=
  match x with
  | S754_finite s m e =>
      let n := if s then Z.neg m else Z.pos m in
      match e with
      | Z.neg p => Qmake n (2 ^ p)
      | _ => inject_Z (n * 2 ^ e)
      end
  | _ => inject_Z 0
  end.

End F64.

(** ** JavaScript [Map]: an association list in insertion order *)

Module JsMap.

Section Ops.
Context {K V : Type} `{EqDecision K}.

Definition t := list (K * V).

Definition empty : t := [].

Fixpoint get (k : K) (m : t) : option V :=
  match m with
  | [] => None
  | (k', v) :: m' => if decide (k = k') then Some v else get k m'
  end.

(** [set] on a present key keeps the key's position; a new key goes last. *)
Fixpoint set (k : K) (v : V) (m : t) : t :=
  match m with
  | [] => [(k, v)]
  | (k', v') :: m' =>
      if decide (k = k') then (k', v) :: m' else (k', v') :: set k v m'
  end.

Definition has (k : K) (m : t) : bool :=
  match get k m with Some _ => true | None => false end.

Definition keys (m : t) : list K := map fst m.
Definition values (m : t) : list V := map snd m.

End Ops.

Arguments t : clear implicits.

End JsMap.

(** ** Data model (types/zaplytics.ts) *)

(** [NostrEvent]; a [ZapReceipt] is an event that passed [isValidZapReceipt]. *)
Record NostrEvent := {
  ev_id : string;
  ev_created_at : Z;
  ev_pubkey : string;
  ev_kind : Z;
  ev_tags : list (list string);
  ev_content : string;
  ev_sig : string
}.

Definition ZapReceipt := NostrEvent.

Record ZappedEvent := {
  ze_id : string;
  ze_kind : Z;
  ze_author : string;
  ze_content : string;
  ze_created_at : Z
}.

Record Zapper := {
  zp_pubkey : string;
  zp_name : option string;
  zp_nip05 : option string;
  zp_picture : option string
}.

(** The three fields read from the [JSON.parse]d zap request; any of them
    may be missing. *)
Record ZapRequest := {
  zr_pubkey : option string;
  zr_content : option string;
  zr_created_at : option Z
}.

Record ParsedZap := {
  receipt : ZapReceipt;
  zappedEvent : option ZappedEvent;
  zapper : Zapper;
  amount : Z;
  comment : option string;
  zapRequest : option ZapRequest
}.

Inductive TimeRange := R24h | R7d | R30d | R90d | RCustom.

Inductive GroupBy := Hour | Day | Week | Month.

Record TimeRangeConfig := {
  days : option Z;
  groupBy : GroupBy
}.

Definition TIME_RANGES (r : TimeRange) : TimeRangeConfig :=
  match r with
  | R24h => {| days := Some 1; groupBy := Hour |}
  | R7d => {| days := Some 7; groupBy := Day |}
  | R30d => {| days := Some 30; groupBy := Day |}
  | R90d => {| days := Some 90; groupBy := Week |}
  | RCustom => {| days := None; groupBy := Day |}
  end.

(** [CustomDateRange]: [from.getTime()] and [to.getTime()], in milliseconds. *)
Record CustomDateRange := {
  from_ms : Z;
  to_ms : Z
}.

Definition is_custom (r : TimeRange) : bool :=
  match r with RCustom => true | _ => false end.

(** ** Parsing and validation (utils.ts) *)

(** [tags.find(tag => tag[0] === name)] *)
Definition find_tag (name : string) (tags : list (list string)) : option (list string) :=
  List.find (fun tag => match nth_error tag 0 with
                        | Some s => String.eqb s name
                        | None => false
                        end) tags.

(** [tag[1]], [undefined] when the tag has no second element. *)
Definition tag_value (tag : list string) : option string := nth_error tag 1.

(** [tags.find(tag => tag[0] === name)?.[1]] when it is truthy. *)
Definition truthy_tag_value (name : string) (tags : list (list string)) : option string :=
  match find_tag name tags with
  | Some tag => if Js.truthy_str (tag_value tag) then tag_value tag else None
  | None => None
  end.

Section Parsing.

(** [lightningPayReq.decode(bolt11)] followed by the look-up of the section
    named [amount]: [None] when the decoder throws, [Some None] when there is
    no amount section or its value is falsy, [Some (Some v)] for an amount of
    [v] millisatoshi. *)
Variable lightningDecode : string -> option (option Z).

(** [JSON.parse(description)] followed by the reads of [pubkey], [content]
    and [created_at]; [None] when any of this throws. *)
Variable jsonParseZapRequest : string -> option ZapRequest.

Definition parseBolt11Amount (bolt11 : string) : Z :=
  match lightningDecode bolt11 with
  | Some (Some v) => v / 1000
  | Some None => 0
  | None => 0
  end.

Definition parseZapReceipt (zapEvent : ZapReceipt) : option ParsedZap :=
  match truthy_tag_value "bolt11" (ev_tags zapEvent) with
  | None => None
  | Some bolt11 =>
      let amount := parseBolt11Amount bolt11 in
      if amount =? 0 then None
      else
        let eTag := find_tag "e" (ev_tags zapEvent) in
        let pTag := find_tag "p" (ev_tags zapEvent) in
        let zapRequest :=
          match truthy_tag_value "description" (ev_tags zapEvent) with
          | Some desc => jsonParseZapRequest desc
          | None => None
          end in
        let comment :=
          match zapRequest with
          | Some zr => if Js.truthy_str (zr_content zr) then zr_content zr else None
          | None => None
          end in
        let zapperPubkey :=
          match zapRequest with
          | Some zr => if Js.truthy_str (zr_pubkey zr)
                       then default (ev_pubkey zapEvent) (zr_pubkey zr)
                       else ev_pubkey zapEvent
          | None => ev_pubkey zapEvent
          end in
        let zapped :=
          match eTag with
          | Some tag =>
              if Js.truthy_str (tag_value tag)
              then Some {| ze_id := default "" (tag_value tag);
                           ze_kind := 1;
                           ze_author :=
                             match pTag with
                             | Some p => if Js.truthy_str (tag_value p)
                                         then default "" (tag_value p) else ""
                             | None => ""
                             end;
                           ze_content := "";
                           ze_created_at := 0 |}
              else None
          | None => None
          end in
        Some {| receipt := zapEvent;
                zappedEvent := zapped;
                zapper := {| zp_pubkey := zapperPubkey; zp_name := None;
                             zp_nip05 := None; zp_picture := None |};
                amount := amount;
                comment := comment;
                zapRequest := zapRequest |}
  end.

Definition isValidZapReceipt (event : NostrEvent) : bool :=
  if negb (ev_kind event =? 9735) then false
  else
    match truthy_tag_value "bolt11" (ev_tags event) with
    | None => false
    | Some bolt11 => 0 <? parseBolt11Amount bolt11
    end.

End Parsing.

(** ** The pagination controller (useProgressiveZapReceipts) *)

Module ZAP_FETCH_CONFIG.
Definition INITIAL_BATCH_SIZE : Z := 1000.
Definition MIN_BATCH_SIZE : Z := 250.
Definition MAX_BATCH_SIZE : Z := 2000.
Definition MAX_CONSECUTIVE_FAILURES : Z := 3.
End ZAP_FETCH_CONFIG.

Definition BOUNDARY_TOLERANCE_SECONDS : Z := 3600.

Record ZapLoadingState := {
  receipts : list ZapReceipt;
  isLoading : bool;
  isComplete : bool;
  currentBatch : Z;
  totalFetched : Z;
  relayLimit : option Z;
  error : option string;
  autoLoadEnabled : bool;
  consecutiveFailures : Z;
  allReceiptsCache : list ZapReceipt
}.

(** The state of [useState] at mount and after a change of user. *)
Definition initialState : ZapLoadingState :=
  {| receipts := []; isLoading := false; isComplete := false;
     currentBatch := 0; totalFetched := 0; relayLimit := None;
     error := None; autoLoadEnabled := true; consecutiveFailures := 0;
     allReceiptsCache := [] |}.

(** The query sent to the relays. *)
Record Filter := {
  f_kinds : list Z;
  f_p : list string;
  f_limit : Z;
  f_since : option Z;
  f_until : option Z
}.

(** [nostr.query] either resolves with events or rejects; [msg] is the
    [message] of the error when the rejection is an [Error]. *)
Inductive QueryResult :=
| Events (events : list NostrEvent)
| Throws (msg : option string).

(** [getDateRange], with the reading of [Date.now()] (milliseconds) made an
    argument. *)
Definition getDateRange (nowMs : Z) (timeRange : TimeRange)
    (customRange : option CustomDateRange) : Z * option Z :=
  match timeRange, customRange with
  | RCustom, Some cr => (from_ms cr / 1000, Some (to_ms cr / 1000))
  | _, _ =>
      let now := nowMs / 1000 in
      match days (TIME_RANGES timeRange) with
      | None => (0, None)
      | Some d => (now - d * 24 * 60 * 60, Some now)
      end
  end.

(** The arguments [useZapAnalytics] hands to the controller: an incomplete
    custom range falls back to the 30-day preset. *)
Definition effectiveRange (timeRange : TimeRange) (customRange : option CustomDateRange)
    : TimeRange * option CustomDateRange :=
  match timeRange, customRange with
  | RCustom, None => (R30d, None)
  | _, _ => (timeRange, customRange)
  end.

(** [(a, b) => b.created_at - a.created_at] *)
Definition newestFirst (a b : ZapReceipt) : Z := ev_created_at b - ev_created_at a.

(** [Math.min(...receipts.map(r => r.created_at))] *)
Definition oldestTimestamp (l : list ZapReceipt) : option Z :=
  Js.min_of (map ev_created_at l).

(** The merge of a batch into the cache:
    [[...prev.allReceiptsCache, ...validReceipts].sort(newest first)]. *)
Definition mergeReceipts (store batch : list ZapReceipt) : list ZapReceipt :=
  Js.sort newestFirst (store ++ batch).

(** Truthiness of [until]. *)
Definition truthy_num (o : option Z) : bool :=
  match o with Some v => negb (v =? 0) | None => false end.

(** The projection of the cache on the active window. *)
Definition filterForRange (timeRange : TimeRange) (since : Z) (until : option Z)
    (l : list ZapReceipt) : list ZapReceipt :=
  List.filter (fun r =>
    if is_custom timeRange && truthy_num until
    then (since <=? ev_created_at r) && (ev_created_at r <=? default 0 until)
    else since <=? ev_created_at r) l.

(** The batch size of the next request (lines 241-250). *)
Definition batchSizeFor (isAutomatic : bool) (currentState : ZapLoadingState) : Z :=
  let batchSize := Js.or_default (relayLimit currentState) ZAP_FETCH_CONFIG.INITIAL_BATCH_SIZE in
  let batchSize := Z.min batchSize ZAP_FETCH_CONFIG.MAX_BATCH_SIZE in
  if isAutomatic && (0 <? currentBatch currentState)
  then Z.min batchSize
         (Js.or_default (relayLimit currentState) ZAP_FETCH_CONFIG.MIN_BATCH_SIZE)
  else batchSize.

(** The pagination cursor (lines 225-239). *)
Definition paginationCursor (timeRange : TimeRange) (until : option Z)
    (currentState : ZapLoadingState) : option Z :=
  match oldestTimestamp (allReceiptsCache currentState) with
  | None => until
  | Some oldestTimestamp =>
      let paginationUntil := oldestTimestamp - 1 in
      if is_custom timeRange && truthy_num until
      then Some (Z.min paginationUntil (default 0 until))
      else Some paginationUntil
  end.

Definition buildFilter (pubkey : string) (batchSize since : Z) (currentUntil : option Z) : Filter :=
  {| f_kinds := [9735];
     f_p := [pubkey];
     f_limit := batchSize;
     f_since := if 0 <? since then Some since else None;
     f_until := if truthy_num currentUntil then currentUntil else None |}.

(** The relay limit recorded after a batch (lines 310-313). *)
Definition detectLimit (received batchSize : Z) (previous : option Z) : option Z :=
  if (received <? batchSize) && (0 <? received)
  then Some (Z.max received ZAP_FETCH_CONFIG.MIN_BATCH_SIZE)
  else previous.

(** [reachedTimeBoundary]: [oldest <= since + BOUNDARY_TOLERANCE_SECONDS]. *)
Definition reachedTimeBoundary (oldest : Q) (since : Z) : bool :=
  Qle_bool oldest (inject_Z (since + BOUNDARY_TOLERANCE_SECONDS)).

(** The completion decision (lines 316-360). [cached] is the cache of the
    state the call started from, [nowMs] the reading of [Date.now()] used
    when that cache is empty. *)
Definition decideComplete (timeRange : TimeRange) (since nowMs : Z)
    (cached validReceipts : list ZapReceipt) : bool :=
  match validReceipts with
  | [] =>
      if negb (is_custom timeRange) then
        let oldestInCache :=
          match oldestTimestamp cached with
          | Some oldest => inject_Z oldest
          | None => Qmake nowMs 1000
          end in
        reachedTimeBoundary oldestInCache since
      else true
  | _ :: _ =>
      if negb (is_custom timeRange) then
        match oldestTimestamp validReceipts with
        | Some oldestNewReceipt => reachedTimeBoundary (inject_Z oldestNewReceipt) since
        | None => false
        end
      else false
  end.

(** The state update of a successful batch (the callback of lines 288-384),
    together with its write to the module-level cache. [currentState] is the
    snapshot the call started from, [prev] the state the update is applied
    to; [nowUpdate] and [nowCheck] are the two readings of the clock. *)
Definition onBatchSuccess (pubkey : string) (timeRange : TimeRange)
    (customRange : option CustomDateRange) (nowUpdate nowCheck : Z)
    (currentState : ZapLoadingState) (batchSize : Z) (validReceipts : list ZapReceipt)
    (prev : ZapLoadingState) (userZapCache : gmap string (list ZapReceipt))
    : ZapLoadingState * gmap string (list ZapReceipt) :=
  let allReceipts := mergeReceipts (allReceiptsCache prev) validReceipts in
  let '(since, until) := getDateRange nowUpdate timeRange customRange in
  let filteredReceipts := filterForRange timeRange since until allReceipts in
  let detectedLimit :=
    detectLimit (Z.of_nat (length validReceipts)) batchSize (relayLimit prev) in
  let complete :=
    decideComplete timeRange since nowCheck (allReceiptsCache currentState) validReceipts in
  ({| receipts := filteredReceipts;
      isLoading := false;
      isComplete := complete;
      currentBatch := currentBatch prev + 1;
      totalFetched := Z.of_nat (length filteredReceipts);
      relayLimit := detectedLimit;
      error := error prev;
      autoLoadEnabled := autoLoadEnabled prev;
      consecutiveFailures := 0;
      allReceiptsCache := allReceipts |},
   <[pubkey := allReceipts]> userZapCache).

(** The state update of a failed batch (lines 435-444). *)
Definition onBatchFailure (msg : option string) (prev : ZapLoadingState) : ZapLoadingState :=
  {| receipts := receipts prev;
     isLoading := false;
     isComplete := isComplete prev;
     currentBatch := currentBatch prev;
     totalFetched := totalFetched prev;
     relayLimit := relayLimit prev;
     error := Some (default "Unknown error" msg);
     autoLoadEnabled :=
       consecutiveFailures prev + 1 <? ZAP_FETCH_CONFIG.MAX_CONSECUTIVE_FAILURES;
     consecutiveFailures := consecutiveFailures prev + 1;
     allReceiptsCache := allReceiptsCache prev |}.

(** [setState(prev => ({ ...prev, isLoading: true, error: null }))] *)
Definition markLoading (prev : ZapLoadingState) : ZapLoadingState :=
  {| receipts := receipts prev;
     isLoading := true;
     isComplete := isComplete prev;
     currentBatch := currentBatch prev;
     totalFetched := totalFetched prev;
     relayLimit := relayLimit prev;
     error := None;
     autoLoadEnabled := autoLoadEnabled prev;
     consecutiveFailures := consecutiveFailures prev;
     allReceiptsCache := allReceiptsCache prev |}.

(** The two early returns of [loadMoreZaps] (lines 190-206): [true] when the
    call goes on to fetch. *)
Definition mayFetch (user : option string) (isLoadingRef isAutomatic : bool)
    (currentState : ZapLoadingState) : bool :=
  if negb (Js.truthy_str user) || isLoadingRef || isComplete currentState then false
  else if isAutomatic &&
          (negb (autoLoadEnabled currentState) ||
           (ZAP_FETCH_CONFIG.MAX_CONSECUTIVE_FAILURES <=? consecutiveFailures currentState))
  then false
  else true.

(** [shouldContinueAutoLoad] (lines 389-395); [n >= batchSize * 0.9] is
    compared after scaling by ten. *)
Definition shouldContinueAutoLoad (received batchSize : Z) : bool :=
  (0 <? received) && ((batchSize * 9 <=? received * 10) || (100 <=? received)).

(** What one call of [loadMoreZaps] leaves behind. *)
Record World := {
  state : ZapLoadingState;
  userZapCache : gmap string (list ZapReceipt)
}.

Inductive Outcome :=
| Skipped
| Fetched (request : Filter) (w : World) (scheduleNext : bool).

(** The three readings of [Date.now()] during one call, in program order. *)
Record Clock := {
  nowStart : Z;
  nowUpdate : Z;
  nowCheck : Z
}.

Section Controller.

Variable lightningDecode : string -> option (option Z).

(** The transport: what the relays answer to a filter. *)
Variable query : Filter -> QueryResult.

(** [events.filter(isValidZapReceipt).sort(newest first)] *)
Definition validate (events : list NostrEvent) : list ZapReceipt :=
  Js.sort newestFirst (List.filter (isValidZapReceipt lightningDecode) events).

(** One call of [loadMoreZaps(isAutomatic)], run to its end without another
    state update in between: the state the callbacks update is the snapshot
    with [isLoading] set. *)
Definition loadMoreZaps (user : option string) (timeRange : TimeRange)
    (customRange : option CustomDateRange) (clock : Clock)
    (isLoadingRef isAutomatic : bool) (w : World) : Outcome :=
  let currentState := state w in
  if negb (mayFetch user isLoadingRef isAutomatic currentState) then Skipped
  else
    let pubkey := default "" user in
    let prev := markLoading currentState in
    let '(since, until) := getDateRange (nowStart clock) timeRange customRange in
    let currentUntil := paginationCursor timeRange until currentState in
    let batchSize := batchSizeFor isAutomatic currentState in
    let request := buildFilter pubkey batchSize since currentUntil in
    match query request with
    | Events events =>
        let validReceipts := validate events in
        let '(st, cache) :=
          onBatchSuccess pubkey timeRange customRange (nowUpdate clock) (nowCheck clock)
            currentState batchSize validReceipts prev (userZapCache w) in
        Fetched request {| state := st; userZapCache := cache |}
          (isAutomatic && shouldContinueAutoLoad (Z.of_nat (length validReceipts)) batchSize)
    | Throws msg =>
        Fetched request
          {| state := onBatchFailure msg prev; userZapCache := userZapCache w |} false
    end.

End Controller.

(** ** The aggregation pipeline (utils.ts) *)

(** [{ totalSats, zapCount }], the accumulator of the kind, hour and weekday
    groupings. *)
Record Tally := {
  totalSats : Z;
  zapCount : Z
}.

Definition tally_add (t : Tally) (sats : Z) : Tally :=
  {| totalSats := totalSats t + sats; zapCount := zapCount t + 1 |}.

Definition tally_zero : Tally := {| totalSats := 0; zapCount := 0 |}.

(** [count > 0 ? Math.round(total / count) : 0] *)
Definition avgZapAmountOf (total count : Z) : Z :=
  if 0 <? count then Js.round_div total count else 0.

Record PeriodStats := {
  ps_totalSats : Z;
  ps_zapCount : Z;
  ps_date : Z
}.

Record EarningsByPeriod := {
  ep_period : string;
  ep_totalSats : Z;
  ep_zapCount : Z;
  ep_date : Z
}.

Record EarningsByKind := {
  ek_kind : Z;
  ek_kindName : string;
  ek_totalSats : Z;
  ek_zapCount : Z;
  ek_percentage : spec_float
}.

Record EarningsByHour := {
  eh_hour : Z;
  eh_totalSats : Z;
  eh_zapCount : Z;
  eh_avgZapAmount : Z
}.

Record EarningsByDayOfWeek := {
  ed_dayOfWeek : Z;
  ed_dayName : string;
  ed_totalSats : Z;
  ed_zapCount : Z;
  ed_avgZapAmount : Z
}.

Inductive Category := Whale | Regular | Occasional | OneTime.

Record ZapperInfo := {
  zi_pubkey : string;
  zi_name : option string;
  zi_picture : option string;
  zi_zaps : list ParsedZap;
  zi_totalSats : Z;
  zi_zapCount : Z
}.

Record ZapperLoyalty := {
  zl_pubkey : string;
  zl_name : option string;
  zl_picture : option string;
  zl_zapCount : Z;
  zl_totalSats : Z;
  zl_firstZapDate : Z;
  zl_lastZapDate : Z;
  zl_daysBetweenFirstAndLast : Z;
  zl_averageDaysBetweenZaps : Q;
  zl_isRegular : bool;
  zl_category : Category
}.

Record LoyaltyStats := {
  newZappers : Z;
  returningZappers : Z;
  regularSupporters : Z;
  averageLifetimeValue : Z;
  topLoyalZappers : list ZapperLoyalty
}.

Record HashtagData := {
  hd_hashtag : string;
  hd_totalSats : Z;
  hd_zapCount : Z;
  hd_posts : gset string;
  hd_firstZapTimes : list Z;
  hd_contentCreatedTimes : list Z
}.

Record HashtagPerformance := {
  hp_hashtag : string;
  hp_totalSats : Z;
  hp_zapCount : Z;
  hp_avgZapAmount : Z;
  hp_postCount : Z;
  hp_successRate : Z;
  hp_avgTimeToFirstZap : Q
}.

Definition KIND_NAMES (kind : Z) : option string :=
  match kind with
  | 0 => Some "Profiles" | 1 => Some "Notes" | 3 => Some "Contact Lists"
  | 4 => Some "Encrypted DMs" | 5 => Some "Event Deletions"
  | 6 => Some "Reactions" | 7 => Some "Reactions"
  | 40 => Some "Channel Creation" | 41 => Some "Channel Metadata"
  | 42 => Some "Channel Message" | 43 => Some "Channel Hide Message"
  | 44 => Some "Channel Mute User" | 1984 => Some "Problem Reports"
  | 9734 => Some "Zap Requests" | 9735 => Some "Zap Receipts"
  | 10002 => Some "Relay List Metadata" | 22242 => Some "Client Auth"
  | 30000 => Some "People Lists" | 30001 => Some "Bookmarks Lists"
  | 30008 => Some "Profile Badges" | 30009 => Some "Badge Definitions"
  | 30017 => Some "Create/Update Stall" | 30018 => Some "Create/Update Product"
  | 30023 => Some "Long-form Articles" | 30024 => Some "Draft Long-form Articles"
  | 30311 => Some "Live Events" | 30315 => Some "User Statuses"
  | 30402 => Some "Classified Listings" | 30403 => Some "Draft Classified Listings"
  | 31922 => Some "Date-Based Calendar Event" | 31923 => Some "Time-Based Calendar Event"
  | 31924 => Some "Calendar" | 31925 => Some "Calendar Event RSVP"
  | 31989 => Some "Handler Recommendation" | 31990 => Some "Handler Information"
  | 34550 => Some "Community Definition"
  | _ => None
  end.

(** The sum of a list of integers, the reference the totals are compared to. *)
Definition sumZ (l : list Z) : Z := fold_right Z.add 0 l.

Definition sumQ (l : list Q) : Q := fold_right Qplus (inject_Z 0) l.

(** *** Grouping by kind *)

Definition groupZapsByKind_step (grouped : JsMap.t Z Tally) (zap : ParsedZap) : JsMap.t Z Tally :=
  match zappedEvent zap with
  | None => grouped
  | Some ze =>
      let kind := ze_kind ze in
      let existing := default tally_zero (JsMap.get kind grouped) in
      JsMap.set kind (tally_add existing (amount zap)) grouped
  end.

Definition groupZapsByKind (zaps : list ParsedZap) : list EarningsByKind :=
  let grandTotal := Js.reduce_sum amount zaps in
  let grouped := fold_left groupZapsByKind_step zaps JsMap.empty in
  Js.sort (fun a b => ek_totalSats b - ek_totalSats a)
    (map (fun '(kind, stats) =>
            {| ek_kind := kind;
               ek_kindName := default (String.append "Kind " (pretty kind)) (KIND_NAMES kind);
               ek_totalSats := totalSats stats;
               ek_zapCount := zapCount stats;
               ek_percentage :=
                 if 0 <? grandTotal
                 then F64.mul (F64.div (F64.of_int (totalSats stats))
                                 (F64.of_int grandTotal))
                        (F64.of_int 100)
                 else F64.of_int 0 |})
         grouped).

(** *** Hashtags *)

Definition isWordChar (c : ascii) : bool :=
  let n := nat_of_ascii c in
  ((97 <=? n) && (n <=? 122))%nat || ((65 <=? n) && (n <=? 90))%nat ||
  ((48 <=? n) && (n <=? 57))%nat || (n =? 95)%nat.

Definition toLowerChar (c : ascii) : ascii :=
  let n := nat_of_ascii c in
  if ((65 <=? n) && (n <=? 90))%nat then ascii_of_nat (n + 32) else c.

Fixpoint toLowerCase (s : string) : string :=
  match s with
  | EmptyString => EmptyString
  | String c rest => String (toLowerChar c) (toLowerCase rest)
  end.

(** The token collected so far, in reverse: a match needs one word character
    at least. *)
Definition flushTag (pending : option string) : list string :=
  match pending with
  | Some (String c rest) =>
      [toLowerCase (String "#" (String.rev (String c rest)))]
  | _ => []
  end.

(** One left-to-right pass of [/#[a-zA-Z0-9_]+/g]: [pending] is [Some w]
    after a [#] whose word characters read so far are the reverse of [w]. *)
Fixpoint scanHashtags (pending : option string) (text : string) : list string :=
  match text with
  | EmptyString => flushTag pending
  | String c rest =>
      match pending with
      | Some w =>
          if isWordChar c then scanHashtags (Some (String c w)) rest
          else flushTag pending ++
               scanHashtags (if Ascii.eqb c "#" then Some EmptyString else None) rest
      | None =>
          scanHashtags (if Ascii.eqb c "#" then Some EmptyString else None) rest
      end
  end.

(** [text.match(/#[a-zA-Z0-9_]+/g)], lower-cased; no match gives []. *)
Definition extractHashtags (text : string) : list string := scanHashtags None text.

Definition hashtag_update (zap : ParsedZap) (ze : ZappedEvent)
    (hashtagData : JsMap.t string HashtagData) (hashtag : string)
    : JsMap.t string HashtagData :=
  match JsMap.get hashtag hashtagData with
  | Some existing =>
      JsMap.set hashtag
        {| hd_hashtag := hd_hashtag existing;
           hd_totalSats := hd_totalSats existing + amount zap;
           hd_zapCount := hd_zapCount existing + 1;
           hd_posts := {[ ze_id ze ]} ∪ hd_posts existing;
           hd_firstZapTimes := hd_firstZapTimes existing ++ [ev_created_at (receipt zap)];
           hd_contentCreatedTimes := hd_contentCreatedTimes existing ++ [ze_created_at ze] |}
        hashtagData
  | None =>
      JsMap.set hashtag
        {| hd_hashtag := hashtag;
           hd_totalSats := amount zap;
           hd_zapCount := 1;
           hd_posts := {[ ze_id ze ]};
           hd_firstZapTimes := [ev_created_at (receipt zap)];
           hd_contentCreatedTimes := [ze_created_at ze] |}
        hashtagData
  end.

(** The first pass (lines 614-647). The [allPosts] map the source fills in
    the same loop is never read and is left out. *)
Definition hashtag_step (hashtagData : JsMap.t string HashtagData) (zap : ParsedZap)
    : JsMap.t string HashtagData :=
  match zappedEvent zap with
  | None => hashtagData
  | Some ze =>
      fold_left (hashtag_update zap ze) (extractHashtags (ze_content ze)) hashtagData
  end.

(** [firstZapTimes.map((zapTime, index) =>
       Math.max(0, zapTime - contentCreatedTimes[index]))] *)
Fixpoint timeToFirstZaps (firstZapTimes contentCreatedTimes : list Z) : list Z :=
  match firstZapTimes, contentCreatedTimes with
  | zapTime :: zs, created :: cs => Z.max 0 (zapTime - created) :: timeToFirstZaps zs cs
  | _, _ => []
  end.

Definition hashtag_performance (data : HashtagData) : HashtagPerformance :=
  let times := timeToFirstZaps (hd_firstZapTimes data) (hd_contentCreatedTimes data) in
  {| hp_hashtag := hd_hashtag data;
     hp_totalSats := hd_totalSats data;
     hp_zapCount := hd_zapCount data;
     hp_avgZapAmount := avgZapAmountOf (hd_totalSats data) (hd_zapCount data);
     hp_postCount := Z.of_nat (size (hd_posts data));
     hp_successRate := 100;
     hp_avgTimeToFirstZap :=
       match times with
       | [] => inject_Z 0
       | _ :: _ => (inject_Z (Js.reduce_sum (fun t => t) times) /
                    inject_Z (Z.of_nat (length times)))%Q
       end |}.

Definition analyzeHashtagPerformance (zaps : list ParsedZap) : list HashtagPerformance :=
  let hashtagData := fold_left hashtag_step zaps JsMap.empty in
  Js.sort (fun a b => hp_totalSats b - hp_totalSats a)
    (List.filter (fun h => 2 <=? hp_zapCount h)
       (map hashtag_performance (JsMap.values hashtagData))).

(** *** Groupings that read the calendar

    A [Date] is its time value in milliseconds. The getters below are the
    ones of the JavaScript engine ([toISOString] in UTC, the others in the
    local time zone); [localDate y m d h] is [new Date(y, m, d, h).getTime()]
    and [setDate date n] the time value after [date.setDate(n)]. *)

Record DateApi := {
  toISOString : Z -> string;
  getFullYear : Z -> Z;
  getMonth : Z -> Z;
  getDate : Z -> Z;
  getHours : Z -> Z;
  getDay : Z -> Z;
  localDate : Z -> Z -> Z -> Z -> Z;
  setDate : Z -> Z -> Z
}.

(** What ECMAScript guarantees of [getHours] and [getDay]. *)
Definition getters_in_range (api : DateApi) : Prop :=
  forall date, 0 <= getHours api date < 24 /\ 0 <= getDay api date < 7.

Section Calendar.

Variable api : DateApi.

(** [new Date(zap.receipt.created_at * 1000)] *)
Definition zapDate (zap : ParsedZap) : Z := ev_created_at (receipt zap) * 1000.

(** The granularity [groupZapsByPeriod] settles on (lines 137-153). *)
Definition selectGroupBy (timeRange : TimeRange) (customRange : option CustomDateRange)
    : GroupBy :=
  match timeRange, customRange with
  | RCustom, Some cr =>
      let daysDiff := Js.ceil_div (to_ms cr - from_ms cr) (1000 * 60 * 60 * 24) in
      if daysDiff <=? 2 then Hour
      else if daysDiff <=? 31 then Day
      else if daysDiff <=? 90 then Week
      else Month
  | _, _ => groupBy (TIME_RANGES timeRange)
  end.

(** The [switch] of lines 160-183: the key of the bucket and its date. *)
Definition periodOf (g : GroupBy) (date : Z) : string * Z :=
  match g with
  | Hour =>
      (String.append (substring 0 13 (toISOString api date)) ":00:00.000Z",
       localDate api (getFullYear api date) (getMonth api date) (getDate api date)
         (getHours api date))
  | Day =>
      (substring 0 10 (toISOString api date),
       localDate api (getFullYear api date) (getMonth api date) (getDate api date) 0)
  | Week =>
      let weekStart := setDate api date (getDate api date - getDay api date) in
      (substring 0 10 (toISOString api weekStart),
       localDate api (getFullYear api weekStart) (getMonth api weekStart)
         (getDate api weekStart) 0)
  | Month =>
      (substring 0 7 (toISOString api date),
       localDate api (getFullYear api date) (getMonth api date) 1 0)
  end.

Definition groupZapsByPeriod_step (g : GroupBy) (grouped : JsMap.t string PeriodStats)
    (zap : ParsedZap) : JsMap.t string PeriodStats :=
  let '(periodKey, periodDate) := periodOf g (zapDate zap) in
  let existing :=
    default {| ps_totalSats := 0; ps_zapCount := 0; ps_date := periodDate |}
      (JsMap.get periodKey grouped) in
  JsMap.set periodKey
    {| ps_totalSats := ps_totalSats existing + amount zap;
       ps_zapCount := ps_zapCount existing + 1;
       ps_date := ps_date existing |}
    grouped.

(** The grouping for a granularity already chosen (lines 155-196). *)
Definition groupZapsBy (g : GroupBy) (zaps : list ParsedZap) : list EarningsByPeriod :=
  let grouped := fold_left (groupZapsByPeriod_step g) zaps JsMap.empty in
  Js.sort (fun a b => ep_date a - ep_date b)
    (map (fun '(period, stats) =>
            {| ep_period := period;
               ep_totalSats := ps_totalSats stats;
               ep_zapCount := ps_zapCount stats;
               ep_date := ps_date stats |})
         grouped).

Definition groupZapsByPeriod (zaps : list ParsedZap) (timeRange : TimeRange)
    (customRange : option CustomDateRange) : list EarningsByPeriod :=
  groupZapsBy (selectGroupBy timeRange customRange) zaps.

(** [for (let i = 0; i < n; i++) grouped.set(i, { totalSats: 0, zapCount: 0 })] *)
Definition zeroBuckets (n : nat) : JsMap.t Z Tally :=
  fold_left (fun grouped i => JsMap.set (Z.of_nat i) tally_zero grouped) (seq 0 n) JsMap.empty.

(** One iteration of the [forEach] of the hour and weekday groupings;
    [grouped.get(index)!] on a missing key is a [TypeError], here [None]. *)
Definition bucket_step (index : Z -> Z) (grouped : option (JsMap.t Z Tally))
    (zap : ParsedZap) : option (JsMap.t Z Tally) :=
  match grouped with
  | None => None
  | Some grouped =>
      let i := index (zapDate zap) in
      match JsMap.get i grouped with
      | Some existing => Some (JsMap.set i (tally_add existing (amount zap)) grouped)
      | None => None
      end
  end.

Definition groupZapsByHour (zaps : list ParsedZap) : option (list EarningsByHour) :=
  match fold_left (bucket_step (getHours api)) zaps (Some (zeroBuckets 24)) with
  | None => None
  | Some grouped =>
      Some (Js.sort (fun a b => eh_hour a - eh_hour b)
              (map (fun '(hour, stats) =>
                      {| eh_hour := hour;
                         eh_totalSats := totalSats stats;
                         eh_zapCount := zapCount stats;
                         eh_avgZapAmount :=
                           avgZapAmountOf (totalSats stats) (zapCount stats) |})
                   grouped))
  end.

Definition dayNames : list string :=
  ["Sunday"; "Monday"; "Tuesday"; "Wednesday"; "Thursday"; "Friday"; "Saturday"].

Definition groupZapsByDayOfWeek (zaps : list ParsedZap) : option (list EarningsByDayOfWeek) :=
  match fold_left (bucket_step (getDay api)) zaps (Some (zeroBuckets 7)) with
  | None => None
  | Some grouped =>
      Some (Js.sort (fun a b => ed_dayOfWeek a - ed_dayOfWeek b)
              (map (fun '(dayOfWeek, stats) =>
                      {| ed_dayOfWeek := dayOfWeek;
                         ed_dayName := nth (Z.to_nat dayOfWeek) dayNames "";
                         ed_totalSats := totalSats stats;
                         ed_zapCount := zapCount stats;
                         ed_avgZapAmount :=
                           avgZapAmountOf (totalSats stats) (zapCount stats) |})
                   grouped))
  end.

End Calendar.

(** *** Loyalty *)

Definition loyalty_group_step (zapperData : JsMap.t string ZapperInfo) (zap : ParsedZap)
    : JsMap.t string ZapperInfo :=
  let pubkey := zp_pubkey (zapper zap) in
  match JsMap.get pubkey zapperData with
  | Some existing =>
      JsMap.set pubkey
        {| zi_pubkey := zi_pubkey existing;
           zi_name := zi_name existing;
           zi_picture := zi_picture existing;
           zi_zaps := zi_zaps existing ++ [zap];
           zi_totalSats := zi_totalSats existing + amount zap;
           zi_zapCount := zi_zapCount existing + 1 |}
        zapperData
  | None =>
      JsMap.set pubkey
        {| zi_pubkey := pubkey;
           zi_name := zp_name (zapper zap);
           zi_picture := zp_picture (zapper zap);
           zi_zaps := [zap];
           zi_totalSats := amount zap;
           zi_zapCount := 1 |}
        zapperData
  end.

Definition WHALE_THRESHOLD : Z := 10000.

(** The category of a returning zapper (lines 447-455). *)
Definition returningCategory (total count : Z) (averageDaysBetweenZaps : Q) : Category :=
  if WHALE_THRESHOLD <=? total then Whale
  else if (5 <=? count) || ((3 <=? count) && Qle_bool averageDaysBetweenZaps (inject_Z 7))
  then Regular
  else Occasional.

(** The body of [zapperData.forEach] up to the record it pushes
    (lines 425-470). Every entry holds one zap at least, so the two
    defaults of the time stamps are never read. *)
Definition loyaltyOf (zapperInfo : ZapperInfo) : ZapperLoyalty :=
  let sortedZaps :=
    Js.sort (fun a b => ev_created_at (receipt a) - ev_created_at (receipt b))
      (zi_zaps zapperInfo) in
  let firstZapDate := default 0 (zapDate <$> head sortedZaps) in
  let lastZapDate := default 0 (zapDate <$> last sortedZaps) in
  let daysBetweenFirstAndLast :=
    if 1 <? zi_zapCount zapperInfo
    then Js.ceil_div (lastZapDate - firstZapDate) (1000 * 60 * 60 * 24)
    else 0 in
  let averageDaysBetweenZaps :=
    if 1 <? zi_zapCount zapperInfo
    then (inject_Z daysBetweenFirstAndLast / inject_Z (zi_zapCount zapperInfo - 1))%Q
    else inject_Z 0 in
  let category :=
    if zi_zapCount zapperInfo =? 1 then OneTime
    else returningCategory (zi_totalSats zapperInfo) (zi_zapCount zapperInfo)
           averageDaysBetweenZaps in
  {| zl_pubkey := zi_pubkey zapperInfo;
     zl_name := zi_name zapperInfo;
     zl_picture := zi_picture zapperInfo;
     zl_zapCount := zi_zapCount zapperInfo;
     zl_totalSats := zi_totalSats zapperInfo;
     zl_firstZapDate := firstZapDate;
     zl_lastZapDate := lastZapDate;
     zl_daysBetweenFirstAndLast := daysBetweenFirstAndLast;
     zl_averageDaysBetweenZaps := averageDaysBetweenZaps;
     zl_isRegular := match category with Regular => true | _ => false end;
     zl_category := category |}.

(** The counters and the list the [forEach] of lines 424-471 maintains. *)
Record LoyaltyAcc := {
  loyaltyAnalysis : list ZapperLoyalty;
  acc_newZappers : Z;
  acc_returningZappers : Z;
  acc_regularSupporters : Z
}.

Definition loyalty_count_step (acc : LoyaltyAcc) (zapperInfo : ZapperInfo) : LoyaltyAcc :=
  let entry := loyaltyOf zapperInfo in
  if zi_zapCount zapperInfo =? 1 then
    {| loyaltyAnalysis := loyaltyAnalysis acc ++ [entry];
       acc_newZappers := acc_newZappers acc + 1;
       acc_returningZappers := acc_returningZappers acc;
       acc_regularSupporters := acc_regularSupporters acc |}
  else
    {| loyaltyAnalysis := loyaltyAnalysis acc ++ [entry];
       acc_newZappers := acc_newZappers acc;
       acc_returningZappers := acc_returningZappers acc + 1;
       acc_regularSupporters :=
         match zl_category entry with
         | Regular => acc_regularSupporters acc + 1
         | _ => acc_regularSupporters acc
         end |}.

Definition groupByZapper (zaps : list ParsedZap) : JsMap.t string ZapperInfo :=
  fold_left loyalty_group_step zaps JsMap.empty.

Definition analyzeZapperLoyalty (zaps : list ParsedZap) : LoyaltyStats :=
  let zapperData := groupByZapper zaps in
  let acc :=
    fold_left loyalty_count_step (JsMap.values zapperData)
      {| loyaltyAnalysis := []; acc_newZappers := 0;
         acc_returningZappers := 0; acc_regularSupporters := 0 |} in
  let totalZappers := Z.of_nat (length zapperData) in
  let total := Js.reduce_sum zi_totalSats (JsMap.values zapperData) in
  {| newZappers := acc_newZappers acc;
     returningZappers := acc_returningZappers acc;
     regularSupporters := acc_regularSupporters acc;
     averageLifetimeValue :=
       if 0 <? totalZappers then Js.round_div total totalZappers else 0;
     topLoyalZappers :=
       firstn 10
         (Js.sort (fun a b => zl_totalSats b - zl_totalSats a)
            (List.filter (fun z => 1 <? zl_zapCount z) (loyaltyAnalysis acc))) |}.

(** ** The analytic snapshot (useZapAnalytics, lines 1016-1036)

    The fields computed from the parsed records that the properties below
    read; the two rankings ([topContent], [topZappers]) and
    [contentPerformance] are left out. *)

Record AnalyticsData := {
  totalEarnings : Z;
  totalZaps : Z;
  uniqueZappers : Z;
  earningsByPeriod : list EarningsByPeriod;
  earningsByKind : list EarningsByKind;
  earningsByHour : option (list EarningsByHour);
  earningsByDayOfWeek : option (list EarningsByDayOfWeek);
  zapperLoyalty : LoyaltyStats
}.

Definition analytics (api : DateApi) (parsedZaps : list ParsedZap) (timeRange : TimeRange)
    (customRange : option CustomDateRange) : AnalyticsData :=
  {| totalEarnings := Js.reduce_sum amount parsedZaps;
     totalZaps := Z.of_nat (length parsedZaps);
     uniqueZappers :=
       Z.of_nat (size (list_to_set (map (fun zap => zp_pubkey (zapper zap)) parsedZaps)
                         : gset string));
     earningsByPeriod := groupZapsByPeriod api parsedZaps timeRange customRange;
     earningsByKind := groupZapsByKind parsedZaps;
     earningsByHour := groupZapsByHour api parsedZaps;
     earningsByDayOfWeek := groupZapsByDayOfWeek api parsedZaps;
     zapperLoyalty := analyzeZapperLoyalty parsedZaps |}.

(** A calendar to run the groupings on: UTC as the local zone. Days are
    counted from 1970-01-01, a Thursday; the civil date of a day number
    follows the usual era / day-of-era computation. *)
Module Utc.

Definition msPerDay : Z := 86400000.

Definition dayNumber (date : Z) : Z := date / msPerDay.

(** (year, month 1-12, day 1-31) of a day number. *)
Definition civil (z0 : Z) : Z * Z * Z :=
  let z := z0 + 719468 in
  let era := z / 146097 in
  let doe := z - era * 146097 in
  let yoe := (doe - doe / 1460 + doe / 36524 - doe / 146096) / 365 in
  let y := yoe + era * 400 in
  let doy := doe - (365 * yoe + yoe / 4 - yoe / 100) in
  let mp := (5 * doy + 2) / 153 in
  let d := doy - (153 * mp + 2) / 5 + 1 in
  let m := if mp <? 10 then mp + 3 else mp - 9 in
  (if m <=? 2 then y + 1 else y, m, d).

(** The day number of a civil date; [m] and [d] may overflow their ranges
    the way the arguments of [new Date(y, m, d)] may. *)
Definition daysFromCivil (y0 m d : Z) : Z :=
  let y := if m <=? 2 then y0 - 1 else y0 in
  let era := y / 400 in
  let yoe := y - era * 400 in
  let doy := (153 * (if 2 <? m then m - 3 else m + 9) + 2) / 5 + d - 1 in
  let doe := yoe * 365 + yoe / 4 - yoe / 100 + doy in
  era * 146097 + doe - 719468.

Definition pad (width : nat) (n : Z) : string :=
  let s := pretty n in
  String.append (string_of_list_ascii (repeat "0"%char (width - String.length s))) s.

Definition getFullYear (date : Z) : Z := let '(y, _, _) := civil (dayNumber date) in y.
Definition getMonth (date : Z) : Z := let '(_, m, _) := civil (dayNumber date) in m - 1.
Definition getDate (date : Z) : Z := let '(_, _, d) := civil (dayNumber date) in d.
Definition getHours (date : Z) : Z := (date / 3600000) mod 24.
Definition getDay (date : Z) : Z := (dayNumber date + 4) mod 7.

Definition toISOString (date : Z) : string :=
  let '(y, m, d) := civil (dayNumber date) in
  String.append (pad 4 y) (String.append "-" (String.append (pad 2 m) (String.append "-"
    (String.append (pad 2 d) (String.append "T"
      (String.append (pad 2 (getHours date)) (String.append ":"
        (String.append (pad 2 ((date / 60000) mod 60)) (String.append ":"
          (String.append (pad 2 ((date / 1000) mod 60)) (String.append "."
            (String.append (pad 3 (date mod 1000)) "Z")))))))))))).

(** Months 0-11 within the year; days may run over (used by [setDate]). *)
Definition localDate (y m d h : Z) : Z :=
  (daysFromCivil y (m + 1) d) * msPerDay + h * 3600000.

Definition setDate (date n : Z) : Z :=
  let '(y, m, _) := civil (dayNumber date) in
  daysFromCivil y m n * msPerDay + date mod msPerDay.

Definition api : DateApi :=
  Build_DateApi toISOString getFullYear getMonth getDate getHours getDay localDate setDate.

End Utc.

(** ** Notions the statements use *)

(** The set of ids held by an array of receipts. *)
Definition recordIds (l : list ZapReceipt) : gset string := list_to_set (map ev_id l).

(** [!!zap.zappedEvent] *)
Definition referencesContent (zap : ParsedZap) : bool :=
  match zappedEvent zap with Some _ => true | None => false end.

(** The records an hour or weekday bucket collects. *)
Definition zapsAt (index : Z -> Z) (i : Z) (zaps : list ParsedZap) : list ParsedZap :=
  List.filter (fun zap => index (zapDate zap) =? i) zaps.

(** The records of one zapper. *)
Definition zapsOf (pubkey : string) (zaps : list ParsedZap) : list ParsedZap :=
  List.filter (fun zap => String.eqb (zp_pubkey (zapper zap)) pubkey) zaps.

(** What the hour and weekday maps hold after the records [seen]: the keys
    [0 .. n-1] in order, and under each key the tally of the records of that
    bucket. *)
Definition bucketsTally (index : Z -> Z) (n : nat) (grouped : JsMap.t Z Tally)
    (seen : list ParsedZap) : Prop :=
  JsMap.keys grouped = map Z.of_nat (seq 0 n) /\
  forall i t, JsMap.get i grouped = Some t ->
    totalSats t = sumZ (map amount (zapsAt index i seen)) /\
    zapCount t = Z.of_nat (length (zapsAt index i seen)).

(** [zap.zapper.pubkey] *)
Definition zapperOf (zap : ParsedZap) : string := zp_pubkey (zapper zap).

(** What [zapperData] holds after the records [seen]: one entry per
    distinct zapper, with that zapper's records in order, their total and
    their count. *)
Definition zappersGrouped (zapperData : JsMap.t string ZapperInfo)
    (seen : list ParsedZap) : Prop :=
  List.NoDup (JsMap.keys zapperData) /\
  (forall p, In p (JsMap.keys zapperData) <-> In p (map zapperOf seen)) /\
  forall p info, JsMap.get p zapperData = Some info ->
    zi_pubkey info = p /\
    zi_zaps info = zapsOf p seen /\
    zi_totalSats info = sumZ (map amount (zapsOf p seen)) /\
    zi_zapCount info = Z.of_nat (length (zapsOf p seen)) /\
    1 <= zi_zapCount info.

(** The hashtags a record contributes: those of the body it references. *)
Definition tagsOf (zap : ParsedZap) : list string :=
  match zappedEvent zap with
  | Some ze => extractHashtags (ze_content ze)
  | None => []
  end.

(** One pass of the inner [forEach] of [analyzeHashtagPerformance]: a record,
    the content it references and one hashtag occurrence of that content. *)
Abbreviation TagEvent := (ParsedZap * ZappedEvent * string)%type (only parsing).

Definition tagEvents (zaps : list ParsedZap) : list TagEvent :=
  flat_map (fun zap =>
    match zappedEvent zap with
    | Some ze => map (fun hashtag => (zap, ze, hashtag)) (extractHashtags (ze_content ze))
    | None => []
    end) zaps.

Definition eventsOf (hashtag : string) (events : list TagEvent) : list TagEvent :=
  List.filter (fun e => String.eqb (snd e) hashtag) events.

(** The records whose content carries a hashtag. *)
Definition recordsTagged (hashtag : string) (zaps : list ParsedZap) : list ParsedZap :=
  List.filter (fun zap => existsb (String.eqb hashtag) (tagsOf zap)) zaps.

(** What [hashtagData] holds after the occurrences [seen]. *)
Definition hashtagsTally (hashtagData : JsMap.t string HashtagData)
    (seen : list TagEvent) : Prop :=
  List.NoDup (JsMap.keys hashtagData) /\
  (forall tag, In tag (JsMap.keys hashtagData) <-> In tag (map snd seen)) /\
  forall tag data, JsMap.get tag hashtagData = Some data ->
    let mine := eventsOf tag seen in
    hd_hashtag data = tag /\
    hd_zapCount data = Z.of_nat (length mine) /\
    hd_totalSats data = sumZ (map (fun e => amount (fst (fst e))) mine) /\
    hd_posts data = list_to_set (map (fun e => ze_id (snd (fst e))) mine) /\
    hd_firstZapTimes data = map (fun e => ev_created_at (receipt (fst (fst e)))) mine /\
    hd_contentCreatedTimes data = map (fun e => ze_created_at (snd (fst e))) mine.


(** [tag] is the first element of [tags] whose first entry is [name]: the
    element [tags.find(tag => tag[0] === name)] evaluates to. *)
Definition firstTagNamed (name : string) (tags : list (list string))
    (tag : list string) : Prop :=
  exists before after,
    tags = before ++ tag :: after /\
    nth_error tag 0 = Some name /\
    Forall (fun t => nth_error t 0 <> Some name) before.

(** No element of [tags] has [name] as its first entry. *)
Definition noTagNamed (name : string) (tags : list (list string)) : Prop :=
  Forall (fun t => nth_error t 0 <> Some name) tags.

(** [t] is the least [created_at] among the receipts [l]. *)
Definition oldestOf (l : list ZapReceipt) (t : Z) : Prop :=
  (exists r, In r l /\ ev_created_at r = t) /\
  forall r, In r l -> t <= ev_created_at r.

(** ** Sample data and runs *)

Definition requestOf (o : Outcome) : option Filter :=
  match o with Fetched request _ _ => Some request | Skipped => None end.

Definition worldOf (o : Outcome) : option World :=
  match o with Fetched _ w _ => Some w | Skipped => None end.

Definition emptyFilter : Filter :=
  {| f_kinds := []; f_p := []; f_limit := 0; f_since := None; f_until := None |}.

Definition emptyWorld : World := {| state := initialState; userZapCache := ∅ |}.

Module Sample.

(** A decoder for three invoices: 21 sats, 42 sats, and one without amount;
    anything else fails to decode. *)
Definition decode (bolt11 : string) : option (option Z) :=
  if String.eqb bolt11 "lnbc210n" then Some (Some 21000)
  else if String.eqb bolt11 "lnbc420n" then Some (Some 42000)
  else if String.eqb bolt11 "lnbc" then Some None
  else None.

(** No zap request is readable. *)
Definition parseJson (description : string) : option ZapRequest := None.

Definition mkReceipt (id : string) (created_at : Z) (bolt11 : string) : NostrEvent :=
  {| ev_id := id; ev_created_at := created_at; ev_pubkey := "wallet"; ev_kind := 9735;
     ev_tags := [["p"; "alice"]; ["e"; "note1"]; ["bolt11"; bolt11]];
     ev_content := ""; ev_sig := "" |}.

(** 2023-11-14 22:13:20 UTC, a Tuesday. *)
Definition t0 : Z := 1700000000.

(** Two receipts of the last day; the older one lies 30 minutes after the
    start of the 24-hour window read at [clock]. *)
Definition receipt1 : NostrEvent := mkReceipt "r1" (t0 + 7200) "lnbc210n".
Definition receipt2 : NostrEvent := mkReceipt "r2" (t0 + 1800) "lnbc420n".

(** A receipt five hours after the start of that window. *)
Definition receipt3 : NostrEvent := mkReceipt "r3" (t0 + 18000) "lnbc210n".

(** An event of kind 9735 whose first bolt11 tag is empty and whose second
    one carries an invoice of 21 sats. *)
Definition shadowed : NostrEvent :=
  {| ev_id := "s1"; ev_created_at := t0 + 600; ev_pubkey := "wallet"; ev_kind := 9735;
     ev_tags := [["bolt11"; ""]; ["bolt11"; "lnbc210n"]];
     ev_content := ""; ev_sig := "" |}.

(** An event of kind 9735 whose invoice names no amount. *)
Definition unpaid : NostrEvent := mkReceipt "u1" (t0 + 3600) "lnbc".

(** A relay that answers every query with the same two receipts. *)
Definition relay (request : Filter) : QueryResult := Events [receipt1; receipt2].

(** A relay whose oldest receipt is [receipt3]. *)
Definition sparseRelay (request : Filter) : QueryResult := Events [receipt3].

(** A relay whose only event is no valid receipt. *)
Definition unpaidRelay (request : Filter) : QueryResult := Events [unpaid].

(** A relay with nothing to return. *)
Definition emptyRelay (request : Filter) : QueryResult := Events [].

(** A relay that is down. *)
Definition deadRelay (request : Filter) : QueryResult := Throws (Some "timeout").

(** The clock, read three times around [t0 + 1 day]: the 24-hour window
    starts at [t0]. *)
Definition clock : Clock :=
  {| nowStart := (t0 + 86400) * 1000;
     nowUpdate := (t0 + 86400) * 1000 + 120;
     nowCheck := (t0 + 86400) * 1000 + 121 |}.

Definition mkZap (id : string) (created_at sats : Z) (pubkey : string)
    (target : option ZappedEvent) : ParsedZap :=
  {| receipt := mkReceipt id created_at "lnbc210n";
     zappedEvent := target;
     zapper := {| zp_pubkey := pubkey; zp_name := None; zp_nip05 := None;
                  zp_picture := None |};
     amount := sats;
     comment := None;
     zapRequest := None |}.

Definition note (id body : string) : ZappedEvent :=
  {| ze_id := id; ze_kind := 1; ze_author := "alice"; ze_content := body;
     ze_created_at := t0 - 3600 |}.

Definition article (id : string) : ZappedEvent :=
  {| ze_id := id; ze_kind := 30023; ze_author := "alice"; ze_content := "";
     ze_created_at := t0 - 3600 |}.

End Sample.

(** Runs of the controller on the sample data. *)
Module Runs.

(** A manual first fetch of the 24-hour window: the relay returns receipts
    down to 30 minutes after the window opens. *)
Definition firstRun : Outcome :=
  loadMoreZaps Sample.decode Sample.relay (Some "alice") R24h None Sample.clock
    false false emptyWorld.

Definition firstRequest : Filter := default emptyFilter (requestOf firstRun).
Definition afterFirst : World := default emptyWorld (worldOf firstRun).

(** Two failures so far, auto-load still on. *)
Definition shaky : World :=
  {| state :=
       {| receipts := []; isLoading := false; isComplete := false; currentBatch := 2;
          totalFetched := 0; relayLimit := None; error := Some "timeout";
          autoLoadEnabled := true; consecutiveFailures := 2; allReceiptsCache := [] |};
     userZapCache := ∅ |}.

(** An automatic fetch against a relay that is down. *)
Definition failedRun : Outcome :=
  loadMoreZaps Sample.decode Sample.deadRelay (Some "alice") R24h None Sample.clock
    false true shaky.

Definition failedRequest : Filter := default emptyFilter (requestOf failedRun).
Definition afterFailure : World := default emptyWorld (worldOf failedRun).

(** The same window on a relay whose receipts stop five hours after its
    start, followed by a fetch that finds nothing older. *)
Definition sparseRun : Outcome :=
  loadMoreZaps Sample.decode Sample.sparseRelay (Some "alice") R24h None Sample.clock
    false false emptyWorld.

Definition afterSparse : World := default emptyWorld (worldOf sparseRun).

Definition sparseThenEmpty : Outcome :=
  loadMoreZaps Sample.decode Sample.emptyRelay (Some "alice") R24h None Sample.clock
    false false afterSparse.

Definition afterSparseThenEmpty : World := default emptyWorld (worldOf sparseThenEmpty).

(** A custom range over the same day, fetched twice from a relay that
    ignores the cursor and answers with the same receipts again. *)
Definition day : CustomDateRange :=
  {| from_ms := Sample.t0 * 1000; to_ms := (Sample.t0 + 86400) * 1000 |}.

Definition customFirst : Outcome :=
  loadMoreZaps Sample.decode Sample.relay (Some "alice") RCustom (Some day) Sample.clock
    false false emptyWorld.

Definition customRequest : Filter := default emptyFilter (requestOf customFirst).
Definition afterCustomFirst : World := default emptyWorld (worldOf customFirst).

Definition customSecond : Outcome :=
  loadMoreZaps Sample.decode Sample.relay (Some "alice") RCustom (Some day) Sample.clock
    false false afterCustomFirst.

Definition customSecondRequest : Filter := default emptyFilter (requestOf customSecond).
Definition afterCustomSecond : World := default emptyWorld (worldOf customSecond).

(** The custom range fetched from a relay that returns one event, which is
    no valid receipt. *)
Definition unpaidRun : Outcome :=
  loadMoreZaps Sample.decode Sample.unpaidRelay (Some "alice") RCustom (Some day)
    Sample.clock false false emptyWorld.

Definition unpaidRequest : Filter := default emptyFilter (requestOf unpaidRun).
Definition afterUnpaid : World := default emptyWorld (worldOf unpaidRun).

(** The hook after the first fetch and the reset that a mount or a change of
    user makes (lines 163-183): the state is the initial one, the
    module-level store is as it was. Then a fetch of the 24-hour window from
    the relay that returns one receipt. *)
Definition remounted : World :=
  {| state := initialState; userZapCache := userZapCache afterFirst |}.

Definition remountRun : Outcome :=
  loadMoreZaps Sample.decode Sample.sparseRelay (Some "alice") R24h None Sample.clock
    false false remounted.

Definition remountRequest : Filter := default emptyFilter (requestOf remountRun).
Definition afterRemount : World := default emptyWorld (worldOf remountRun).

End Runs.

(** ** More of utils.ts *)

Record EarningsByContent := {
  ec_eventId : string;
  ec_eventKind : Z;
  ec_content : string;
  ec_author : string;
  ec_totalSats : Z;
  ec_zapCount : Z;
  ec_created_at : Z
}.

Definition groupZapsByContent_step (grouped : JsMap.t string EarningsByContent)
    (zap : ParsedZap) : JsMap.t string EarningsByContent :=
  match zappedEvent zap with
  | None => grouped
  | Some ze =>
      match JsMap.get (ze_id ze) grouped with
      | Some existing =>
          JsMap.set (ze_id ze)
            {| ec_eventId := ec_eventId existing;
               ec_eventKind := ec_eventKind existing;
               ec_content := ec_content existing;
               ec_author := ec_author existing;
               ec_totalSats := ec_totalSats existing + amount zap;
               ec_zapCount := ec_zapCount existing + 1;
               ec_created_at := ec_created_at existing |}
            grouped
      | None =>
          JsMap.set (ze_id ze)
            {| ec_eventId := ze_id ze;
               ec_eventKind := ze_kind ze;
               ec_content := ze_content ze;
               ec_author := ze_author ze;
               ec_totalSats := amount zap;
               ec_zapCount := 1;
               ec_created_at := ze_created_at ze |}
            grouped
      end
  end.

Definition groupZapsByContent (zaps : list ParsedZap) : list EarningsByContent :=
  Js.sort (fun a b => ec_totalSats b - ec_totalSats a)
    (JsMap.values (fold_left groupZapsByContent_step zaps JsMap.empty)).

Record ZapperStats := {
  zs_pubkey : string;
  zs_name : option string;
  zs_nip05 : option string;
  zs_picture : option string;
  zs_totalSats : Z;
  zs_zapCount : Z
}.

Definition getTopZappers_step (grouped : JsMap.t string ZapperStats) (zap : ParsedZap)
    : JsMap.t string ZapperStats :=
  let pubkey := zp_pubkey (zapper zap) in
  match JsMap.get pubkey grouped with
  | Some existing =>
      JsMap.set pubkey
        {| zs_pubkey := zs_pubkey existing;
           zs_name := zs_name existing;
           zs_nip05 := zs_nip05 existing;
           zs_picture := zs_picture existing;
           zs_totalSats := zs_totalSats existing + amount zap;
           zs_zapCount := zs_zapCount existing + 1 |}
        grouped
  | None =>
      JsMap.set pubkey
        {| zs_pubkey := pubkey;
           zs_name := zp_name (zapper zap);
           zs_nip05 := zp_nip05 (zapper zap);
           zs_picture := zp_picture (zapper zap);
           zs_totalSats := amount zap;
           zs_zapCount := 1 |}
        grouped
  end.

Definition getTopZappers (zaps : list ParsedZap) : list ZapperStats :=
  Js.sort (fun a b => zs_totalSats b - zs_totalSats a)
    (JsMap.values (fold_left getTopZappers_step zaps JsMap.empty)).

(** [truncateText]: [text.slice(0, maxLength)] counts a negative
    [maxLength] from the end of the text. *)
Definition slice0 (text : string) (stop : Z) : string :=
  let len := Z.of_nat (String.length text) in
  let stop' := if stop <? 0 then Z.max (len + stop) 0 else Z.min stop len in
  substring 0 (Z.to_nat stop') text.

Definition truncateText (text : string) (maxLength : Z) : string :=
  if Z.of_nat (String.length text) <=? maxLength then text
  else String.append (slice0 text maxLength) "...".

(** *** Content performance *)

Record ContentData := {
  cd_eventId : string;
  cd_eventKind : Z;
  cd_content : string;
  cd_author : string;
  cd_created_at : Z;
  cd_zaps : list ParsedZap;
  cd_totalSats : Z;
  cd_zapCount : Z
}.

Record ContentPerformance := {
  cp_eventId : string;
  cp_eventKind : Z;
  cp_content : string;
  cp_author : string;
  cp_created_at : Z;
  cp_totalSats : Z;
  cp_zapCount : Z;
  cp_timeToFirstZap : Q;
  cp_peakEarningsWindow : Z;
  cp_longevityDays : Q;
  cp_viralityScore : Q;
  cp_avgZapAmount : Z
}.

Definition contentData_step (contentData : JsMap.t string ContentData) (zap : ParsedZap)
    : JsMap.t string ContentData :=
  match zappedEvent zap with
  | None => contentData
  | Some ze =>
      match JsMap.get (ze_id ze) contentData with
      | Some existing =>
          JsMap.set (ze_id ze)
            {| cd_eventId := cd_eventId existing;
               cd_eventKind := cd_eventKind existing;
               cd_content := cd_content existing;
               cd_author := cd_author existing;
               cd_created_at := cd_created_at existing;
               cd_zaps := cd_zaps existing ++ [zap];
               cd_totalSats := cd_totalSats existing + amount zap;
               cd_zapCount := cd_zapCount existing + 1 |}
            contentData
      | None =>
          JsMap.set (ze_id ze)
            {| cd_eventId := ze_id ze;
               cd_eventKind := ze_kind ze;
               cd_content := ze_content ze;
               cd_author := ze_author ze;
               cd_created_at := ze_created_at ze;
               cd_zaps := [zap];
               cd_totalSats := amount zap;
               cd_zapCount := 1 |}
            contentData
      end
  end.

(** [Math.max(a, b)] on fractions. *)
Definition maxQ (a b : Q) : Q := if Qle_bool a b then b else a.

(** The zaps received up to [cutoff] (milliseconds). *)
Definition zapsUntil (cutoff : Z) (sortedZaps : list ParsedZap) : list ParsedZap :=
  List.filter (fun zap => zapDate zap <=? cutoff) sortedZaps.

(** [windowEarnings] for a window of [windowHours] hours after creation. *)
Definition windowEarnings (contentCreatedAt : Z) (sortedZaps : list ParsedZap)
    (windowHours : Z) : Z :=
  Js.reduce_sum amount (zapsUntil (contentCreatedAt + windowHours * 60 * 60 * 1000) sortedZaps).

(** One iteration of [windows.forEach] (lines 556-566) on the pair
    [(bestWindow, maxWindowEarnings)]. *)
Definition peak_step (contentCreatedAt : Z) (sortedZaps : list ParsedZap)
    (best : Z * Z) (windowHours : Z) : Z * Z :=
  let earnings := windowEarnings contentCreatedAt sortedZaps windowHours in
  if snd best <? earnings then (windowHours, earnings) else best.

Definition peakWindows : list Z := [1; 6; 24; 72].

Definition peakEarningsWindow (contentCreatedAt : Z) (sortedZaps : list ParsedZap) : Z :=
  fst (fold_left (peak_step contentCreatedAt sortedZaps) peakWindows (1, 0)).

(** The body of [contentData.forEach] (lines 532-584). Every entry holds one
    zap at least, so the defaults of the two times are never read. *)
Definition performanceOf (content : ContentData) : ContentPerformance :=
  let sortedZaps :=
    Js.sort (fun a b => ev_created_at (receipt a) - ev_created_at (receipt b))
      (cd_zaps content) in
  let contentCreatedAt := cd_created_at content * 1000 in
  let firstZapTime := default 0 (zapDate <$> head sortedZaps) in
  let lastZapTime := default 0 (zapDate <$> last sortedZaps) in
  let firstHourZaps := zapsUntil (contentCreatedAt + 60 * 60 * 1000) sortedZaps in
  {| cp_eventId := cd_eventId content;
     cp_eventKind := cd_eventKind content;
     cp_content := cd_content content;
     cp_author := cd_author content;
     cp_created_at := cd_created_at content;
     cp_totalSats := cd_totalSats content;
     cp_zapCount := cd_zapCount content;
     cp_timeToFirstZap :=
       maxQ (inject_Z 0) (Qmake (firstZapTime - contentCreatedAt) 1000);
     cp_peakEarningsWindow := peakEarningsWindow contentCreatedAt sortedZaps;
     cp_longevityDays :=
       if 1 <? cd_zapCount content
       then Qmake (lastZapTime - firstZapTime) 86400000
       else inject_Z 0;
     cp_viralityScore :=
       if 0 <? cd_zapCount content
       then (inject_Z (Z.of_nat (length firstHourZaps)) / inject_Z (cd_zapCount content)
             * inject_Z 100)%Q
       else inject_Z 0;
     cp_avgZapAmount := Js.round_div (cd_totalSats content) (cd_zapCount content) |}.

Definition analyzeContentPerformance (zaps : list ParsedZap) : list ContentPerformance :=
  Js.sort (fun a b => cp_totalSats b - cp_totalSats a)
    (map performanceOf (JsMap.values (fold_left contentData_step zaps JsMap.empty))).

(** [getPeakWindowLabel] (ContentPerformance.tsx). *)
Definition getPeakWindowLabel (hours : Z) : string :=
  if hours =? 1 then "1 hour"
  else if hours =? 6 then "6 hours"
  else if hours =? 24 then "1 day"
  else if hours =? 72 then "3 days"
  else String.append (pretty hours) " hours".

(** [getGroupByLabel] (EarningsChart.tsx, lines 201-225). *)
Definition getGroupByLabel (timeRange : TimeRange) (customRange : option CustomDateRange)
    : string :=
  match timeRange, customRange with
  | RCustom, Some cr =>
      let daysDiff := Js.ceil_div (to_ms cr - from_ms cr) (1000 * 60 * 60 * 24) in
      if daysDiff <=? 2 then "hour"
      else if daysDiff <=? 31 then "day"
      else if daysDiff <=? 90 then "week"
      else "month"
  | R24h, _ => "hour"
  | R7d, _ => "day"
  | R30d, _ => "day"
  | R90d, _ => "week"
  | RCustom, None => "period"
  end.

(** The name of a granularity as [groupBy] holds it. *)
Definition groupByName (g : GroupBy) : string :=
  match g with Hour => "hour" | Day => "day" | Week => "week" | Month => "month" end.

(** *** The grouping loop shared by the aggregations

    Every grouping of utils.ts is the same loop: skip the record or find its
    key, then create the entry of a new key or update the entry of a known
    one. *)

Section GroupLoop.
Context {A K V : Type} `{EqDecision K}.
Variable key : A -> option K.
Variable init : A -> V.
Variable upd : V -> A -> V.

Definition groupStep (m : JsMap.t K V) (a : A) : JsMap.t K V :=
  match key a with
  | None => m
  | Some k =>
      match JsMap.get k m with
      | Some existing => JsMap.set k (upd existing a) m
      | None => JsMap.set k (init a) m
      end
  end.

(** The records of one key, in input order. *)
Definition membersOf (k : K) (l : list A) : list A :=
  List.filter (fun a => bool_decide (key a = Some k)) l.

(** What the map holds after the records [seen]: one entry per key met, and
    under a key the entry created from its first record and updated with
    the later ones. *)
Definition groupedBy (m : JsMap.t K V) (seen : list A) : Prop :=
  List.NoDup (JsMap.keys m) /\
  (forall k, In k (JsMap.keys m) <-> In (Some k) (map key seen)) /\
  forall k v, JsMap.get k m = Some v ->
    exists first rest,
      membersOf k seen = first :: rest /\ v = fold_left upd rest (init first).

End GroupLoop.

(** *** The aggregations as instances of the grouping loop *)

(** [zap.zappedEvent?.id] *)
Definition contentIdOf (zap : ParsedZap) : option string := ze_id <$> zappedEvent zap.

(** [zap.zappedEvent?.kind] *)
Definition contentKindOf (zap : ParsedZap) : option Z := ze_kind <$> zappedEvent zap.

(** The content a record references, with the blank the parser writes when
    there is none. *)
Definition targetOf (zap : ParsedZap) : ZappedEvent :=
  default {| ze_id := ""; ze_kind := 1; ze_author := ""; ze_content := "";
             ze_created_at := 0 |} (zappedEvent zap).

Definition content_init (zap : ParsedZap) : EarningsByContent :=
  {| ec_eventId := ze_id (targetOf zap);
     ec_eventKind := ze_kind (targetOf zap);
     ec_content := ze_content (targetOf zap);
     ec_author := ze_author (targetOf zap);
     ec_totalSats := amount zap;
     ec_zapCount := 1;
     ec_created_at := ze_created_at (targetOf zap) |}.

Definition content_upd (existing : EarningsByContent) (zap : ParsedZap) : EarningsByContent :=
  {| ec_eventId := ec_eventId existing;
     ec_eventKind := ec_eventKind existing;
     ec_content := ec_content existing;
     ec_author := ec_author existing;
     ec_totalSats := ec_totalSats existing + amount zap;
     ec_zapCount := ec_zapCount existing + 1;
     ec_created_at := ec_created_at existing |}.

Definition zapper_init (zap : ParsedZap) : ZapperStats :=
  {| zs_pubkey := zp_pubkey (zapper zap);
     zs_name := zp_name (zapper zap);
     zs_nip05 := zp_nip05 (zapper zap);
     zs_picture := zp_picture (zapper zap);
     zs_totalSats := amount zap;
     zs_zapCount := 1 |}.

Definition zapper_upd (existing : ZapperStats) (zap : ParsedZap) : ZapperStats :=
  {| zs_pubkey := zs_pubkey existing;
     zs_name := zs_name existing;
     zs_nip05 := zs_nip05 existing;
     zs_picture := zs_picture existing;
     zs_totalSats := zs_totalSats existing + amount zap;
     zs_zapCount := zs_zapCount existing + 1 |}.

Definition data_init (zap : ParsedZap) : ContentData :=
  {| cd_eventId := ze_id (targetOf zap);
     cd_eventKind := ze_kind (targetOf zap);
     cd_content := ze_content (targetOf zap);
     cd_author := ze_author (targetOf zap);
     cd_created_at := ze_created_at (targetOf zap);
     cd_zaps := [zap];
     cd_totalSats := amount zap;
     cd_zapCount := 1 |}.

Definition data_upd (existing : ContentData) (zap : ParsedZap) : ContentData :=
  {| cd_eventId := cd_eventId existing;
     cd_eventKind := cd_eventKind existing;
     cd_content := cd_content existing;
     cd_author := cd_author existing;
     cd_created_at := cd_created_at existing;
     cd_zaps := cd_zaps existing ++ [zap];
     cd_totalSats := cd_totalSats existing + amount zap;
     cd_zapCount := cd_zapCount existing + 1 |}.

(** *** Views of the content analyses *)

(** The same function applied to every value of a map. *)
Definition mapValues {K V W : Type} (f : V -> W) (m : JsMap.t K V) : JsMap.t K W :=
  map (fun kv => (fst kv, f (snd kv))) m.

(** The fields [analyzeContentPerformance] and [groupZapsByContent] both
    keep for a piece of content. *)
Definition summaryOf (content : ContentData) : EarningsByContent :=
  {| ec_eventId := cd_eventId content;
     ec_eventKind := cd_eventKind content;
     ec_content := cd_content content;
     ec_author := cd_author content;
     ec_totalSats := cd_totalSats content;
     ec_zapCount := cd_zapCount content;
     ec_created_at := cd_created_at content |}.

Definition cp_summary (p : ContentPerformance) : EarningsByContent :=
  {| ec_eventId := cp_eventId p;
     ec_eventKind := cp_eventKind p;
     ec_content := cp_content p;
     ec_author := cp_author p;
     ec_totalSats := cp_totalSats p;
     ec_zapCount := cp_zapCount p;
     ec_created_at := cp_created_at p |}.

(** The earnings of the zaps of [mine] received within [hours] hours of
    [created_at] (seconds). *)
Definition earnedWithin (created_at : Z) (mine : list ParsedZap) (hours : Z) : Z :=
  sumZ (map amount (zapsUntil (created_at * 1000 + hours * 60 * 60 * 1000) mine)).

(** [groupZapsByPeriod] as an instance of the loop: the key of a record is
    the key of its period; a new bucket starts from the zero entry dated by
    the record that opens it. *)
Definition periodKeyOf (api : DateApi) (g : GroupBy) (zap : ParsedZap) : option string :=
  Some (fst (periodOf api g (zapDate zap))).

Definition period_init (api : DateApi) (g : GroupBy) (zap : ParsedZap) : PeriodStats :=
  {| ps_totalSats := 0 + amount zap;
     ps_zapCount := 0 + 1;
     ps_date := snd (periodOf api g (zapDate zap)) |}.

Definition period_upd (existing : PeriodStats) (zap : ParsedZap) : PeriodStats :=
  {| ps_totalSats := ps_totalSats existing + amount zap;
     ps_zapCount := ps_zapCount existing + 1;
     ps_date := ps_date existing |}.

(** *** The shape of a hashtag *)

(** A lower-case letter, a digit or an underscore. *)
Definition isTagChar (c : ascii) : bool :=
  let n := nat_of_ascii c in
  ((97 <=? n) && (n <=? 122))%nat || ((48 <=? n) && (n <=? 57))%nat || (n =? 95)%nat.

Fixpoint allChars (p : ascii -> bool) (s : string) : bool :=
  match s with
  | EmptyString => true
  | String c rest => p c && allChars p rest
  end.

(** A [#] followed by one tag character at least, and by nothing else. *)
Definition isHashtag (tag : string) : bool :=
  match tag with
  | String c (String c' rest) =>
      Ascii.eqb c "#" && allChars isTagChar (String c' rest)
  | _ => false
  end.


(** ** The rest of the controller (useProgressiveZapReceipts) *)

(** The state update of the window effect (lines 98-160): the hook reads
    the user's entry of the module-level cache and projects it on the
    window. [nowMs] is the reading of [Date.now()]. *)
Definition initFromCache (user : option string) (timeRange : TimeRange)
    (customRange : option CustomDateRange) (nowMs : Z)
    (cache : gmap string (list ZapReceipt)) (prev : ZapLoadingState) : ZapLoadingState :=
  if negb (Js.truthy_str user) then prev
  else
    let userCache := default [] (cache !! default "" user) in
    let '(since, until) := getDateRange nowMs timeRange customRange in
    let filteredReceipts := filterForRange timeRange since until userCache in
    let oldestCachedTimestamp := default 0 (oldestTimestamp userCache) in
    let hasCompleteCoverage :=
      (0 <? Z.of_nat (length userCache)) && (oldestCachedTimestamp <=? since) in
    {| receipts := filteredReceipts;
       isLoading := isLoading prev;
       isComplete := hasCompleteCoverage;
       currentBatch := currentBatch prev;
       totalFetched := Z.of_nat (length filteredReceipts);
       relayLimit := relayLimit prev;
       error := None;
       autoLoadEnabled := autoLoadEnabled prev;
       consecutiveFailures := consecutiveFailures prev;
       allReceiptsCache := userCache |}.

(** [toggleAutoLoad] (lines 646-648). *)
Definition toggleAutoLoad (prev : ZapLoadingState) : ZapLoadingState :=
  {| receipts := receipts prev;
     isLoading := isLoading prev;
     isComplete := isComplete prev;
     currentBatch := currentBatch prev;
     totalFetched := totalFetched prev;
     relayLimit := relayLimit prev;
     error := error prev;
     autoLoadEnabled := negb (autoLoadEnabled prev);
     consecutiveFailures := consecutiveFailures prev;
     allReceiptsCache := allReceiptsCache prev |}.

(** The state update of [restartAutoLoad] (lines 651-656). *)
Definition restartAutoLoad (prev : ZapLoadingState) : ZapLoadingState :=
  {| receipts := receipts prev;
     isLoading := isLoading prev;
     isComplete := isComplete prev;
     currentBatch := currentBatch prev;
     totalFetched := totalFetched prev;
     relayLimit := relayLimit prev;
     error := error prev;
     autoLoadEnabled := true;
     consecutiveFailures := 0;
     allReceiptsCache := allReceiptsCache prev |}.


(** The decision of the extension effect (lines 577-614): [true] when it
    schedules an automatic call. *)
Definition needsExtendedData (user : option string) (timeRange : TimeRange)
    (customRange : option CustomDateRange) (nowMs : Z) (currentState : ZapLoadingState)
    : bool :=
  let since := fst (getDateRange nowMs timeRange customRange) in
  let cache := allReceiptsCache currentState in
  let oldestCachedTimestamp := default 0 (oldestTimestamp cache) in
  if negb (Js.truthy_str user) then false
  else if is_custom timeRange &&
          ((0 <? Z.of_nat (length cache)) && (oldestCachedTimestamp <=? since))
  then false
  else
    let withinBoundaryTolerance :=
      oldestCachedTimestamp <=? since + BOUNDARY_TOLERANCE_SECONDS in
    (0 <? Z.of_nat (length (receipts currentState))) &&
    (since <? oldestCachedTimestamp) &&
    negb withinBoundaryTolerance &&
    negb (isLoading currentState) &&
    negb (isComplete currentState) &&
    autoLoadEnabled currentState.

(** What happens to the hook between two renders: a call of
    [loadMoreZaps] that runs to its end, the window effect, the reset on a
    change of user, and the two switches of the automatic loading. *)
Inductive Action :=
| LoadMore (user : option string) (timeRange : TimeRange)
    (customRange : option CustomDateRange) (clock : Clock)
    (isLoadingRef isAutomatic : bool)
| WindowChanged (user : option string) (timeRange : TimeRange)
    (customRange : option CustomDateRange) (nowMs : Z)
| UserChanged
| ToggleAutoLoad
| RestartAutoLoad.

Section Hook.

Variable lightningDecode : string -> option (option Z).
Variable query : Filter -> QueryResult.

Definition act (w : World) (a : Action) : World :=
  match a with
  | LoadMore user timeRange customRange clock isLoadingRef isAutomatic =>
      match loadMoreZaps lightningDecode query user timeRange customRange clock
              isLoadingRef isAutomatic w with
      | Skipped => w
      | Fetched _ w' _ => w'
      end
  | WindowChanged user timeRange customRange nowMs =>
      {| state := initFromCache user timeRange customRange nowMs (userZapCache w) (state w);
         userZapCache := userZapCache w |}
  | UserChanged => {| state := initialState; userZapCache := userZapCache w |}
  | ToggleAutoLoad => {| state := toggleAutoLoad (state w); userZapCache := userZapCache w |}
  | RestartAutoLoad => {| state := restartAutoLoad (state w); userZapCache := userZapCache w |}
  end.

(** The hook after a history of actions, from the mount with an empty
    module-level cache. *)
Definition after (history : list Action) : World := fold_left act history emptyWorld.

End Hook.

(** [(a, b) => b.created_at - a.created_at] keeps this order. *)
Definition newestFirstSorted (l : list ZapReceipt) : Prop :=
  Sorted (fun a b => ev_created_at b <= ev_created_at a) l.

(** What every state of the hook satisfies. *)
Definition wellFormed (lightningDecode : string -> option (option Z)) (w : World) : Prop :=
  let st := state w in
  match relayLimit st with Some limit => 250 <= limit | None => True end /\
  0 <= consecutiveFailures st /\
  0 <= currentBatch st /\
  isLoading st = false /\
  totalFetched st = Z.of_nat (length (receipts st)) /\
  Forall (fun r => In r (allReceiptsCache st)) (receipts st) /\
  newestFirstSorted (receipts st) /\
  newestFirstSorted (allReceiptsCache st) /\
  Forall (fun r => isValidZapReceipt lightningDecode r = true) (allReceiptsCache st) /\
  forall pubkey stored, userZapCache w !! pubkey = Some stored ->
    newestFirstSorted stored /\
    Forall (fun r => isValidZapReceipt lightningDecode r = true) stored.

(** A transport that honours the [until] of a filter: no event it returns
    is younger. *)
Definition honoursUntil (query : Filter -> QueryResult) : Prop :=
  forall request events u,
    query request = Events events -> f_until request = Some u ->
    Forall (fun e => ev_created_at e <= u) events.

(** A relay that holds the three sample receipts and honours [until]; a
    second fetch of the 24-hour window through it, after the sparse one. *)
Module Honest.

Definition relay (request : Filter) : QueryResult :=
  Events (List.filter
            (fun e => match f_until request with
                      | Some u => ev_created_at e <=? u
                      | None => true
                      end)
            [Sample.receipt3; Sample.receipt1; Sample.receipt2]).

Definition secondRun : Outcome :=
  loadMoreZaps Sample.decode relay (Some "alice") R24h None Sample.clock
    false false Runs.afterSparse.

Definition secondRequest : Filter := default emptyFilter (requestOf secondRun).
Definition afterSecond : World := default emptyWorld (worldOf secondRun).

End Honest.

(** ** Parsing and enrichment in useZapAnalytics (lines 984-1014) *)

(** The fields of a profile the enrichment reads; any of them may be
    missing from the [JSON.parse]d metadata. *)
Record Profile := {
  pf_name : option string;
  pf_display_name : option string;
  pf_nip05 : option string;
  pf_picture : option string
}.

(** [receipts.map(parseZapReceipt).filter(zap => zap !== null)] *)
Definition parsedZapsOf (lightningDecode : string -> option (option Z))
    (jsonParseZapRequest : string -> option ZapRequest) (receipts : list ZapReceipt)
    : list ParsedZap :=
  omap (parseZapReceipt lightningDecode jsonParseZapRequest) receipts.

(** One pass of [parsedZaps.forEach] (lines 989-1014). A profile stored as
    a falsy value ([None]) is skipped. *)
Definition enrichZap (contentMap : JsMap.t string NostrEvent)
    (profileMap : JsMap.t string (option Profile)) (zap : ParsedZap) : ParsedZap :=
  let zappedEvent' :=
    match zappedEvent zap with
    | Some ze =>
        match JsMap.get (ze_id ze) contentMap with
        | Some event =>
            Some {| ze_id := ze_id ze;
                    ze_kind := ev_kind event;
                    ze_author := ev_pubkey event;
                    ze_content := ev_content event;
                    ze_created_at := ev_created_at event |}
        | None => Some ze
        end
    | None => None
    end in
  let zapper' :=
    match JsMap.get (zp_pubkey (zapper zap)) profileMap with
    | Some (Some profile) =>
        {| zp_pubkey := zp_pubkey (zapper zap);
           zp_name := if Js.truthy_str (pf_name profile) then pf_name profile
                      else pf_display_name profile;
           zp_nip05 := pf_nip05 profile;
           zp_picture := pf_picture profile |}
    | _ => zapper zap
    end in
  {| receipt := receipt zap;
     zappedEvent := zappedEvent';
     zapper := zapper';
     amount := amount zap;
     comment := comment zap;
     zapRequest := zapRequest zap |}.

(** What a ranking entry says of earnings: its key, its total, its count. *)
Definition zs_figures (s : ZapperStats) : string * Z * Z :=
  (zs_pubkey s, zs_totalSats s, zs_zapCount s).

Definition ec_figures (e : EarningsByContent) : string * Z * Z :=
  (ec_eventId e, ec_totalSats e, ec_zapCount e).

(** ** Fetching the zapped content (useZappedContent, lines 683-779) *)

(** [for (let i = 0; i < list.length; i += chunkSize)
       chunks.push(list.slice(i, i + chunkSize))]; [fuel] bounds the number
    of rounds, and the length of the list is enough of it. *)
Fixpoint chunksFrom {A : Type} (fuel chunkSize : nat) (l : list A) : list (list A) :=
  match fuel with
  | O => []
  | S fuel' =>
      match l with
      | [] => []
      | _ :: _ => firstn chunkSize l :: chunksFrom fuel' chunkSize (skipn chunkSize l)
      end
  end.

Definition chunksOf {A : Type} (chunkSize : nat) (l : list A) : list (list A) :=
  chunksFrom (length l) chunkSize l.

(** [processChunk]: a query that throws counts as no event. *)
Definition processChunk (queryIds : list string -> QueryResult) (chunk : list string)
    : list NostrEvent :=
  match queryIds chunk with
  | Events events => events
  | Throws _ => []
  end.

(** The first loop of the query function: cached events go to the result,
    the other ids to the list to fetch. *)
Definition splitCached (contentEventCache : gmap string NostrEvent)
    (acc : JsMap.t string NostrEvent * list string) (eventId : string)
    : JsMap.t string NostrEvent * list string :=
  match contentEventCache !! eventId with
  | Some event => (JsMap.set eventId event (fst acc), snd acc)
  | None => (fst acc, snd acc ++ [eventId])
  end.

Record ContentFetch := {
  requestedChunks : list (list string);
  eventMap : JsMap.t string NostrEvent;
  contentEventCache : gmap string NostrEvent
}.

(** The query function on the ids [eventIds]: what it asks the relays,
    what it returns and what it leaves in the module-level cache. The
    batches of three concurrent requests keep the order of the chunks. *)
Definition fetchContent (queryIds : list string -> QueryResult)
    (cache : gmap string NostrEvent) (eventIds : list string) : ContentFetch :=
  let '(cachedMap, uncachedEventIds) :=
    fold_left (splitCached cache) eventIds (JsMap.empty, []) in
  match uncachedEventIds with
  | [] => {| requestedChunks := []; eventMap := cachedMap; contentEventCache := cache |}
  | _ :: _ =>
      let chunks := chunksOf 150 uncachedEventIds in
      let allEvents := concat (map (processChunk queryIds) chunks) in
      {| requestedChunks := chunks;
         eventMap := fold_left (fun m event => JsMap.set (ev_id event) event m)
                       allEvents cachedMap;
         contentEventCache := fold_left (fun c event => <[ev_id event := event]> c)
                                allEvents cache |}
  end.

(** The pubkey [useZapAnalytics] lists for the profile fetch of one receipt
    (lines 902-916): the pubkey of the zap request when the description
    parses, the pubkey of the receipt otherwise; a falsy pubkey is dropped. *)
Definition listedZapper (jsonParseZapRequest : string -> option ZapRequest)
    (r : ZapReceipt) : option string :=
  let pubkey :=
    match truthy_tag_value "description" (ev_tags r) with
    | Some desc =>
        match jsonParseZapRequest desc with
        | Some zapRequest => zr_pubkey zapRequest
        | None => Some (ev_pubkey r)
        end
    | None => Some (ev_pubkey r)
    end in
  if Js.truthy_str pubkey then pubkey else None.

(** * Properties *)

(** ** Arrays: sorting, sums, minima *)

Section SortFacts.
Context {A : Type}.
Variable cmp : A -> A -> Z.

Lemma sort_insert_perm (x : A) (l : list A) :
  Permutation (Js.sort_insert cmp x l) (x :: l).
Proof.
  induction l as [|y ys IH]; simpl.
  - reflexivity.
  - destruct (cmp x y <=? 0).
    + reflexivity.
    + rewrite IH. apply perm_swap.
Qed.

Lemma sort_perm (l : list A) : Permutation (Js.sort cmp l) l.
Proof.
  induction l as [|x xs IH]; simpl.
  - reflexivity.
  - rewrite sort_insert_perm. now apply perm_skip.
Qed.

Lemma sort_length (l : list A) : length (Js.sort cmp l) = length l.
Proof. apply Permutation_length, sort_perm. Qed.

(** A sorted array is left as it is: the sort is stable. *)
Lemma sort_sorted_id (l : list A) :
  Sorted (fun a b => cmp a b <= 0) l -> Js.sort cmp l = l.
Proof.
  induction 1 as [|x l Hl IH Hhd]; simpl.
  - reflexivity.
  - rewrite IH. destruct Hhd as [|y ys Hxy]; simpl.
    + reflexivity.
    + destruct (Z.leb_spec (cmp x y) 0); [reflexivity | lia].
Qed.

Hypothesis cmp_total : forall x y, 0 < cmp x y -> cmp y x <= 0.

Lemma sort_insert_sorted (x : A) (l : list A) :
  Sorted (fun a b => cmp a b <= 0) l ->
  Sorted (fun a b => cmp a b <= 0) (Js.sort_insert cmp x l).
Proof.
  induction 1 as [|y ys Hys IH Hhd]; simpl.
  - repeat constructor.
  - destruct (Z.leb_spec (cmp x y) 0) as [Hle|Hgt].
    + constructor; [constructor; assumption | constructor; assumption].
    + constructor; [exact IH|].
      destruct Hhd as [|z zs Hyz]; simpl.
      * constructor. now apply cmp_total.
      * destruct (cmp x z <=? 0); constructor; [now apply cmp_total | assumption].
Qed.

Lemma sort_sorted (l : list A) : Sorted (fun a b => cmp a b <= 0) (Js.sort cmp l).
Proof.
  induction l as [|x xs IH]; simpl.
  - constructor.
  - now apply sort_insert_sorted.
Qed.

End SortFacts.

Lemma fold_sum_acc {A : Type} (f : A -> Z) (l : list A) (a : Z) :
  fold_left (fun sum x => sum + f x) l a = a + sumZ (map f l).
Proof.
  revert a. induction l as [|x xs IH]; intros a; simpl.
  - lia.
  - rewrite IH. lia.
Qed.

Lemma reduce_sum_sumZ {A : Type} (f : A -> Z) (l : list A) :
  Js.reduce_sum f l = sumZ (map f l).
Proof. unfold Js.reduce_sum. now rewrite fold_sum_acc. Qed.

Lemma sumZ_app (l1 l2 : list Z) : sumZ (l1 ++ l2) = sumZ l1 + sumZ l2.
Proof. induction l1 as [|x xs IH]; simpl; lia. Qed.

Lemma sumZ_perm (l1 l2 : list Z) : Permutation l1 l2 -> sumZ l1 = sumZ l2.
Proof. induction 1; simpl; lia. Qed.

Lemma Math_min_le (x : Z) (rest : list Z) :
  Js.Math_min x rest <= x /\ Forall (fun y => Js.Math_min x rest <= y) rest.
Proof.
  unfold Js.Math_min. revert x. induction rest as [|y ys IH]; intros x; simpl.
  - split; [lia | constructor].
  - destruct (IH (Z.min x y)) as [H1 H2]. split; [lia|].
    constructor; [lia | exact H2].
Qed.

Lemma Math_min_in (x : Z) (rest : list Z) : In (Js.Math_min x rest) (x :: rest).
Proof.
  unfold Js.Math_min. revert x. induction rest as [|y ys IH]; intros x; simpl.
  - now left.
  - destruct (IH (Z.min x y)) as [H|H].
    + destruct (Z.min_spec x y) as [[_ E]|[_ E]]; rewrite E in H;
        [left | right; left]; congruence.
    + right; right; exact H.
Qed.

(** [oldestTimestamp] is the least [created_at] of a non-empty array. *)
Lemma oldestTimestamp_spec (l : list ZapReceipt) (m : Z) :
  oldestTimestamp l = Some m <->
  In m (map ev_created_at l) /\ Forall (fun r => m <= ev_created_at r) l.
Proof.
  unfold oldestTimestamp, Js.min_of. destruct l as [|r rs]; simpl.
  - split; [discriminate | intros [[] _]].
  - pose proof (Math_min_le (ev_created_at r) (map ev_created_at rs)) as [Hx Hrest].
    pose proof (Math_min_in (ev_created_at r) (map ev_created_at rs)) as Hin.
    split.
    + intros [= <-]. split; [exact Hin|].
      constructor; [exact Hx|]. rewrite Forall_map in Hrest. exact Hrest.
    + intros [Hm Hall]. f_equal.
      assert (Hle : m <= Js.Math_min (ev_created_at r) (map ev_created_at rs)).
      { assert (Hall' : Forall (fun y => m <= y) (ev_created_at r :: map ev_created_at rs)).
        { rewrite <- map_cons, Forall_map. exact Hall. }
        rewrite List.Forall_forall in Hall'. now apply Hall'. }
      assert (Hge : Js.Math_min (ev_created_at r) (map ev_created_at rs) <= m).
      { destruct Hm as [<-|Hm]; [exact Hx|].
        rewrite List.Forall_forall in Hrest. now apply Hrest. }
      lia.
Qed.

Lemma oldestTimestamp_nonempty (l : list ZapReceipt) :
  l <> [] -> exists m, oldestTimestamp l = Some m.
Proof. destruct l; [congruence | intros _; eexists; reflexivity]. Qed.

Lemma oldestTimestamp_oldestOf (l : list ZapReceipt) (t : Z) :
  oldestTimestamp l = Some t <-> oldestOf l t.
Proof.
  rewrite oldestTimestamp_spec. unfold oldestOf.
  rewrite in_map_iff, List.Forall_forall. split.
  - intros ((r & Ht & Hin) & Hall). split; [exists r; auto | exact Hall].
  - intros ((r & Hin & Ht) & Hall). split; [exists r; auto | exact Hall].
Qed.

Lemma oldestOf_perm (l1 l2 : list ZapReceipt) (t : Z) :
  Permutation l1 l2 -> oldestOf l1 t <-> oldestOf l2 t.
Proof.
  intros Hperm. unfold oldestOf. split.
  - intros ((r & Hin & Ht) & Hall). split.
    + exists r. split; [eapply Permutation_in; eauto | exact Ht].
    + intros r' Hin'. apply Hall. eapply Permutation_in; [symmetry; exact Hperm | exact Hin'].
  - intros ((r & Hin & Ht) & Hall). split.
    + exists r. split; [eapply Permutation_in; [symmetry; exact Hperm | exact Hin] | exact Ht].
    + intros r' Hin'. apply Hall. eapply Permutation_in; eauto.
Qed.

(** ** Validation and parsing *)

Lemma truthy_tag_value_spec (name : string) (tags : list (list string)) (v : string) :
  truthy_tag_value name tags = Some v <->
  exists tag, find_tag name tags = Some tag /\ tag_value tag = Some v /\ v <> "".
Proof.
  unfold truthy_tag_value. destruct (find_tag name tags) as [tag|].
  - destruct (tag_value tag) as [s|] eqn:Hv; simpl.
    + destruct (String.eqb_spec s ""); simpl.
      * split; [discriminate|]. intros (t & [= <-] & Ht & Hne). congruence.
      * split.
        -- intros [= <-]. exists tag. now rewrite Hv.
        -- intros (t & [= <-] & Ht & _). congruence.
    + split; [discriminate|]. intros (t & [= <-] & Ht & _). congruence.
  - split; [discriminate|]. intros (t & Ht & _). discriminate.
Qed.

Lemma truthy_tag_value_none (name : string) (tags : list (list string)) :
  truthy_tag_value name tags = None <->
  find_tag name tags = None \/
  exists tag, find_tag name tags = Some tag /\
              (tag_value tag = None \/ tag_value tag = Some "").
Proof.
  unfold truthy_tag_value. destruct (find_tag name tags) as [tag|].
  - destruct (tag_value tag) as [s|] eqn:Hv; simpl.
    + destruct (String.eqb_spec s ""); simpl.
      * subst s. split; [|reflexivity]. intros _. right. exists tag. auto.
      * split; [discriminate|].
        intros [H|(t & [= <-] & [H|H])]; congruence.
    + split; [|reflexivity]. intros _. right. exists tag. auto.
  - split; auto.
Qed.

(** [Array.prototype.find] returns the first element that satisfies the
    predicate, and [undefined] when there is none. *)
Lemma find_first {A : Type} (p : A -> bool) (l : list A) (x : A) :
  List.find p l = Some x <->
  exists before after,
    l = before ++ x :: after /\ p x = true /\ Forall (fun y => p y = false) before.
Proof.
  induction l as [|y l IH]; simpl.
  - split; [discriminate|]. intros (before & rest & Heq & _). now destruct before.
  - destruct (p y) eqn:Hy.
    + split.
      * intros [= <-]. exists [], l. split; [reflexivity|]. split; [exact Hy | constructor].
      * intros (before & rest & Heq & Hx & Hall).
        destruct before as [|b before]; simpl in Heq.
        -- congruence.
        -- injection Heq as <- _. inversion Hall; subst. congruence.
    + rewrite IH. split.
      * intros (before & rest & -> & Hx & Hall).
        exists (y :: before), rest. split; [reflexivity|]. split; [exact Hx|].
        now constructor.
      * intros (before & rest & Heq & Hx & Hall).
        destruct before as [|b before]; simpl in Heq.
        -- injection Heq as <- _. congruence.
        -- injection Heq as <- ->. exists before, rest.
           split; [reflexivity|]. split; [exact Hx|]. now inversion Hall.
Qed.

Lemma find_nothing {A : Type} (p : A -> bool) (l : list A) :
  List.find p l = None <-> Forall (fun y => p y = false) l.
Proof.
  induction l as [|y l IH]; simpl.
  - split; [constructor | reflexivity].
  - destruct (p y) eqn:Hy.
    + split; [discriminate|]. intros Hall. inversion Hall; subst. congruence.
    + rewrite IH. split.
      * intros Hall. now constructor.
      * intros Hall. now inversion Hall.
Qed.

Lemma tag_named_spec (name : string) (tag : list string) :
  match nth_error tag 0 with
  | Some s => String.eqb s name
  | None => false
  end = true <-> nth_error tag 0 = Some name.
Proof.
  destruct (nth_error tag 0) as [s|].
  - destruct (String.eqb_spec s name) as [->|Hne].
    + split; auto.
    + split; [discriminate | congruence].
  - split; discriminate.
Qed.

Lemma tag_not_named_spec (name : string) (tag : list string) :
  match nth_error tag 0 with
  | Some s => String.eqb s name
  | None => false
  end = false <-> nth_error tag 0 <> Some name.
Proof.
  rewrite <- tag_named_spec.
  destruct (match nth_error tag 0 with Some s => String.eqb s name | None => false end);
    split; congruence.
Qed.

Lemma find_tag_none (name : string) (tags : list (list string)) :
  find_tag name tags = None <-> noTagNamed name tags.
Proof.
  unfold find_tag, noTagNamed. rewrite find_nothing.
  split; apply List.Forall_impl; intros t; apply tag_not_named_spec.
Qed.

Lemma find_tag_first (name : string) (tags : list (list string)) (tag : list string) :
  find_tag name tags = Some tag <-> firstTagNamed name tags tag.
Proof.
  unfold find_tag, firstTagNamed. rewrite find_first.
  split; intros (before & rest & Heq & Hname & Hall); exists before, rest;
    (split; [exact Heq|]); (split; [now apply tag_named_spec|]);
    revert Hall; apply List.Forall_impl; intros t; apply tag_not_named_spec.
Qed.

Section ParsingFacts.

Variable lightningDecode : string -> option (option Z).
Variable jsonParseZapRequest : string -> option ZapRequest.

Lemma isValidZapReceipt_spec (event : NostrEvent) :
  isValidZapReceipt lightningDecode event = true <->
  ev_kind event = 9735 /\
  exists bolt11, truthy_tag_value "bolt11" (ev_tags event) = Some bolt11 /\
                 0 < parseBolt11Amount lightningDecode bolt11.
Proof.
  unfold isValidZapReceipt. destruct (Z.eqb_spec (ev_kind event) 9735) as [Hk|Hk]; simpl.
  - destruct (truthy_tag_value "bolt11" (ev_tags event)) as [b|].
    + rewrite Z.ltb_lt. split.
      * intros H. split; [exact Hk|]. exists b. auto.
      * intros (_ & b' & [= <-] & H). exact H.
    + split; [discriminate|]. intros (_ & b' & H & _). discriminate.
  - split; [discriminate|]. intros [H _]. contradiction.
Qed.

Lemma parseZapReceipt_some (zapEvent : ZapReceipt) (bolt11 : string) :
  truthy_tag_value "bolt11" (ev_tags zapEvent) = Some bolt11 ->
  parseBolt11Amount lightningDecode bolt11 <> 0 ->
  exists zap, parseZapReceipt lightningDecode jsonParseZapRequest zapEvent = Some zap /\
              amount zap = parseBolt11Amount lightningDecode bolt11 /\
              receipt zap = zapEvent.
Proof.
  intros Hb Ha. unfold parseZapReceipt. rewrite Hb.
  destruct (Z.eqb_spec (parseBolt11Amount lightningDecode bolt11) 0); [contradiction|].
  eexists. split; [reflexivity|]. simpl. auto.
Qed.

Lemma parseZapReceipt_none (zapEvent : ZapReceipt) :
  parseZapReceipt lightningDecode jsonParseZapRequest zapEvent = None ->
  truthy_tag_value "bolt11" (ev_tags zapEvent) = None \/
  exists bolt11, truthy_tag_value "bolt11" (ev_tags zapEvent) = Some bolt11 /\
                 parseBolt11Amount lightningDecode bolt11 = 0.
Proof.
  unfold parseZapReceipt.
  destruct (truthy_tag_value "bolt11" (ev_tags zapEvent)) as [b|]; [|auto].
  destruct (Z.eqb_spec (parseBolt11Amount lightningDecode b) 0); [|discriminate].
  intros _. right. exists b. auto.
Qed.

Lemma parseBolt11Amount_pos (bolt11 : string) :
  0 < parseBolt11Amount lightningDecode bolt11 <->
  exists msat, lightningDecode bolt11 = Some (Some msat) /\ 0 < msat / 1000.
Proof.
  unfold parseBolt11Amount. destruct (lightningDecode bolt11) as [[v|]|].
  - split; [intros H; exists v; auto | now intros (m & [= <-] & H)].
  - split; [lia | now intros (m & Hd & _)].
  - split; [lia | now intros (m & Hd & _)].
Qed.

Lemma parseBolt11Amount_zero (bolt11 : string) :
  parseBolt11Amount lightningDecode bolt11 = 0 <->
  lightningDecode bolt11 = None \/
  lightningDecode bolt11 = Some None \/
  exists msat, lightningDecode bolt11 = Some (Some msat) /\ msat / 1000 = 0.
Proof.
  unfold parseBolt11Amount. destruct (lightningDecode bolt11) as [[v|]|].
  - split.
    + intros H. right; right. exists v. auto.
    + intros [Hd|[Hd|(m & [= <-] & H)]]; [discriminate | discriminate | exact H].
  - split; auto.
  - split; auto.
Qed.

Lemma parseZapReceipt_none_iff (zapEvent : ZapReceipt) :
  parseZapReceipt lightningDecode jsonParseZapRequest zapEvent = None <->
  truthy_tag_value "bolt11" (ev_tags zapEvent) = None \/
  exists bolt11, truthy_tag_value "bolt11" (ev_tags zapEvent) = Some bolt11 /\
                 parseBolt11Amount lightningDecode bolt11 = 0.
Proof.
  split; [apply parseZapReceipt_none|].
  unfold parseZapReceipt.
  intros [Hn|(b & Hb & Ha)].
  - now rewrite Hn.
  - rewrite Hb. destruct (Z.eqb_spec (parseBolt11Amount lightningDecode b) 0);
      [reflexivity | contradiction].
Qed.

(** C10, as the code has it. Both functions look at one tag only, the
    first tag named [bolt11]. [isValidZapReceipt] accepts an event exactly
    when its kind is 9735, that tag has a non-empty value, the decoder reads
    an amount from that value and the amount, in whole sats, is strictly
    positive; an accepted event is parsed by [parseZapReceipt] into a record
    of the event whose amount is that number of sats; and [parseZapReceipt]
    answers [null] exactly when no tag is named [bolt11], or the value of
    the first such tag is missing or empty, or that value does not decode to
    an amount of a whole sat at least (the decoder throws, finds no amount,
    or finds less than 1000 millisats). The embedding has no other throwing
    path: the one call that can throw beside the decoder, [JSON.parse], is
    caught where it is made. *)
Theorem validator_accepts_what_the_parser_keeps (event : NostrEvent) :
  (isValidZapReceipt lightningDecode event = true <->
     ev_kind event = 9735 /\
     exists tag bolt11 msat,
       firstTagNamed "bolt11" (ev_tags event) tag /\
       nth_error tag 1 = Some bolt11 /\ bolt11 <> "" /\
       lightningDecode bolt11 = Some (Some msat) /\
       0 < msat / 1000) /\
  (isValidZapReceipt lightningDecode event = true ->
     exists zap tag bolt11 msat,
       parseZapReceipt lightningDecode jsonParseZapRequest event = Some zap /\
       firstTagNamed "bolt11" (ev_tags event) tag /\
       nth_error tag 1 = Some bolt11 /\
       lightningDecode bolt11 = Some (Some msat) /\
       amount zap = msat / 1000 /\
       0 < amount zap /\
       receipt zap = event) /\
  (parseZapReceipt lightningDecode jsonParseZapRequest event = None <->
     noTagNamed "bolt11" (ev_tags event) \/
     (exists tag, firstTagNamed "bolt11" (ev_tags event) tag /\
                  (nth_error tag 1 = None \/ nth_error tag 1 = Some "")) \/
     (exists tag bolt11,
        firstTagNamed "bolt11" (ev_tags event) tag /\
        nth_error tag 1 = Some bolt11 /\ bolt11 <> "" /\
        (lightningDecode bolt11 = None \/
         lightningDecode bolt11 = Some None \/
         exists msat, lightningDecode bolt11 = Some (Some msat) /\ msat / 1000 = 0))).
Proof.
  split; [|split].
  - rewrite isValidZapReceipt_spec. split.
    + intros (Hk & b & Hb & Ha). split; [exact Hk|].
      apply truthy_tag_value_spec in Hb as (tag & Hf & Hv & Hne).
      apply parseBolt11Amount_pos in Ha as (msat & Hd & Hpos).
      exists tag, b, msat. split; [now apply find_tag_first|]. auto.
    + intros (Hk & tag & b & msat & Hf & Hv & Hne & Hd & Hpos). split; [exact Hk|].
      exists b. split.
      * apply truthy_tag_value_spec. exists tag.
        split; [now apply find_tag_first|]. auto.
      * apply parseBolt11Amount_pos. exists msat. auto.
  - intros Hvalid. apply isValidZapReceipt_spec in Hvalid as (_ & b & Hb & Ha).
    destruct (parseZapReceipt_some event b Hb) as (zap & Hz & Hamt & Hr); [lia|].
    apply truthy_tag_value_spec in Hb as (tag & Hf & Hv & _).
    pose proof Ha as Ha'.
    apply parseBolt11Amount_pos in Ha' as (msat & Hd & Hpos).
    exists zap, tag, b, msat.
    split; [exact Hz|]. split; [now apply find_tag_first|].
    split; [exact Hv|]. split; [exact Hd|].
    split; [|split; [lia | exact Hr]].
    rewrite Hamt. unfold parseBolt11Amount. now rewrite Hd.
  - split.
    + intros Hnone. apply parseZapReceipt_none in Hnone as [Hn|(b & Hb & Ha)].
      * apply truthy_tag_value_none in Hn as [Hn|(tag & Hf & Hv)].
        -- left. now apply find_tag_none.
        -- right; left. exists tag. split; [now apply find_tag_first | exact Hv].
      * right; right. apply truthy_tag_value_spec in Hb as (tag & Hf & Hv & Hne).
        exists tag, b. split; [now apply find_tag_first|].
        split; [exact Hv|]. split; [exact Hne|].
        now apply parseBolt11Amount_zero.
    + intros [Hn|[(tag & Hf & Hv)|(tag & b & Hf & Hv & Hne & Hd)]].
      * apply parseZapReceipt_none_iff. left. apply truthy_tag_value_none. left.
        now apply find_tag_none.
      * apply parseZapReceipt_none_iff. left. apply truthy_tag_value_none. right.
        exists tag. split; [now apply find_tag_first | exact Hv].
      * apply parseZapReceipt_none_iff. right. exists b. split.
        -- apply truthy_tag_value_spec. exists tag.
           split; [now apply find_tag_first|]. auto.
        -- now apply parseBolt11Amount_zero.
Qed.

(** C10, as the specification words it, fails: an event of kind 9735 can
    have a bolt11 tag with a non-empty value that decodes to 21 sats and
    still be refused by the validator and by the parser, because an earlier
    tag named bolt11 has an empty value. *)
Lemma later_bolt11_tag_is_not_read :
  ev_kind Sample.shadowed = 9735 /\
  (exists tag bolt11 msat,
     In tag (ev_tags Sample.shadowed) /\
     nth_error tag 0 = Some "bolt11" /\
     nth_error tag 1 = Some bolt11 /\ bolt11 <> "" /\
     Sample.decode bolt11 = Some (Some msat) /\
     msat / 1000 = 21) /\
  isValidZapReceipt Sample.decode Sample.shadowed = false /\
  parseZapReceipt Sample.decode Sample.parseJson Sample.shadowed = None.
Proof.
  split; [reflexivity|]. split; [|split; reflexivity].
  exists ["bolt11"; "lnbc210n"], "lnbc210n", 21000.
  split; [simpl; auto|]. repeat split. discriminate.
Qed.

End ParsingFacts.

(** ** The pagination controller *)

Lemma reachedTimeBoundary_int (oldest since : Z) :
  reachedTimeBoundary (inject_Z oldest) since = true <->
  oldest <= since + BOUNDARY_TOLERANCE_SECONDS.
Proof.
  unfold reachedTimeBoundary. rewrite Qle_bool_iff, <- Zle_Qle. reflexivity.
Qed.

Lemma reachedTimeBoundary_now (nowMs since : Z) :
  reachedTimeBoundary (Qmake nowMs 1000) since = true <->
  nowMs <= (since + BOUNDARY_TOLERANCE_SECONDS) * 1000.
Proof.
  unfold reachedTimeBoundary. rewrite Qle_bool_iff. unfold Qle. simpl. lia.
Qed.

(** The [since] of a preset window lies a day at least before the clock
    reading it was computed from. *)
Lemma preset_since_bound (nowMs : Z) (timeRange : TimeRange)
    (customRange : option CustomDateRange) :
  is_custom timeRange = false ->
  (fst (getDateRange nowMs timeRange customRange) + 86400) * 1000 <= nowMs.
Proof.
  intros Hp. pose proof (Z.mul_div_le nowMs 1000 ltac:(lia)) as Hdiv.
  destruct timeRange; try discriminate; simpl; lia.
Qed.

Lemma decideComplete_spec (timeRange : TimeRange) (customRange : option CustomDateRange)
    (nowUpdate nowCheck : Z) (cached validReceipts : list ZapReceipt) :
  nowUpdate <= nowCheck ->
  let since := fst (getDateRange nowUpdate timeRange customRange) in
  decideComplete timeRange since nowCheck cached validReceipts = true <->
  if is_custom timeRange then validReceipts = []
  else (validReceipts = [] /\
        exists oldest, oldestTimestamp cached = Some oldest /\
                       oldest <= since + BOUNDARY_TOLERANCE_SECONDS) \/
       (validReceipts <> [] /\
        exists oldest, oldestTimestamp validReceipts = Some oldest /\
                       oldest <= since + BOUNDARY_TOLERANCE_SECONDS).
Proof.
  intros Hclock since. unfold decideComplete.
  destruct (is_custom timeRange) eqn:Hc; simpl.
  - destruct validReceipts; split; intros; congruence.
  - pose proof (preset_since_bound nowUpdate timeRange customRange Hc) as Hsince.
    fold since in Hsince.
    destruct validReceipts as [|r rs].
    + destruct (oldestTimestamp cached) as [o|] eqn:Ho.
      * rewrite reachedTimeBoundary_int. split.
        -- intros H. left. split; [reflexivity|]. exists o. auto.
        -- intros [(_ & o' & [= <-] & H)|(Hne & _)]; [exact H | congruence].
      * rewrite reachedTimeBoundary_now. unfold BOUNDARY_TOLERANCE_SECONDS. split.
        -- intros H. lia.
        -- intros [(_ & o' & Hd & _)|(Hne & _)]; [discriminate | congruence].
    + destruct (oldestTimestamp (r :: rs)) as [o|] eqn:Ho.
      * rewrite reachedTimeBoundary_int. split.
        -- intros H. right. split; [discriminate|]. exists o. auto.
        -- intros [(Hnil & _)|(_ & o' & [= <-] & H)]; [discriminate | exact H].
      * discriminate.
Qed.

Lemma mayFetch_true (user : option string) (isLoadingRef isAutomatic : bool)
    (currentState : ZapLoadingState) :
  mayFetch user isLoadingRef isAutomatic currentState = true <->
  Js.truthy_str user = true /\ isLoadingRef = false /\ isComplete currentState = false /\
  (isAutomatic = true ->
   autoLoadEnabled currentState = true /\
   consecutiveFailures currentState < ZAP_FETCH_CONFIG.MAX_CONSECUTIVE_FAILURES).
Proof.
  unfold mayFetch.
  destruct (Js.truthy_str user), isLoadingRef, (isComplete currentState); simpl;
    try (split; [discriminate | intros (? & ? & ? & _); discriminate]).
  destruct isAutomatic; simpl.
  - destruct (autoLoadEnabled currentState); simpl.
    + destruct (Z.leb_spec ZAP_FETCH_CONFIG.MAX_CONSECUTIVE_FAILURES
                  (consecutiveFailures currentState)) as [Hge|Hlt].
      * split; [discriminate|]. intros (_ & _ & _ & Ha). destruct (Ha eq_refl). lia.
      * split; [intros _; repeat split; auto | reflexivity].
    + split; [discriminate|]. intros (_ & _ & _ & Ha). destruct (Ha eq_refl). discriminate.
  - split; [intros _; repeat split; auto; discriminate | reflexivity].
Qed.

Section ControllerFacts.

Variable lightningDecode : string -> option (option Z).
Variable query : Filter -> QueryResult.

(** What a call that went on to fetch leaves behind, by the answer of the
    transport. *)
Lemma loadMoreZaps_fetched (user : option string) (timeRange : TimeRange)
    (customRange : option CustomDateRange) (clock : Clock)
    (isLoadingRef isAutomatic : bool) (w : World)
    (request : Filter) (w' : World) (next : bool) :
  loadMoreZaps lightningDecode query user timeRange customRange clock
    isLoadingRef isAutomatic w = Fetched request w' next ->
  mayFetch user isLoadingRef isAutomatic (state w) = true /\
  f_limit request = batchSizeFor isAutomatic (state w) /\
  match query request with
  | Events events =>
      (state w', userZapCache w') =
      onBatchSuccess (default "" user) timeRange customRange
        (nowUpdate clock) (nowCheck clock) (state w)
        (batchSizeFor isAutomatic (state w)) (validate lightningDecode events)
        (markLoading (state w)) (userZapCache w)
  | Throws msg =>
      state w' = onBatchFailure msg (markLoading (state w)) /\
      userZapCache w' = userZapCache w
  end.
Proof.
  unfold loadMoreZaps.
  destruct (mayFetch user isLoadingRef isAutomatic (state w)); simpl; [|discriminate].
  destruct (getDateRange (nowStart clock) timeRange customRange) as [since until].
  set (req := buildFilter _ _ _ _).
  destruct (query req) as [events|msg] eqn:Hq.
  - destruct (onBatchSuccess _ _ _ _ _ _ _ _ _ _) as [st cache] eqn:Hs.
    intros [= <- <- <-]. rewrite Hq. simpl. auto.
  - intros [= <- <- <-]. rewrite Hq. simpl. auto.
Qed.

Lemma validate_perm (events : list NostrEvent) :
  Permutation (validate lightningDecode events)
    (List.filter (isValidZapReceipt lightningDecode) events).
Proof. apply sort_perm. Qed.

Lemma validate_nil (events : list NostrEvent) :
  validate lightningDecode events = [] <->
  List.filter (isValidZapReceipt lightningDecode) events = [].
Proof.
  pose proof (validate_perm events) as Hperm. split; intros Hnil.
  - rewrite Hnil in Hperm. now apply Permutation_nil.
  - rewrite Hnil in Hperm. apply Permutation_nil. now symmetry.
Qed.

Lemma validate_oldest (events : list NostrEvent) (t : Z) :
  oldestTimestamp (validate lightningDecode events) = Some t <->
  oldestOf (List.filter (isValidZapReceipt lightningDecode) events) t.
Proof.
  rewrite oldestTimestamp_oldestOf. apply oldestOf_perm, validate_perm.
Qed.

(** C1. A fetch by [loadMoreZaps] marks the coverage of the window complete
    exactly when the transport answered and, with [validReceipts] the events
    of the batch that [isValidZapReceipt] accepts: for a custom range there
    is no valid receipt in the batch; for a preset range either there is
    none and the oldest cached receipt is within the one-hour tolerance of
    [since], or there is one and the oldest [created_at] among the valid
    receipts of the batch is within that tolerance. A failed fetch, and
    every other case, leaves the coverage not complete. The clock is read
    twice in the update; the second reading is not earlier than the
    first. *)
Theorem completion_marked_exactly_by_policy (user : option string)
    (timeRange : TimeRange) (customRange : option CustomDateRange) (clock : Clock)
    (isLoadingRef isAutomatic : bool) (w : World)
    (request : Filter) (w' : World) (next : bool) :
  nowUpdate clock <= nowCheck clock ->
  loadMoreZaps lightningDecode query user timeRange customRange clock
    isLoadingRef isAutomatic w = Fetched request w' next ->
  let since := fst (getDateRange (nowUpdate clock) timeRange customRange) in
  isComplete (state w') = true <->
  exists events,
    query request = Events events /\
    let validReceipts := List.filter (isValidZapReceipt lightningDecode) events in
    if is_custom timeRange then validReceipts = []
    else (validReceipts = [] /\
          exists oldest, oldestOf (allReceiptsCache (state w)) oldest /\
                         oldest <= since + 3600) \/
         (validReceipts <> [] /\
          exists oldest, oldestOf validReceipts oldest /\
                         oldest <= since + 3600).
Proof.
  intros Hclock Hrun since.
  apply loadMoreZaps_fetched in Hrun as (Hmay & _ & Hq).
  apply mayFetch_true in Hmay as (_ & _ & Hnot & _).
  destruct (query request) as [events|msg].
  - unfold onBatchSuccess in Hq.
    pose proof (decideComplete_spec timeRange customRange (nowUpdate clock)
                  (nowCheck clock) (allReceiptsCache (state w))
                  (validate lightningDecode events) Hclock) as Hspec.
    pose proof (validate_nil events) as Hnil.
    pose proof (validate_oldest events) as Hold.
    assert (Hcached : forall t, oldestTimestamp (allReceiptsCache (state w)) = Some t <->
                                oldestOf (allReceiptsCache (state w)) t)
      by (intros t; apply oldestTimestamp_oldestOf).
    destruct (getDateRange (nowUpdate clock) timeRange customRange) as [s u] eqn:Hd.
    injection Hq as Hst _. rewrite Hst. simpl in Hspec. subst since. simpl.
    rewrite Hspec. unfold BOUNDARY_TOLERANCE_SECONDS. split.
    + intros H. exists events. split; [reflexivity|].
      destruct (is_custom timeRange).
      * now apply Hnil.
      * destruct H as [(Hn & o & Ho & Hle)|(Hn & o & Ho & Hle)].
        -- left. split; [now apply Hnil|]. exists o. split; [now apply Hcached | exact Hle].
        -- right. split; [now rewrite <- Hnil|]. exists o. split; [now apply Hold | exact Hle].
    + intros (ev & [= <-] & H).
      destruct (is_custom timeRange).
      * now apply Hnil.
      * destruct H as [(Hn & o & Ho & Hle)|(Hn & o & Ho & Hle)].
        -- left. split; [now apply Hnil|]. exists o. split; [now apply Hcached | exact Hle].
        -- right. split; [now rewrite Hnil|]. exists o. split; [now apply Hold | exact Hle].
  - destruct Hq as [Hst _]. rewrite Hst. simpl. rewrite Hnot. split; [discriminate|].
    intros (ev & Hev & _). discriminate.
Qed.

(** C6. A fetch whose query throws adds exactly one to the failure counter
    and leaves the cached receipts (of the state and of the module-level
    store) and the window's receipts as they were; once the counter has
    reached 3, auto-load is off and an automatic call returns without
    fetching, whereas a manual call still goes on to fetch; a fetch that
    succeeds sets the counter to zero and adds one to the batch count. *)
Theorem failures_are_counted_and_bounded (user : option string)
    (timeRange : TimeRange) (customRange : option CustomDateRange) (clock : Clock)
    (isLoadingRef isAutomatic : bool) (w : World)
    (request : Filter) (w' : World) (next : bool) :
  loadMoreZaps lightningDecode query user timeRange customRange clock
    isLoadingRef isAutomatic w = Fetched request w' next ->
  (forall msg, query request = Throws msg ->
     consecutiveFailures (state w') = consecutiveFailures (state w) + 1 /\
     userZapCache w' = userZapCache w /\
     allReceiptsCache (state w') = allReceiptsCache (state w) /\
     receipts (state w') = receipts (state w) /\
     currentBatch (state w') = currentBatch (state w) /\
     (autoLoadEnabled (state w') = false <-> 3 <= consecutiveFailures (state w')) /\
     (3 <= consecutiveFailures (state w') ->
      forall query' clock',
        loadMoreZaps lightningDecode query' user timeRange customRange clock'
          false true w' = Skipped /\
        exists request' w'' next',
          loadMoreZaps lightningDecode query' user timeRange customRange clock'
            false false w' = Fetched request' w'' next')) /\
  (forall events, query request = Events events ->
     consecutiveFailures (state w') = 0 /\
     currentBatch (state w') = currentBatch (state w) + 1).
Proof.
  intros Hrun. apply loadMoreZaps_fetched in Hrun as (Hmay & _ & Hq).
  apply mayFetch_true in Hmay as (Huser & _ & Hnot & _).
  split.
  - intros msg Hmsg. rewrite Hmsg in Hq. destruct Hq as [Hst Hcache].
    rewrite Hst. simpl. repeat split; auto.
    + rewrite Z.ltb_ge. unfold ZAP_FETCH_CONFIG.MAX_CONSECUTIVE_FAILURES. lia.
    + rewrite Z.ltb_ge. unfold ZAP_FETCH_CONFIG.MAX_CONSECUTIVE_FAILURES. lia.
    + unfold loadMoreZaps.
      assert (Hskip : mayFetch user false true (state w') = false).
      { unfold mayFetch. rewrite Hst, Huser. simpl. rewrite Hnot. simpl.
        destruct (Z.leb_spec ZAP_FETCH_CONFIG.MAX_CONSECUTIVE_FAILURES
                    (consecutiveFailures (state w) + 1)) as [|Hlt].
        - now rewrite orb_true_r.
        - unfold ZAP_FETCH_CONFIG.MAX_CONSECUTIVE_FAILURES in Hlt. lia. }
      now rewrite Hskip.
    + unfold loadMoreZaps.
      assert (Hgo : mayFetch user false false (state w') = true).
      { apply mayFetch_true. rewrite Hst. simpl. repeat split; auto; discriminate. }
      rewrite Hgo. simpl.
      destruct (getDateRange (nowStart clock') timeRange customRange) as [since until].
      destruct (query' _) as [events|msg'].
      * destruct (onBatchSuccess _ _ _ _ _ _ _ _ _ _) as [st'' cache''].
        do 3 eexists. reflexivity.
      * do 3 eexists. reflexivity.
  - intros events Hev. rewrite Hev in Hq. unfold onBatchSuccess in Hq.
    destruct (getDateRange (nowUpdate clock) timeRange customRange) as [s u].
    injection Hq as Hst _. rewrite Hst. simpl. auto.
Qed.

End ControllerFacts.

(** *** Batch size and detected limit *)

Lemma batchSizeFor_spec (isAutomatic : bool) (currentState : ZapLoadingState) :
  batchSizeFor isAutomatic currentState =
  match relayLimit currentState with
  | Some limit =>
      if limit =? 0
      then (if isAutomatic && (0 <? currentBatch currentState) then 250 else 1000)
      else Z.min limit 2000
  | None => if isAutomatic && (0 <? currentBatch currentState) then 250 else 1000
  end.
Proof.
  unfold batchSizeFor, Js.or_default, ZAP_FETCH_CONFIG.INITIAL_BATCH_SIZE,
    ZAP_FETCH_CONFIG.MAX_BATCH_SIZE, ZAP_FETCH_CONFIG.MIN_BATCH_SIZE.
  destruct (relayLimit currentState) as [limit|];
    [destruct (Z.eqb_spec limit 0)|];
    destruct (isAutomatic && (0 <? currentBatch currentState)); lia.
Qed.

Section LimitFacts.

Variable lightningDecode : string -> option (option Z).
Variable query : Filter -> QueryResult.

(** C5, as the code has it. The size a fetch asks for is the detected limit
    capped at 2000 when a limit has been detected, and otherwise 1000, or
    250 for an automatic batch after the first. A fetch that receives a
    short page that is not empty ([0 < received < requested]) records
    [max(received, 250)] as the detected limit; an empty page, a full page
    and a failed fetch leave the detected limit as it was. Every later
    request, manual or automatic, asks for the detected limit capped at
    2000. *)
Theorem detected_limit_and_batch_size (user : option string)
    (timeRange : TimeRange) (customRange : option CustomDateRange) (clock : Clock)
    (isLoadingRef isAutomatic : bool) (w : World)
    (request : Filter) (w' : World) (next : bool) :
  loadMoreZaps lightningDecode query user timeRange customRange clock
    isLoadingRef isAutomatic w = Fetched request w' next ->
  f_limit request =
    match relayLimit (state w) with
    | Some limit =>
        if limit =? 0
        then (if isAutomatic && (0 <? currentBatch (state w)) then 250 else 1000)
        else Z.min limit 2000
    | None => if isAutomatic && (0 <? currentBatch (state w)) then 250 else 1000
    end /\
  (forall events, query request = Events events ->
     let received := Z.of_nat (length (validate lightningDecode events)) in
     relayLimit (state w') =
       if (0 <? received) && (received <? f_limit request)
       then Some (Z.max received 250)
       else relayLimit (state w)) /\
  (forall msg, query request = Throws msg -> relayLimit (state w') = relayLimit (state w)) /\
  (forall limit, relayLimit (state w') = Some limit -> limit <> 0 ->
     forall query' clock' isLoadingRef' isAutomatic' request' w'' next',
       loadMoreZaps lightningDecode query' user timeRange customRange clock'
         isLoadingRef' isAutomatic' w' = Fetched request' w'' next' ->
       f_limit request' = Z.min limit 2000).
Proof.
  intros Hrun. apply loadMoreZaps_fetched in Hrun as (_ & Hlimit & Hq).
  split; [|split; [|split]].
  - rewrite Hlimit. apply batchSizeFor_spec.
  - intros events Hev received. rewrite Hev in Hq. unfold onBatchSuccess in Hq.
    destruct (getDateRange (nowUpdate clock) timeRange customRange) as [s u].
    injection Hq as Hst _. rewrite Hst, Hlimit. simpl. unfold detectLimit.
    fold received. rewrite andb_comm. reflexivity.
  - intros msg Hmsg. rewrite Hmsg in Hq. destruct Hq as [Hst _]. now rewrite Hst.
  - intros limit Hl Hne query' clock' l' a' request' w'' next' Hrun'.
    apply loadMoreZaps_fetched in Hrun' as (_ & Hlimit' & _).
    rewrite Hlimit', batchSizeFor_spec, Hl.
    destruct (Z.eqb_spec limit 0); [contradiction | reflexivity].
Qed.

End LimitFacts.

(** C5, as the specification words it, fails twice. An empty page is a
    short page ([0 < 1000]), yet the fetch records no limit instead of
    [max(0, 250)]; and with a detected limit of 500 an automatic batch after
    the first asks for 500, not for [min(500, 250)]. *)
Lemma short_page_claim_counterexample :
  (exists request w',
     loadMoreZaps Sample.decode Sample.emptyRelay (Some "alice") R30d None Sample.clock
       false false emptyWorld = Fetched request w' false /\
     Z.of_nat (length (validate Sample.decode [])) < f_limit request /\
     relayLimit (state w') <> Some (Z.max 0 ZAP_FETCH_CONFIG.MIN_BATCH_SIZE)) /\
  (let st :=
     {| receipts := []; isLoading := false; isComplete := false; currentBatch := 1;
        totalFetched := 0; relayLimit := Some 500; error := None;
        autoLoadEnabled := true; consecutiveFailures := 0; allReceiptsCache := [] |} in
   exists request w' next,
     loadMoreZaps Sample.decode Sample.relay (Some "alice") R30d None Sample.clock
       false true {| state := st; userZapCache := ∅ |} = Fetched request w' next /\
     f_limit request = 500 /\
     f_limit request <> Z.min 500 ZAP_FETCH_CONFIG.MIN_BATCH_SIZE).
Proof.
  split.
  - eexists _, _. split; [reflexivity|]. split; [reflexivity | discriminate].
  - eexists _, _, _. split; [reflexivity|]. split; [reflexivity | discriminate].
Qed.

(** *** Merging a batch into the store *)

Lemma Sorted_weaken {A : Type} (R1 R2 : A -> A -> Prop) (l : list A) :
  (forall a b, R1 a b -> R2 a b) -> Sorted R1 l -> Sorted R2 l.
Proof.
  intros Himp. induction 1 as [|x l Hl IH Hhd]; constructor.
  - exact IH.
  - destruct Hhd; constructor. now apply Himp.
Qed.

Lemma mergeReceipts_perm (store batch : list ZapReceipt) :
  Permutation (mergeReceipts store batch) (store ++ batch).
Proof. apply sort_perm. Qed.

Lemma mergeReceipts_sorted (store batch : list ZapReceipt) :
  Sorted (fun a b => ev_created_at b <= ev_created_at a) (mergeReceipts store batch).
Proof.
  apply Sorted_weaken with (R1 := fun a b => newestFirst a b <= 0).
  - unfold newestFirst. intros a b. lia.
  - apply sort_sorted. unfold newestFirst. intros x y. lia.
Qed.

Lemma recordIds_perm (l1 l2 : list ZapReceipt) :
  Permutation l1 l2 -> recordIds l1 = recordIds l2.
Proof.
  intros Hp. unfold recordIds. apply list_to_set_perm_L.
  now apply Permutation_map.
Qed.

Lemma recordIds_app (l1 l2 : list ZapReceipt) :
  recordIds (l1 ++ l2) = recordIds l1 ∪ recordIds l2.
Proof. unfold recordIds. rewrite map_app. apply list_to_set_app_L. Qed.

Section MergeFacts.

Variable lightningDecode : string -> option (option Z).
Variable query : Filter -> QueryResult.

(** What a fetch that the transport answered writes to the state copy of
    the cache and to the module-level store. *)
Lemma loadMoreZaps_stores (user : option string) (timeRange : TimeRange)
    (customRange : option CustomDateRange) (clock : Clock)
    (isLoadingRef isAutomatic : bool) (w : World)
    (request : Filter) (w' : World) (next : bool) (events : list NostrEvent) :
  loadMoreZaps lightningDecode query user timeRange customRange clock
    isLoadingRef isAutomatic w = Fetched request w' next ->
  query request = Events events ->
  allReceiptsCache (state w') =
    mergeReceipts (allReceiptsCache (state w)) (validate lightningDecode events) /\
  userZapCache w' = <[default "" user := allReceiptsCache (state w')]> (userZapCache w).
Proof.
  intros Hrun Hq. apply loadMoreZaps_fetched in Hrun as (_ & _ & Hres).
  rewrite Hq in Hres. unfold onBatchSuccess in Hres.
  destruct (getDateRange (nowUpdate clock) timeRange customRange) as [s u].
  injection Hres as Hst Hcache. rewrite Hst, Hcache. split; reflexivity.
Qed.

Lemma merge_batch_perm (store : list ZapReceipt) (events : list NostrEvent) :
  Permutation (mergeReceipts store (validate lightningDecode events))
    (store ++ List.filter (isValidZapReceipt lightningDecode) events).
Proof.
  rewrite mergeReceipts_perm. apply Permutation_app_head, validate_perm.
Qed.

(** C2, as the code has it. A fetch that the transport answered writes to
    the user's entry of the module-level store, and to the state, the
    concatenation of the state copy of the cache and the valid receipts of
    the batch, sorted newest first; the entries of other users are
    untouched. What the entry held before is not read. When the state copy
    is in step with the entry, as it is after every such fetch, the entry
    after the fetch is the entry before plus the batch: no record is
    dropped, the record count is the sum of the two counts, the ids are the
    union of the ids, and the entry is free of repeated ids exactly when the
    entry before and the batch are and share no id. Nothing removes a record
    whose id is already held: a second fetch that brings the same events
    leaves the set of ids as it is, adds every valid receipt of the batch
    once more and, when there is one, leaves the entry with a repeated
    id. *)
Theorem merge_is_sorted_concatenation (user : option string) (timeRange : TimeRange)
    (customRange : option CustomDateRange) (clock : Clock)
    (isLoadingRef isAutomatic : bool) (w : World)
    (request : Filter) (w' : World) (next : bool) (events : list NostrEvent) :
  loadMoreZaps lightningDecode query user timeRange customRange clock
    isLoadingRef isAutomatic w = Fetched request w' next ->
  query request = Events events ->
  let pubkey := default "" user in
  let batch := List.filter (isValidZapReceipt lightningDecode) events in
  let copy := allReceiptsCache (state w) in
  let before := default [] (userZapCache w !! pubkey) in
  let after := default [] (userZapCache w' !! pubkey) in
  userZapCache w' !! pubkey = Some after /\
  allReceiptsCache (state w') = after /\
  (forall other, other <> pubkey -> userZapCache w' !! other = userZapCache w !! other) /\
  after = Js.sort newestFirst (copy ++ Js.sort newestFirst batch) /\
  Permutation after (copy ++ batch) /\
  Sorted (fun a b => ev_created_at b <= ev_created_at a) after /\
  (copy = before ->
     Permutation after (before ++ batch) /\
     (forall r, In r before -> In r after) /\
     length after = (length before + length batch)%nat /\
     recordIds after = recordIds before ∪ recordIds batch /\
     (NoDup (map ev_id after) <-> NoDup (map ev_id before ++ map ev_id batch))) /\
  (forall timeRange2 customRange2 clock2 isLoadingRef2 isAutomatic2 request2 w2 next2,
     loadMoreZaps lightningDecode query user timeRange2 customRange2 clock2
       isLoadingRef2 isAutomatic2 w' = Fetched request2 w2 next2 ->
     query request2 = Events events ->
     let again := default [] (userZapCache w2 !! pubkey) in
     Permutation again (after ++ batch) /\
     recordIds again = recordIds after /\
     length again = (length after + length batch)%nat /\
     (batch <> [] -> ~ NoDup (map ev_id again))).
Proof.
  intros Hrun Hq pubkey batch copy before after.
  destruct (loadMoreZaps_stores _ _ _ _ _ _ _ _ _ _ _ Hrun Hq) as (Hst & Hcache).
  fold pubkey copy in Hst, Hcache.
  assert (Hentry : userZapCache w' !! pubkey = Some (allReceiptsCache (state w')))
    by (rewrite Hcache; apply lookup_insert_eq).
  assert (Hafter : after = allReceiptsCache (state w'))
    by (unfold after; now rewrite Hentry).
  assert (Hperm : Permutation after (copy ++ batch))
    by (rewrite Hafter, Hst; apply merge_batch_perm).
  split; [now rewrite Hafter|]. split; [now rewrite Hafter|].
  split; [intros other Hne; rewrite Hcache; now apply lookup_insert_ne|].
  split; [rewrite Hafter, Hst; reflexivity|].
  split; [exact Hperm|].
  split; [rewrite Hafter, Hst; apply mergeReceipts_sorted|].
  split.
  - intros Hstep. rewrite <- Hstep. split; [exact Hperm|].
    split; [|split; [|split]].
    + intros r Hin. eapply Permutation_in; [symmetry; exact Hperm|].
      apply in_or_app. now left.
    + rewrite (Permutation_length Hperm). apply length_app.
    + rewrite (recordIds_perm _ _ Hperm). apply recordIds_app.
    + assert (Hids : Permutation (map ev_id after) (map ev_id copy ++ map ev_id batch)).
      { rewrite <- map_app. now apply Permutation_map. }
      now rewrite Hids.
  - intros timeRange2 customRange2 clock2 isLoadingRef2 isAutomatic2 request2 w2 next2
      Hrun2 Hq2 again.
    destruct (loadMoreZaps_stores _ _ _ _ _ _ _ _ _ _ _ Hrun2 Hq2) as (Hst2 & Hcache2).
    fold pubkey in Hcache2.
    assert (Hagain : again = allReceiptsCache (state w2)).
    { unfold again. rewrite Hcache2, lookup_insert_eq. reflexivity. }
    assert (Hperm2 : Permutation again (after ++ batch)).
    { rewrite Hagain, Hst2, <- Hafter. apply merge_batch_perm. }
    split; [exact Hperm2|]. split; [|split].
    + rewrite (recordIds_perm _ _ Hperm2), recordIds_app,
        (recordIds_perm _ _ Hperm), recordIds_app.
      now rewrite <- (assoc_L (∪)), (idemp_L (∪)).
    + rewrite (Permutation_length Hperm2). apply length_app.
    + intros Hne Hnodup.
      assert (Hids : Permutation (map ev_id again) (map ev_id after ++ map ev_id batch)).
      { rewrite <- map_app. now apply Permutation_map. }
      rewrite Hids in Hnodup. apply NoDup_app in Hnodup as (_ & Hdisjoint & _).
      destruct batch as [|r rest] eqn:Hb; [congruence|].
      apply (Hdisjoint (ev_id r)).
      * apply list_elem_of_In, in_map.
        eapply Permutation_in; [symmetry; exact Hperm|].
        apply in_or_app. right. now left.
      * apply list_elem_of_In. now left.
Qed.

End MergeFacts.

(** C2, as the specification words it, fails twice on the user's entry of
    the store. The merge is no union by id: the same two receipts fetched
    twice are stored twice, so the entry holds each id twice and differs
    from the entry after one merge. And the record count can decrease: after
    the reset that a mount or a change of user makes, the state copy is
    empty while the entry still holds two receipts, and the next fetch
    replaces the entry by its batch of one. *)
Lemma merge_repeats_known_ids :
  (userZapCache Runs.afterCustomFirst !! "alice"
     = Some [Sample.receipt1; Sample.receipt2] /\
   userZapCache Runs.afterCustomSecond !! "alice"
     = Some [Sample.receipt1; Sample.receipt1; Sample.receipt2; Sample.receipt2] /\
   ~ NoDup (map ev_id (default [] (userZapCache Runs.afterCustomSecond !! "alice")))) /\
  (userZapCache Runs.remounted !! "alice" = Some [Sample.receipt1; Sample.receipt2] /\
   allReceiptsCache (state Runs.remounted) = [] /\
   Runs.remountRun = Fetched Runs.remountRequest Runs.afterRemount false /\
   Sample.sparseRelay Runs.remountRequest = Events [Sample.receipt3] /\
   userZapCache Runs.afterRemount !! "alice" = Some [Sample.receipt3]).
Proof.
  split; [split; [|split] | repeat split]; try (vm_compute; reflexivity).
  change (default [] (userZapCache Runs.afterCustomSecond !! "alice"))
    with [Sample.receipt1; Sample.receipt1; Sample.receipt2; Sample.receipt2].
  simpl. rewrite NoDup_cons. intros [Hnotin _]. apply Hnotin. constructor.
Qed.

(** ** Maps in insertion order *)

Section JsMapFacts.
Context {K V : Type} `{EqDecision K}.
Implicit Types (m : JsMap.t K V) (k : K) (v : V).

Lemma get_set_eq m k v : JsMap.get k (JsMap.set k v m) = Some v.
Proof.
  induction m as [|[k' v'] m IH]; simpl.
  - now destruct (decide (k = k)).
  - destruct (decide (k = k')) as [->|Hne]; simpl.
    + now destruct (decide (k' = k')).
    + now destruct (decide (k = k')).
Qed.

Lemma get_set_ne m k k' v : k <> k' -> JsMap.get k' (JsMap.set k v m) = JsMap.get k' m.
Proof.
  intros Hne. induction m as [|[k0 v0] m IH]; simpl.
  - destruct (decide (k' = k)); congruence.
  - destruct (decide (k = k0)) as [->|Hne0]; simpl.
    + destruct (decide (k' = k0)); congruence.
    + now rewrite IH.
Qed.

Lemma keys_set m k v :
  JsMap.keys (JsMap.set k v m) =
  match JsMap.get k m with
  | Some _ => JsMap.keys m
  | None => JsMap.keys m ++ [k]
  end.
Proof.
  unfold JsMap.keys. induction m as [|[k' v'] m IH]; simpl.
  - reflexivity.
  - destruct (decide (k = k')) as [->|Hne]; simpl.
    + reflexivity.
    + rewrite IH. now destruct (JsMap.get k m).
Qed.

Lemma get_none_keys m k : JsMap.get k m = None <-> ~ In k (JsMap.keys m).
Proof.
  unfold JsMap.keys. induction m as [|[k' v'] m IH]; simpl.
  - split; auto.
  - destruct (decide (k = k')) as [->|Hne].
    + split; [discriminate|]. intros Hn. exfalso. apply Hn. now left.
    + rewrite IH. split.
      * intros Hn [Heq|Hin]; [congruence | contradiction].
      * intros Hn Hin. apply Hn. now right.
Qed.

Lemma get_some_in m k v : JsMap.get k m = Some v -> In (k, v) m.
Proof.
  induction m as [|[k' v'] m IH]; simpl; [discriminate|].
  destruct (decide (k = k')) as [->|Hne].
  - intros [= ->]. now left.
  - intros Hg. right. now apply IH.
Qed.

Lemma in_get_some m k v : List.NoDup (JsMap.keys m) -> In (k, v) m -> JsMap.get k m = Some v.
Proof.
  unfold JsMap.keys. induction m as [|[k' v'] m IH]; simpl; [intros _ []|].
  intros Hnd [Heq|Hin].
  - injection Heq as -> ->. now destruct (decide (k = k)).
  - inversion Hnd as [|x l Hnotin Hnd']; subst.
    destruct (decide (k = k')) as [->|Hne].
    + exfalso. apply Hnotin. change k' with (fst (k', v)). now apply in_map.
    + now apply IH.
Qed.

Lemma keys_set_nodup m k v :
  List.NoDup (JsMap.keys m) -> List.NoDup (JsMap.keys (JsMap.set k v m)).
Proof.
  intros Hnd. rewrite keys_set. destruct (JsMap.get k m) eqn:Hg; [exact Hnd|].
  apply get_none_keys in Hg.
  apply List.NoDup_app; [exact Hnd | repeat constructor; intros [] |].
  intros x Hx [<-|[]]. contradiction.
Qed.

(** The sum of a measure over the values after a [set]. *)
Lemma sum_values_set (f : V -> Z) m k v :
  sumZ (map f (JsMap.values (JsMap.set k v m))) =
  sumZ (map f (JsMap.values m))
  - match JsMap.get k m with Some old => f old | None => 0 end
  + f v.
Proof.
  unfold JsMap.values. induction m as [|[k' v'] m IH]; simpl.
  - lia.
  - destruct (decide (k = k')) as [->|Hne]; simpl; lia.
Qed.

End JsMapFacts.

(** ** Grand total and the period grouping *)

Section PeriodFacts.

Variable api : DateApi.

Lemma period_fold_total (g : GroupBy) (zaps : list ParsedZap)
    (grouped : JsMap.t string PeriodStats) :
  sumZ (map ps_totalSats
          (JsMap.values (fold_left (groupZapsByPeriod_step api g) zaps grouped))) =
  sumZ (map ps_totalSats (JsMap.values grouped)) + sumZ (map amount zaps).
Proof.
  revert grouped. induction zaps as [|zap zaps IH]; intros grouped; simpl.
  - lia.
  - rewrite IH. unfold groupZapsByPeriod_step.
    destruct (periodOf api g (zapDate zap)) as [periodKey periodDate].
    rewrite sum_values_set. destruct (JsMap.get periodKey grouped); simpl; lia.
Qed.

Lemma groupZapsBy_total (g : GroupBy) (zaps : list ParsedZap) :
  sumZ (map ep_totalSats (groupZapsBy api g zaps)) = sumZ (map amount zaps).
Proof.
  unfold groupZapsBy.
  rewrite (sumZ_perm _ _ (Permutation_map ep_totalSats (sort_perm _ _))).
  rewrite map_map.
  pose proof (period_fold_total g zaps JsMap.empty) as Hfold.
  change (sumZ (map ps_totalSats (JsMap.values JsMap.empty))) with 0 in Hfold.
  rewrite Z.add_0_l in Hfold. rewrite <- Hfold. unfold JsMap.values. rewrite map_map.
  f_equal. apply map_ext. now intros [period stats].
Qed.

(** Each of the four granularities is what [groupZapsByPeriod] settles on
    for some window. *)
Lemma every_granularity_is_selected (g : GroupBy) :
  exists timeRange customRange, selectGroupBy timeRange customRange = g.
Proof.
  destruct g.
  - exists R24h, None. reflexivity.
  - exists R7d, None. reflexivity.
  - exists R90d, None. reflexivity.
  - exists RCustom, (Some {| from_ms := 0; to_ms := 100 * 86400000 |}). reflexivity.
Qed.

(** C3. The grand total of the snapshot is the sum of the amounts of the
    parsed records, and the per-bucket totals of the period grouping add up
    to that same total for the window of the snapshot, for any other
    window, and for each of the four granularities (hour, day, week and
    month), every one of which some window selects. *)
Theorem grand_total_is_independent_of_granularity (parsedZaps : list ParsedZap)
    (timeRange : TimeRange) (customRange : option CustomDateRange) :
  let snapshot := analytics api parsedZaps timeRange customRange in
  totalEarnings snapshot = sumZ (map amount parsedZaps) /\
  sumZ (map ep_totalSats (earningsByPeriod snapshot)) = totalEarnings snapshot /\
  (forall timeRange' customRange',
     sumZ (map ep_totalSats (groupZapsByPeriod api parsedZaps timeRange' customRange')) =
     totalEarnings snapshot) /\
  (forall g : GroupBy,
     sumZ (map ep_totalSats (groupZapsBy api g parsedZaps)) = totalEarnings snapshot /\
     exists timeRange' customRange',
       groupZapsByPeriod api parsedZaps timeRange' customRange' =
       groupZapsBy api g parsedZaps).
Proof.
  simpl. rewrite reduce_sum_sumZ. repeat split.
  - apply groupZapsBy_total.
  - intros. apply groupZapsBy_total.
  - apply groupZapsBy_total.
  - destruct (every_granularity_is_selected g) as (tr & cr & Hsel).
    exists tr, cr. unfold groupZapsByPeriod. now rewrite Hsel.
Qed.

End PeriodFacts.

(** ** Percentages by kind *)

Lemma sumQ_perm (l1 l2 : list Q) : Permutation l1 l2 -> (sumQ l1 == sumQ l2)%Q.
Proof.
  induction 1 as [|x l l' _ IH|x y l|l l' l'' _ IH1 _ IH2]; simpl.
  - reflexivity.
  - now rewrite IH.
  - ring.
  - now rewrite IH1.
Qed.

Lemma inject_Z_nonzero (T : Z) : 0 < T -> ~ (inject_Z T == 0)%Q.
Proof. intros HT. unfold Qeq. simpl. lia. Qed.

Lemma share_plus (a b T : Z) :
  0 < T ->
  (inject_Z (a + b) / inject_Z T * inject_Z 100 ==
   inject_Z a / inject_Z T * inject_Z 100 + inject_Z b / inject_Z T * inject_Z 100)%Q.
Proof. intros HT. rewrite inject_Z_plus. field. now apply inject_Z_nonzero. Qed.

(** The exact shares of the parts of a whole add up to the share of their
    sum. *)
Lemma share_sum {A : Type} (f : A -> Z) (T : Z) (l : list A) :
  0 < T ->
  (sumQ (map (fun x => inject_Z (f x) / inject_Z T * inject_Z 100) l) ==
   inject_Z (sumZ (map f l)) / inject_Z T * inject_Z 100)%Q.
Proof.
  intros HT. induction l as [|x xs IH]; simpl.
  - field. now apply inject_Z_nonzero.
  - now rewrite share_plus, IH.
Qed.

Lemma share_le (S T : Z) :
  0 < T -> (inject_Z S / inject_Z T * inject_Z 100 <= inject_Z 100)%Q <-> S <= T.
Proof.
  intros HT. destruct T as [|p|p]; try lia.
  unfold Qle, Qdiv, Qmult, Qinv, inject_Z. simpl. lia.
Qed.

Lemma share_eq (S T : Z) :
  0 < T -> (inject_Z S / inject_Z T * inject_Z 100 == inject_Z 100)%Q <-> S = T.
Proof.
  intros HT. destruct T as [|p|p]; try lia.
  unfold Qeq, Qdiv, Qmult, Qinv, inject_Z. simpl. lia.
Qed.

Lemma filtered_total_le (p : ParsedZap -> bool) (zaps : list ParsedZap) :
  Forall (fun zap => 0 <= amount zap) zaps ->
  0 <= sumZ (map amount (List.filter p zaps)) <= sumZ (map amount zaps).
Proof.
  induction 1 as [|zap zaps Hz _ IH]; simpl.
  - lia.
  - destruct (p zap); simpl; lia.
Qed.

Lemma filtered_total_eq (p : ParsedZap -> bool) (zaps : list ParsedZap) :
  Forall (fun zap => 0 <= amount zap) zaps ->
  sumZ (map amount (List.filter p zaps)) = sumZ (map amount zaps) <->
  forall zap, In zap zaps -> 0 < amount zap -> p zap = true.
Proof.
  induction 1 as [|zap zaps Hz Hall IH]; simpl.
  - split; [intros _ zap [] | reflexivity].
  - pose proof (filtered_total_le p zaps Hall) as Hle.
    destruct (p zap) eqn:Hp; simpl.
    + split.
      * intros Heq z [<-|Hin] Hpos; [exact Hp|]. apply IH; [lia | exact Hin | exact Hpos].
      * intros Hcover. f_equal. apply IH. intros z Hin. apply Hcover. now right.
    + split.
      * intros Heq z [<-|Hin] Hpos; [lia|]. apply IH; [lia | exact Hin | exact Hpos].
      * intros Hcover.
        assert (Hzero : amount zap = 0).
        { destruct (Z.eq_dec (amount zap) 0) as [|Hne]; [assumption|].
          assert (Hpos : 0 < amount zap) by lia.
          specialize (Hcover zap (or_introl eq_refl) Hpos). congruence. }
        rewrite Hzero. simpl. apply IH. intros z Hin. apply Hcover. now right.
Qed.

Lemma kind_fold_total (zaps : list ParsedZap) (grouped : JsMap.t Z Tally) :
  sumZ (map totalSats (JsMap.values (fold_left groupZapsByKind_step zaps grouped))) =
  sumZ (map totalSats (JsMap.values grouped)) +
  sumZ (map amount (List.filter referencesContent zaps)).
Proof.
  revert grouped. induction zaps as [|zap zaps IH]; intros grouped; simpl.
  - lia.
  - rewrite IH. unfold groupZapsByKind_step, referencesContent.
    destruct (zappedEvent zap) as [ze|]; simpl.
    + rewrite sum_values_set.
      destruct (JsMap.get (ze_kind ze) grouped); simpl; lia.
    + lia.
Qed.

Lemma groupZapsByKind_totals (zaps : list ParsedZap) :
  sumZ (map ek_totalSats (groupZapsByKind zaps)) =
  sumZ (map amount (List.filter referencesContent zaps)).
Proof.
  unfold groupZapsByKind.
  rewrite (sumZ_perm _ _ (Permutation_map ek_totalSats (sort_perm _ _))).
  rewrite map_map.
  pose proof (kind_fold_total zaps JsMap.empty) as Hfold.
  change (sumZ (map totalSats (JsMap.values JsMap.empty))) with 0 in Hfold.
  rewrite Z.add_0_l in Hfold. rewrite <- Hfold. unfold JsMap.values. rewrite map_map.
  f_equal. apply map_ext. now intros [kind stats].
Qed.

Lemma groupZapsByKind_percentages (zaps : list ParsedZap) :
  let grandTotal := sumZ (map amount zaps) in
  Forall (fun e =>
    ek_percentage e =
      if 0 <? grandTotal
      then F64.mul (F64.div (F64.of_int (ek_totalSats e)) (F64.of_int grandTotal))
             (F64.of_int 100)
      else S754_zero false)
    (groupZapsByKind zaps).
Proof.
  unfold groupZapsByKind. rewrite reduce_sum_sumZ.
  eapply Permutation_Forall; [symmetry; apply sort_perm|].
  apply Forall_map. apply List.Forall_forall. now intros [kind stats] _.
Qed.

(** C9, as the code has it. For parsed records (amounts are never negative)
    the totals of the kinds sum the records that reference content only,
    and the percentage of a kind is its total divided by the grand total
    over all records, times 100, each of the two operations rounded to
    binary64; when the grand total is 0 every percentage is 0. Hence the
    totals of the kinds add up to at most the grand total, and to the grand
    total exactly when every record with a positive amount references
    content; put as exact shares of a positive grand total, the kinds add up
    to at most 100 percent, and to 100 exactly in that case. The
    percentages returned are these shares after the two roundings. *)
Theorem kind_percentages_against_grand_total (zaps : list ParsedZap) :
  Forall (fun zap => 0 <= amount zap) zaps ->
  let kinds := groupZapsByKind zaps in
  let grandTotal := sumZ (map amount zaps) in
  let kindTotals := sumZ (map ek_totalSats kinds) in
  let allReferenced :=
    forall zap, In zap zaps -> 0 < amount zap -> zappedEvent zap <> None in
  Forall (fun e =>
    ek_percentage e =
      if 0 <? grandTotal
      then F64.mul (F64.div (F64.of_int (ek_totalSats e)) (F64.of_int grandTotal))
             (F64.of_int 100)
      else S754_zero false) kinds /\
  kindTotals = sumZ (map amount (List.filter referencesContent zaps)) /\
  0 <= kindTotals <= grandTotal /\
  (kindTotals = grandTotal <-> allReferenced) /\
  (0 < grandTotal ->
   let shares :=
     sumQ (map (fun e =>
                  (inject_Z (ek_totalSats e) / inject_Z grandTotal * inject_Z 100)%Q)
             kinds) in
   (shares <= inject_Z 100)%Q /\
   ((shares == inject_Z 100)%Q <-> allReferenced)) /\
  (grandTotal = 0 -> Forall (fun e => ek_percentage e = S754_zero false) kinds).
Proof.
  intros Hnonneg kinds grandTotal kindTotals allReferenced.
  pose proof (filtered_total_le referencesContent zaps Hnonneg) as Hle.
  pose proof (groupZapsByKind_totals zaps) as Htotals.
  fold kinds kindTotals in Htotals.
  assert (Hcover : kindTotals = grandTotal <-> allReferenced).
  { rewrite Htotals. unfold grandTotal.
    rewrite (filtered_total_eq referencesContent zaps Hnonneg).
    unfold allReferenced.
    split; intros Hall zap Hin Hamt; specialize (Hall zap Hin Hamt);
      unfold referencesContent in *; destruct (zappedEvent zap); congruence. }
  split; [apply groupZapsByKind_percentages|].
  split; [exact Htotals|].
  split; [rewrite Htotals; exact Hle|].
  split; [exact Hcover|].
  split.
  - intros Hpos shares.
    assert (Hshares : (shares ==
                       inject_Z kindTotals / inject_Z grandTotal * inject_Z 100)%Q)
      by (apply (share_sum ek_totalSats grandTotal kinds Hpos)).
    split.
    + rewrite Hshares. apply share_le; [exact Hpos|]. rewrite Htotals. apply Hle.
    + rewrite Hshares, (share_eq _ _ Hpos). exact Hcover.
  - intros Hzero. eapply List.Forall_impl; [|apply groupZapsByKind_percentages].
    intros e ->. fold grandTotal. rewrite Hzero. reflexivity.
Qed.

(** C9, as the specification words it, fails. The percentages are binary64
    numbers, and their sum is not bounded by 100: for 1 sat on a note and
    23 sats on an article the two percentages are 95.83333333333334 and
    4.166666666666666, whose sum exceeds 100, in exact arithmetic and in
    binary64. Nor is the sum 100 whenever every record with a positive
    amount references content: for 1 sat and 2 sats it falls short of 100,
    and for no record at all it is 0. *)
Lemma kind_percentages_miss_100 :
  let note := Some (Sample.note "note1" "gm") in
  let essay := Some (Sample.article "essay1") in
  let over := groupZapsByKind [Sample.mkZap "z1" Sample.t0 1 "bob" note;
                               Sample.mkZap "z2" Sample.t0 23 "carol" essay] in
  let under := groupZapsByKind [Sample.mkZap "z1" Sample.t0 1 "bob" note;
                                Sample.mkZap "z2" Sample.t0 2 "carol" essay] in
  (map ek_percentage over = [S754_finite false 6743671317026134 (-46);
                             S754_finite false 4691249611844266 (-50)] /\
   (inject_Z 100 < sumQ (map F64.toQ (map ek_percentage over)))%Q /\
   F64.compare (F64.sum (map ek_percentage over)) (F64.of_int 100) = Some Gt) /\
  (map ek_percentage under = [S754_finite false 4691249611844266 (-46);
                              S754_finite false 4691249611844266 (-47)] /\
   (sumQ (map F64.toQ (map ek_percentage under)) < inject_Z 100)%Q /\
   F64.compare (F64.sum (map ek_percentage under)) (F64.of_int 100) = Some Lt) /\
  ((forall zap : ParsedZap, In zap [] -> 0 < amount zap -> zappedEvent zap <> None) /\
   F64.sum (map ek_percentage (groupZapsByKind [])) = S754_zero false).
Proof.
  cbv zeta. split; [|split].
  - split; [vm_compute; reflexivity|]. split; [|vm_compute; reflexivity].
    unfold Qlt. vm_compute. reflexivity.
  - split; [vm_compute; reflexivity|]. split; [|vm_compute; reflexivity].
    unfold Qlt. vm_compute. reflexivity.
  - split; [intros zap []|]. vm_compute. reflexivity.
Qed.

(** ** Hour-of-day and day-of-week buckets *)

Lemma round_div_nearest (a b : Z) :
  0 < b -> 2 * a - b < 2 * b * Js.round_div a b <= 2 * a + b.
Proof.
  intros Hb. unfold Js.round_div.
  pose proof (Z.mul_div_le (2 * a + b) (2 * b) ltac:(lia)).
  pose proof (Z.mul_succ_div_gt (2 * a + b) (2 * b) ltac:(lia)).
  lia.
Qed.

Lemma range_keys_nodup (n : nat) : List.NoDup (map Z.of_nat (seq 0 n)).
Proof.
  apply Finite.Injective_map_NoDup; [intros x y; apply Nat2Z.inj | apply seq_NoDup].
Qed.

Lemma range_keys_in (n : nat) (i : Z) : 0 <= i < Z.of_nat n -> In i (map Z.of_nat (seq 0 n)).
Proof.
  intros Hi. apply in_map_iff. exists (Z.to_nat i). split; [lia|].
  apply in_seq. lia.
Qed.

Lemma range_keys_sorted (n : nat) (start : nat) : Sorted Z.lt (map Z.of_nat (seq start n)).
Proof.
  revert start. induction n as [|n IH]; intros start; simpl.
  - constructor.
  - constructor; [apply IH|]. destruct n; simpl; constructor. lia.
Qed.

Section BucketFacts.

Variable index : Z -> Z.
Variable n : nat.
Hypothesis index_in_range : forall date, 0 <= index date < Z.of_nat n.

Lemma zapsAt_snoc (i : Z) (seen : list ParsedZap) (zap : ParsedZap) :
  zapsAt index i (seen ++ [zap]) =
  if index (zapDate zap) =? i then zapsAt index i seen ++ [zap] else zapsAt index i seen.
Proof.
  unfold zapsAt. rewrite List.filter_app. simpl.
  destruct (index (zapDate zap) =? i); [reflexivity | apply app_nil_r].
Qed.

Lemma bucket_step_tally (grouped : JsMap.t Z Tally) (seen : list ParsedZap)
    (zap : ParsedZap) :
  bucketsTally index n grouped seen ->
  exists grouped',
    bucket_step index (Some grouped) zap = Some grouped' /\
    bucketsTally index n grouped' (seen ++ [zap]).
Proof.
  intros [Hkeys Hval]. unfold bucket_step.
  destruct (JsMap.get (index (zapDate zap)) grouped) as [existing|] eqn:Hget.
  - eexists. split; [reflexivity|]. split.
    + rewrite keys_set, Hget. exact Hkeys.
    + intros i t Hi. rewrite zapsAt_snoc.
      destruct (Z.eqb_spec (index (zapDate zap)) i) as [<-|Hne].
      * rewrite get_set_eq in Hi. injection Hi as <-.
        destruct (Hval _ _ Hget) as [Ht Hc]. simpl.
        rewrite map_app, sumZ_app, length_app, Ht, Hc. simpl. lia.
      * rewrite get_set_ne in Hi by exact Hne. now apply Hval.
  - exfalso. apply get_none_keys in Hget. apply Hget. rewrite Hkeys.
    apply range_keys_in, index_in_range.
Qed.

Lemma bucket_fold_tally (zaps : list ParsedZap) (grouped : JsMap.t Z Tally)
    (seen : list ParsedZap) :
  bucketsTally index n grouped seen ->
  exists grouped',
    fold_left (bucket_step index) zaps (Some grouped) = Some grouped' /\
    bucketsTally index n grouped' (seen ++ zaps).
Proof.
  revert grouped seen. induction zaps as [|zap zaps IH]; intros grouped seen Hinv;
    cbn [fold_left].
  - exists grouped. rewrite app_nil_r. auto.
  - destruct (bucket_step_tally grouped seen zap Hinv) as (g1 & Hstep & Hinv1).
    rewrite Hstep. destruct (IH g1 (seen ++ [zap]) Hinv1) as (g2 & Hfold & Hinv2).
    exists g2. split; [exact Hfold|]. now rewrite <- app_assoc in Hinv2.
Qed.

Hypothesis zeroBuckets_shape :
  zeroBuckets n = map (fun i => (Z.of_nat i, tally_zero)) (seq 0 n).

Lemma zeroBuckets_tally : bucketsTally index n (zeroBuckets n) [].
Proof.
  split.
  - rewrite zeroBuckets_shape. unfold JsMap.keys. rewrite map_map. reflexivity.
  - intros i t Hget. apply get_some_in in Hget. rewrite zeroBuckets_shape in Hget.
    apply in_map_iff in Hget as (j & [= <- <-] & _). simpl. auto.
Qed.

(** The map both groupings build: never a missing key, the keys in order,
    and each entry the tally of its bucket. *)
Lemma buckets_built (zaps : list ParsedZap) :
  exists grouped,
    fold_left (bucket_step index) zaps (Some (zeroBuckets n)) = Some grouped /\
    JsMap.keys grouped = map Z.of_nat (seq 0 n) /\
    forall i t, In (i, t) grouped ->
      totalSats t = sumZ (map amount (zapsAt index i zaps)) /\
      zapCount t = Z.of_nat (length (zapsAt index i zaps)).
Proof.
  destruct (bucket_fold_tally zaps (zeroBuckets n) [] zeroBuckets_tally)
    as (grouped & Hfold & Hkeys & Hval).
  exists grouped. split; [exact Hfold|]. split; [exact Hkeys|].
  intros i t Hin. apply Hval. apply in_get_some; [|exact Hin].
  rewrite Hkeys. apply range_keys_nodup.
Qed.

End BucketFacts.

Lemma sorted_by_key {A : Type} (key : A -> Z) (l : list A) :
  Sorted Z.lt (map key l) -> Sorted (fun a b => key a - key b <= 0) l.
Proof.
  induction l as [|x l IH]; simpl; intros Hs.
  - constructor.
  - inversion Hs as [|? ? Hl Hhd]; subst. constructor; [now apply IH|].
    destruct l; simpl in *; constructor. inversion Hhd; subst. lia.
Qed.

Section TemporalFacts.

Variable api : DateApi.
Hypothesis in_range : getters_in_range api.

Lemma groupZapsByHour_buckets (zaps : list ParsedZap) :
  exists buckets,
    groupZapsByHour api zaps = Some buckets /\
    map eh_hour buckets = map Z.of_nat (seq 0 24) /\
    Forall (fun b =>
      eh_totalSats b = sumZ (map amount (zapsAt (getHours api) (eh_hour b) zaps)) /\
      eh_zapCount b = Z.of_nat (length (zapsAt (getHours api) (eh_hour b) zaps)) /\
      eh_avgZapAmount b = avgZapAmountOf (eh_totalSats b) (eh_zapCount b)) buckets.
Proof.
  destruct (buckets_built (getHours api) 24 (fun d => proj1 (in_range d)) eq_refl zaps)
    as (grouped & Hfold & Hkeys & Hval).
  unfold groupZapsByHour. rewrite Hfold.
  set (mk := fun '(hour, stats) => _).
  assert (Hhours : map eh_hour (map mk grouped) = map Z.of_nat (seq 0 24)).
  { rewrite map_map, <- Hkeys. unfold JsMap.keys. apply map_ext. now intros [h s]. }
  rewrite sort_sorted_id.
  - eexists. split; [reflexivity|]. split; [exact Hhours|].
    apply Forall_map. apply List.Forall_forall. intros [h s] Hin. simpl.
    destruct (Hval h s Hin) as [Ht Hc]. auto.
  - apply sorted_by_key. rewrite Hhours. apply range_keys_sorted.
Qed.

Lemma groupZapsByDayOfWeek_buckets (zaps : list ParsedZap) :
  exists buckets,
    groupZapsByDayOfWeek api zaps = Some buckets /\
    map ed_dayOfWeek buckets = map Z.of_nat (seq 0 7) /\
    Forall (fun b =>
      ed_totalSats b = sumZ (map amount (zapsAt (getDay api) (ed_dayOfWeek b) zaps)) /\
      ed_zapCount b = Z.of_nat (length (zapsAt (getDay api) (ed_dayOfWeek b) zaps)) /\
      ed_avgZapAmount b = avgZapAmountOf (ed_totalSats b) (ed_zapCount b)) buckets.
Proof.
  destruct (buckets_built (getDay api) 7 (fun d => proj2 (in_range d)) eq_refl zaps)
    as (grouped & Hfold & Hkeys & Hval).
  unfold groupZapsByDayOfWeek. rewrite Hfold.
  set (mk := fun '(dayOfWeek, stats) => _).
  assert (Hdays : map ed_dayOfWeek (map mk grouped) = map Z.of_nat (seq 0 7)).
  { rewrite map_map, <- Hkeys. unfold JsMap.keys. apply map_ext. now intros [d s]. }
  rewrite sort_sorted_id.
  - eexists. split; [reflexivity|]. split; [exact Hdays|].
    apply Forall_map. apply List.Forall_forall. intros [d s] Hin. simpl.
    destruct (Hval d s Hin) as [Ht Hc]. auto.
  - apply sorted_by_key. rewrite Hdays. apply range_keys_sorted.
Qed.

End TemporalFacts.

Lemma avgZapAmountOf_spec (total count : Z) :
  (0 < count ->
   avgZapAmountOf total count = Js.round_div total count /\
   2 * total - count < 2 * count * avgZapAmountOf total count <= 2 * total + count) /\
  (count <= 0 -> avgZapAmountOf total count = 0).
Proof.
  unfold avgZapAmountOf. destruct (Z.ltb_spec 0 count) as [Hpos|Hle].
  - split; [|lia]. intros _. split; [reflexivity|]. now apply round_div_nearest.
  - split; [lia | reflexivity].
Qed.

(** C7, as the code has it. With the getters of [Date] in their ranges, the
    hour grouping returns the 24 buckets of hours 0 to 23 and the weekday
    grouping the 7 buckets of days 0 to 6, in ascending order, for every
    list of records, the empty one included. Each bucket holds the total and
    the count of the records that fall in it (0 and 0 when there is none),
    and its average is 0 when the count is 0 and otherwise the total divided
    by the count, rounded to the nearest integer, halves going up. *)
Theorem temporal_buckets_are_zero_filled (api : DateApi) (zaps : list ParsedZap) :
  getters_in_range api ->
  (exists buckets,
     groupZapsByHour api zaps = Some buckets /\
     length buckets = 24%nat /\
     map eh_hour buckets = map Z.of_nat (seq 0 24) /\
     Sorted Z.lt (map eh_hour buckets) /\
     Forall (fun b =>
       let mine := zapsAt (getHours api) (eh_hour b) zaps in
       eh_totalSats b = sumZ (map amount mine) /\
       eh_zapCount b = Z.of_nat (length mine) /\
       (mine = [] -> eh_totalSats b = 0 /\ eh_zapCount b = 0 /\ eh_avgZapAmount b = 0) /\
       (0 < eh_zapCount b ->
        eh_avgZapAmount b = Js.round_div (eh_totalSats b) (eh_zapCount b) /\
        2 * eh_totalSats b - eh_zapCount b
          < 2 * eh_zapCount b * eh_avgZapAmount b
          <= 2 * eh_totalSats b + eh_zapCount b)) buckets) /\
  (exists buckets,
     groupZapsByDayOfWeek api zaps = Some buckets /\
     length buckets = 7%nat /\
     map ed_dayOfWeek buckets = map Z.of_nat (seq 0 7) /\
     Sorted Z.lt (map ed_dayOfWeek buckets) /\
     Forall (fun b =>
       let mine := zapsAt (getDay api) (ed_dayOfWeek b) zaps in
       ed_totalSats b = sumZ (map amount mine) /\
       ed_zapCount b = Z.of_nat (length mine) /\
       (mine = [] -> ed_totalSats b = 0 /\ ed_zapCount b = 0 /\ ed_avgZapAmount b = 0) /\
       (0 < ed_zapCount b ->
        ed_avgZapAmount b = Js.round_div (ed_totalSats b) (ed_zapCount b) /\
        2 * ed_totalSats b - ed_zapCount b
          < 2 * ed_zapCount b * ed_avgZapAmount b
          <= 2 * ed_totalSats b + ed_zapCount b)) buckets).
Proof.
  intros Hrange. split.
  - destruct (groupZapsByHour_buckets api Hrange zaps) as (buckets & Hrun & Hhours & Hall).
    exists buckets. split; [exact Hrun|].
    split; [rewrite <- (length_map eh_hour), Hhours; reflexivity|].
    split; [exact Hhours|].
    split; [rewrite Hhours; apply range_keys_sorted|].
    eapply List.Forall_impl; [|exact Hall]. intros b (Ht & Hc & Havg).
    cbv zeta. split; [exact Ht|]. split; [exact Hc|].
    destruct (avgZapAmountOf_spec (eh_totalSats b) (eh_zapCount b)) as [Hpos Hzero].
    rewrite <- Havg in Hpos, Hzero. split.
    + intros Hnil. rewrite Hnil in Ht, Hc. simpl in Ht, Hc.
      repeat split; [exact Ht | exact Hc | apply Hzero; lia].
    + exact Hpos.
  - destruct (groupZapsByDayOfWeek_buckets api Hrange zaps) as (buckets & Hrun & Hdays & Hall).
    exists buckets. split; [exact Hrun|].
    split; [rewrite <- (length_map ed_dayOfWeek), Hdays; reflexivity|].
    split; [exact Hdays|].
    split; [rewrite Hdays; apply range_keys_sorted|].
    eapply List.Forall_impl; [|exact Hall]. intros b (Ht & Hc & Havg).
    cbv zeta. split; [exact Ht|]. split; [exact Hc|].
    destruct (avgZapAmountOf_spec (ed_totalSats b) (ed_zapCount b)) as [Hpos Hzero].
    rewrite <- Havg in Hpos, Hzero. split.
    + intros Hnil. rewrite Hnil in Ht, Hc. simpl in Ht, Hc.
      repeat split; [exact Ht | exact Hc | apply Hzero; lia].
    + exact Hpos.
Qed.

(** C7, as the specification words it, fails on the average: two zaps of 1
    and 2 sats in the same hour give the bucket of hour 22 a total of 3, a
    count of 2 and an average of 2, which is not 3 divided by 2. *)
Lemma hour_average_is_rounded :
  exists buckets b,
    groupZapsByHour Utc.api
      [Sample.mkZap "z1" Sample.t0 1 "bob" None;
       Sample.mkZap "z2" (Sample.t0 + 60) 2 "carol" None] = Some buckets /\
    In b buckets /\
    eh_hour b = 22 /\ eh_totalSats b = 3 /\ eh_zapCount b = 2 /\ eh_avgZapAmount b = 2 /\
    0 < eh_zapCount b /\
    ~ (inject_Z (eh_avgZapAmount b) ==
       inject_Z (eh_totalSats b) / inject_Z (eh_zapCount b))%Q.
Proof.
  eexists _, {| eh_hour := 22; eh_totalSats := 3; eh_zapCount := 2; eh_avgZapAmount := 2 |}.
  split; [vm_compute; reflexivity|].
  split; [do 22 right; left; reflexivity|].
  simpl. repeat split; try lia. unfold Qeq. simpl. lia.
Qed.

(** ** Loyalty segmentation *)

Lemma zapsOf_snoc (p : string) (seen : list ParsedZap) (zap : ParsedZap) :
  zapsOf p (seen ++ [zap]) =
  if String.eqb (zapperOf zap) p then zapsOf p seen ++ [zap] else zapsOf p seen.
Proof.
  unfold zapsOf, zapperOf. rewrite List.filter_app. simpl.
  destruct (String.eqb (zp_pubkey (zapper zap)) p); [reflexivity | apply app_nil_r].
Qed.

Lemma zapsOf_absent (p : string) (seen : list ParsedZap) :
  ~ In p (map zapperOf seen) -> zapsOf p seen = [].
Proof.
  induction seen as [|zap seen IH]; simpl; intros Hnot.
  - reflexivity.
  - fold (zapperOf zap). destruct (String.eqb_spec (zapperOf zap) p) as [Heq|Hne].
    + exfalso. apply Hnot. now left.
    + apply IH. intros Hin. apply Hnot. now right.
Qed.

Lemma loyalty_group_step_grouped (zapperData : JsMap.t string ZapperInfo)
    (seen : list ParsedZap) (zap : ParsedZap) :
  zappersGrouped zapperData seen ->
  zappersGrouped (loyalty_group_step zapperData zap) (seen ++ [zap]).
Proof.
  intros (Hnd & Hkeys & Hval). unfold loyalty_group_step. fold (zapperOf zap).
  destruct (JsMap.get (zapperOf zap) zapperData) as [existing|] eqn:Hget.
  - assert (Hin : In (zapperOf zap) (JsMap.keys zapperData)).
    { destruct (in_dec string_dec (zapperOf zap) (JsMap.keys zapperData)) as [|Hn];
        [assumption|]. apply get_none_keys in Hn. congruence. }
    split; [now apply keys_set_nodup|]. split.
    + intros p. rewrite keys_set, Hget, map_app, in_app_iff, Hkeys. simpl.
      split; [auto|]. intros [H|[<-|[]]]; [exact H | now apply Hkeys].
    + intros p info Hp. rewrite zapsOf_snoc.
      destruct (String.eqb_spec (zapperOf zap) p) as [<-|Hne].
      * rewrite get_set_eq in Hp. injection Hp as <-. simpl.
        destruct (Hval _ _ Hget) as (H1 & H2 & H3 & H4 & H5).
        rewrite map_app, sumZ_app, length_app, H2, H3, H4. simpl.
        repeat split; auto; lia.
      * rewrite get_set_ne in Hp by exact Hne. now apply Hval.
  - pose proof Hget as Hnotin. apply get_none_keys in Hnotin.
    split; [now apply keys_set_nodup|]. split.
    + intros p. rewrite keys_set, Hget, map_app, !in_app_iff, Hkeys. reflexivity.
    + intros p info Hp. rewrite zapsOf_snoc.
      destruct (String.eqb_spec (zapperOf zap) p) as [<-|Hne].
      * rewrite get_set_eq in Hp. injection Hp as <-. simpl.
        rewrite zapsOf_absent by (now rewrite <- Hkeys). simpl.
        repeat split; auto; lia.
      * rewrite get_set_ne in Hp by exact Hne. now apply Hval.
Qed.

Lemma groupByZapper_grouped (zaps : list ParsedZap) :
  zappersGrouped (groupByZapper zaps) zaps.
Proof.
  unfold groupByZapper.
  assert (Hgen : forall zaps grouped seen,
             zappersGrouped grouped seen ->
             zappersGrouped (fold_left loyalty_group_step zaps grouped) (seen ++ zaps)).
  { clear zaps. induction zaps as [|zap zaps IH]; intros grouped seen Hinv;
      cbn [fold_left].
    - now rewrite app_nil_r.
    - specialize (IH _ _ (loyalty_group_step_grouped grouped seen zap Hinv)).
      now rewrite <- app_assoc in IH. }
  apply (Hgen zaps JsMap.empty []).
  split; [constructor|]. split; [reflexivity|]. intros p info. discriminate.
Qed.

Lemma loyalty_fold_total (zaps : list ParsedZap) (grouped : JsMap.t string ZapperInfo) :
  sumZ (map zi_totalSats (JsMap.values (fold_left loyalty_group_step zaps grouped))) =
  sumZ (map zi_totalSats (JsMap.values grouped)) + sumZ (map amount zaps).
Proof.
  revert grouped. induction zaps as [|zap zaps IH]; intros grouped; cbn [fold_left].
  - simpl. lia.
  - rewrite IH. unfold loyalty_group_step.
    destruct (JsMap.get (zp_pubkey (zapper zap)) grouped) as [e|] eqn:Hget;
      rewrite sum_values_set, Hget; simpl; lia.
Qed.

Lemma loyalty_count_fold (infos : list ZapperInfo) (acc : LoyaltyAcc) :
  let acc' := fold_left loyalty_count_step infos acc in
  let count p := Z.of_nat (length (List.filter p infos)) in
  loyaltyAnalysis acc' = loyaltyAnalysis acc ++ map loyaltyOf infos /\
  acc_newZappers acc' = acc_newZappers acc + count (fun a => zi_zapCount a =? 1) /\
  acc_returningZappers acc' =
    acc_returningZappers acc + count (fun a => negb (zi_zapCount a =? 1)) /\
  acc_regularSupporters acc' =
    acc_regularSupporters acc + count (fun a => zl_isRegular (loyaltyOf a)).
Proof.
  revert acc. induction infos as [|a infos IH]; intros acc; cbn [fold_left].
  - simpl. rewrite app_nil_r. repeat split; lia.
  - destruct (IH (loyalty_count_step acc a)) as (H1 & H2 & H3 & H4).
    cbv zeta. rewrite H1, H2, H3, H4. clear IH H1 H2 H3 H4.
    unfold loyalty_count_step. cbn [List.filter map].
    assert (Hreg : zi_zapCount a = 1 -> zl_isRegular (loyaltyOf a) = false).
    { intros Hone. unfold loyaltyOf. cbn [zl_isRegular]. now rewrite Hone. }
    destruct (Z.eqb_spec (zi_zapCount a) 1) as [Hone|Hmany]; cbn [negb].
    + rewrite (Hreg Hone). cbn. rewrite <- app_assoc. repeat split; lia.
    + cbn [loyaltyAnalysis acc_newZappers acc_returningZappers acc_regularSupporters].
      rewrite <- app_assoc.
      replace (zl_isRegular (loyaltyOf a))
        with (match zl_category (loyaltyOf a) with Regular => true | _ => false end)
        by reflexivity.
      destruct (zl_category (loyaltyOf a)); cbn [length]; repeat split; lia.
Qed.

Section SortedEnds.
Context {A : Type}.
Variable key : A -> Z.

Lemma strongly_sorted_by_key (l : list A) :
  Sorted (fun a b => key a - key b <= 0) l ->
  StronglySorted (fun a b => key a <= key b) l.
Proof.
  intros Hs. apply Sorted_StronglySorted.
  - intros x y z Hxy Hyz. lia.
  - eapply Sorted_weaken; [|exact Hs]. intros a b Hab. simpl in Hab. lia.
Qed.

Lemma strongly_sorted_last (l : list A) (y : A) :
  StronglySorted (fun a b => key a <= key b) l ->
  last l = Some y -> Forall (fun z => key z <= key y) l.
Proof.
  induction 1 as [|x l Hl IH Hx]; [discriminate|].
  destruct l as [|x' l'].
  - intros [= <-]. constructor; [lia | constructor].
  - intros Hlast. change (last (x :: x' :: l')) with (last (x' :: l')) in Hlast.
    specialize (IH Hlast). constructor; [|exact IH].
    assert (Hin : In y (x' :: l')).
    { clear -Hlast. revert x' Hlast. induction l' as [|z l' IHl]; intros x' Hlast.
      - injection Hlast as <-. now left.
      - right. now apply (IHl z). }
    rewrite List.Forall_forall in Hx. now apply Hx.
Qed.

(** The ends of an array sorted by a key are a least and a greatest
    element of the array. *)
Lemma sort_ends (l : list A) :
  l <> [] ->
  exists lo hi,
    head (Js.sort (fun a b => key a - key b) l) = Some lo /\
    last (Js.sort (fun a b => key a - key b) l) = Some hi /\
    In lo l /\ In hi l /\
    Forall (fun z => key lo <= key z <= key hi) l.
Proof.
  intros Hne.
  set (sorted := Js.sort (fun a b => key a - key b) l).
  assert (Hperm : Permutation sorted l) by apply sort_perm.
  assert (Hss : StronglySorted (fun a b => key a <= key b) sorted).
  { apply strongly_sorted_by_key, sort_sorted. intros x y. lia. }
  destruct sorted as [|lo rest] eqn:Hsorted.
  { apply Permutation_nil in Hperm. congruence. }
  destruct (last (lo :: rest)) as [hi|] eqn:Hlast.
  2:{ exfalso. clear -Hlast. revert lo Hlast.
      induction rest as [|z rest IH]; intros lo Hlast; [discriminate|].
      now apply (IH z). }
  exists lo, hi. split; [reflexivity|]. split; [reflexivity|].
  pose proof (strongly_sorted_last _ _ Hss Hlast) as Hhi.
  assert (Hlo : Forall (fun z => key lo <= key z) (lo :: rest)).
  { inversion Hss as [|? ? _ Hall]; subst. constructor; [lia | exact Hall]. }
  assert (Hinhi : In hi (lo :: rest)).
  { clear -Hlast. revert lo Hlast.
    induction rest as [|z rest IH]; intros lo Hlast.
    - injection Hlast as <-. now left.
    - right. now apply (IH z). }
  split; [eapply Permutation_in; [exact Hperm | now left]|].
  split; [eapply Permutation_in; [exact Hperm | exact Hinhi]|].
  eapply Permutation_Forall; [exact Hperm|].
  rewrite List.Forall_forall in *. intros z Hz. split; auto.
Qed.

End SortedEnds.

(** The first and the last date of a zapper are the least and the greatest
    date of its records. *)
Lemma loyaltyOf_span (a : ZapperInfo) :
  zi_zaps a <> [] ->
  let l := loyaltyOf a in
  In (zl_firstZapDate l) (map zapDate (zi_zaps a)) /\
  In (zl_lastZapDate l) (map zapDate (zi_zaps a)) /\
  Forall (fun zap => zl_firstZapDate l <= zapDate zap <= zl_lastZapDate l) (zi_zaps a).
Proof.
  intros Hne. unfold loyaltyOf. cbn [zl_firstZapDate zl_lastZapDate].
  destruct (sort_ends (fun zap => ev_created_at (receipt zap)) (zi_zaps a) Hne)
    as (lo & hi & Hhead & Hlast & Hlo & Hhi & Hall).
  rewrite Hhead, Hlast. cbn. split; [now apply in_map|]. split; [now apply in_map|].
  eapply List.Forall_impl; [|exact Hall]. intros zap Hz. unfold zapDate. simpl in Hz. lia.
Qed.

Lemma returningCategory_spec (total count : Z) (avg : Q) :
  let regular := 5 <= count \/ (3 <= count /\ (avg <= inject_Z 7)%Q) in
  (10000 <= total -> returningCategory total count avg = Whale) /\
  (total < 10000 -> regular -> returningCategory total count avg = Regular) /\
  (total < 10000 -> ~ regular -> returningCategory total count avg = Occasional).
Proof.
  unfold returningCategory, WHALE_THRESHOLD.
  assert (Hq : Qle_bool avg (inject_Z 7) = true <-> (avg <= inject_Z 7)%Q)
    by apply Qle_bool_iff.
  destruct (Z.leb_spec 10000 total), (Z.leb_spec 5 count), (Z.leb_spec 3 count),
    (Qle_bool avg (inject_Z 7)); simpl;
    repeat split; intros; try reflexivity; exfalso; intuition (try lia; discriminate).
Qed.

Lemma loyaltyOf_spec (a : ZapperInfo) :
  let l := loyaltyOf a in
  let regular :=
    5 <= zi_zapCount a \/
    (3 <= zi_zapCount a /\ (zl_averageDaysBetweenZaps l <= inject_Z 7)%Q) in
  zl_zapCount l = zi_zapCount a /\
  zl_totalSats l = zi_totalSats a /\
  (zi_zapCount a = 1 -> zl_category l = OneTime) /\
  (zi_zapCount a <> 1 -> 10000 <= zi_totalSats a -> zl_category l = Whale) /\
  (zi_zapCount a <> 1 -> zi_totalSats a < 10000 -> regular -> zl_category l = Regular) /\
  (zi_zapCount a <> 1 -> zi_totalSats a < 10000 -> ~ regular ->
   zl_category l = Occasional) /\
  (zl_isRegular l = true <-> zl_category l = Regular) /\
  (1 < zi_zapCount a ->
   zl_daysBetweenFirstAndLast l =
     Js.ceil_div (zl_lastZapDate l - zl_firstZapDate l) 86400000 /\
   zl_averageDaysBetweenZaps l =
     (inject_Z (zl_daysBetweenFirstAndLast l) / inject_Z (zi_zapCount a - 1))%Q).
Proof.
  unfold loyaltyOf.
  cbn [zl_zapCount zl_totalSats zl_category zl_isRegular zl_averageDaysBetweenZaps
       zl_daysBetweenFirstAndLast zl_lastZapDate zl_firstZapDate].
  set (avg := if 1 <? zi_zapCount a then _ else _).
  cbv zeta.
  destruct (returningCategory_spec (zi_totalSats a) (zi_zapCount a) avg)
    as (Hwhale & Hregular & Hocc).
  split; [reflexivity|]. split; [reflexivity|].
  destruct (Z.eqb_spec (zi_zapCount a) 1) as [Hone|Hmany].
  - repeat split; intros; try lia; try reflexivity; try discriminate.
  - split; [intros; lia|]. split; [intros; now apply Hwhale|].
    split; [intros; now apply Hregular|]. split; [intros; now apply Hocc|].
    split.
    + destruct (returningCategory _ _ _); split; congruence.
    + intros Hgt. unfold avg. destruct (Z.ltb_spec 1 (zi_zapCount a)); [|lia].
      split; reflexivity.
Qed.

(** C4, as the code has it. The actors of the loyalty analysis are the
    distinct zappers, each with its own records. An actor with exactly one
    record is one-time and counted as a new supporter; an actor with more
    than one record is counted as returning and is a whale when its lifetime
    total is at least 10,000 sats, otherwise regular - and counted as a
    regular supporter - when it has at least 5 records, or at least 3 with
    an average of at most 7 days between them, and otherwise occasional.
    The average lifetime value is 0 without actors and otherwise the grand
    total divided by the number of actors, rounded to the nearest integer,
    halves going up. *)
Theorem loyalty_segmentation (zaps : list ParsedZap) :
  let actors := JsMap.values (groupByZapper zaps) in
  let stats := analyzeZapperLoyalty zaps in
  let count p := Z.of_nat (length (List.filter p actors)) in
  let grandTotal := sumZ (map amount zaps) in
  let distinct := Z.of_nat (length actors) in
  List.NoDup (map zi_pubkey actors) /\
  (forall p, In p (map zi_pubkey actors) <-> In p (map zapperOf zaps)) /\
  Forall (fun a =>
    let l := loyaltyOf a in
    let regular :=
      5 <= zi_zapCount a \/
      (3 <= zi_zapCount a /\ (zl_averageDaysBetweenZaps l <= inject_Z 7)%Q) in
    zi_zaps a = zapsOf (zi_pubkey a) zaps /\
    zi_zapCount a = Z.of_nat (length (zapsOf (zi_pubkey a) zaps)) /\
    zi_totalSats a = sumZ (map amount (zapsOf (zi_pubkey a) zaps)) /\
    1 <= zi_zapCount a /\
    (zi_zapCount a = 1 -> zl_category l = OneTime) /\
    (1 < zi_zapCount a -> 10000 <= zi_totalSats a -> zl_category l = Whale) /\
    (1 < zi_zapCount a -> zi_totalSats a < 10000 -> regular -> zl_category l = Regular) /\
    (1 < zi_zapCount a -> zi_totalSats a < 10000 -> ~ regular ->
     zl_category l = Occasional) /\
    (1 < zi_zapCount a ->
     zl_daysBetweenFirstAndLast l =
       Js.ceil_div (zl_lastZapDate l - zl_firstZapDate l) 86400000 /\
     zl_averageDaysBetweenZaps l =
       (inject_Z (zl_daysBetweenFirstAndLast l) / inject_Z (zi_zapCount a - 1))%Q) /\
    In (zl_firstZapDate l) (map zapDate (zi_zaps a)) /\
    In (zl_lastZapDate l) (map zapDate (zi_zaps a)) /\
    Forall (fun zap => zl_firstZapDate l <= zapDate zap <= zl_lastZapDate l) (zi_zaps a))
    actors /\
  newZappers stats = count (fun a => zi_zapCount a =? 1) /\
  returningZappers stats = count (fun a => 1 <? zi_zapCount a) /\
  regularSupporters stats =
    count (fun a => match zl_category (loyaltyOf a) with Regular => true | _ => false end) /\
  (distinct = 0 -> averageLifetimeValue stats = 0) /\
  (0 < distinct ->
   averageLifetimeValue stats = Js.round_div grandTotal distinct /\
   2 * grandTotal - distinct
     < 2 * distinct * averageLifetimeValue stats
     <= 2 * grandTotal + distinct).
Proof.
  intros actors stats count grandTotal distinct.
  destruct (groupByZapper_grouped zaps) as (Hnd & Hkeys & Hval).
  assert (Hactor : forall a, In a actors ->
            JsMap.get (zi_pubkey a) (groupByZapper zaps) = Some a).
  { intros a Hin. unfold actors, JsMap.values in Hin.
    apply in_map_iff in Hin as ([p info] & <- & Hin). simpl.
    pose proof (in_get_some _ _ _ Hnd Hin) as Hget.
    destruct (Hval _ _ Hget) as (-> & _). exact Hget. }
  assert (Hpub : map zi_pubkey actors = JsMap.keys (groupByZapper zaps)).
  { unfold actors, JsMap.values, JsMap.keys. rewrite map_map.
    apply map_ext_in. intros [p info] Hin. simpl.
    pose proof (in_get_some _ _ _ Hnd Hin) as Hget.
    now destruct (Hval _ _ Hget) as (-> & _). }
  assert (Hall : Forall (fun a => 1 <= zi_zapCount a) actors).
  { apply List.Forall_forall. intros a Hin.
    now destruct (Hval _ _ (Hactor a Hin)) as (_ & _ & _ & _ & H). }
  pose proof (loyalty_count_fold actors
                {| loyaltyAnalysis := []; acc_newZappers := 0;
                   acc_returningZappers := 0; acc_regularSupporters := 0 |})
    as (_ & Hnew & Hret & Hreg).
  cbn [acc_newZappers acc_returningZappers acc_regularSupporters] in Hnew, Hret, Hreg.
  assert (Htotal : Js.reduce_sum zi_totalSats actors = grandTotal).
  { rewrite reduce_sum_sumZ. unfold actors, groupByZapper.
    rewrite loyalty_fold_total. reflexivity. }
  split; [now rewrite Hpub|]. split; [intros p; now rewrite Hpub|].
  split; [|split; [|split; [|split; [|split]]]].
  - apply List.Forall_forall. intros a Hin. cbv zeta.
    destruct (Hval _ _ (Hactor a Hin)) as (_ & Hz & Ht & Hc & Hge).
    destruct (loyaltyOf_spec a) as (_ & _ & H1 & Hw & Hr & Ho & _ & Havg).
    assert (Hne : zi_zaps a <> []).
    { intros Hnil. rewrite <- Hz, Hnil in Hc. simpl in Hc. lia. }
    destruct (loyaltyOf_span a Hne) as (Hfirst & Hlast & Hspan).
    split; [exact Hz|]. split; [exact Hc|]. split; [exact Ht|]. split; [exact Hge|].
    split; [exact H1|].
    split; [intros; apply Hw; lia|].
    split; [intros; apply Hr; [lia | assumption | assumption]|].
    split; [intros; apply Ho; [lia | assumption | assumption]|].
    split; [exact Havg|]. auto.
  - unfold stats, analyzeZapperLoyalty. cbn [newZappers]. fold actors.
    rewrite Hnew, Z.add_0_l. reflexivity.
  - unfold stats, analyzeZapperLoyalty. cbn [returningZappers]. fold actors.
    rewrite Hret, Z.add_0_l. unfold count. do 2 f_equal.
    clear -Hall. induction Hall as [|a l Ha _ IH]; simpl; [reflexivity|].
    rewrite IH. destruct (Z.eqb_spec (zi_zapCount a) 1), (Z.ltb_spec 1 (zi_zapCount a));
      simpl; try reflexivity; lia.
  - unfold stats, analyzeZapperLoyalty. cbn [regularSupporters]. fold actors.
    rewrite Hreg, Z.add_0_l. reflexivity.
  - intros Hzero. unfold stats, analyzeZapperLoyalty. cbn [averageLifetimeValue].
    replace (Z.of_nat (length (groupByZapper zaps))) with distinct
      by (unfold distinct, actors, JsMap.values; now rewrite length_map).
    rewrite Hzero. reflexivity.
  - intros Hpos. unfold stats, analyzeZapperLoyalty. cbn [averageLifetimeValue].
    replace (Z.of_nat (length (groupByZapper zaps))) with distinct
      by (unfold distinct, actors, JsMap.values; now rewrite length_map).
    fold actors. rewrite Htotal.
    destruct (Z.ltb_spec 0 distinct); [|lia].
    split; [reflexivity | now apply round_div_nearest].
Qed.

(** C4, as the specification words it, fails on the average lifetime value:
    two zappers with 1 and 2 sats have a grand total of 3 over 2 distinct
    actors, and the reported value is 2, not 3 divided by 2. *)
Lemma lifetime_value_is_rounded :
  let zaps := [Sample.mkZap "z1" Sample.t0 1 "bob" None;
               Sample.mkZap "z2" Sample.t0 2 "carol" None] in
  let stats := analyzeZapperLoyalty zaps in
  sumZ (map amount zaps) = 3 /\
  length (groupByZapper zaps) = 2%nat /\
  averageLifetimeValue stats = 2 /\
  ~ (inject_Z (averageLifetimeValue stats) == inject_Z 3 / inject_Z 2)%Q.
Proof.
  repeat split. vm_compute. discriminate.
Qed.

(** ** Hashtags *)

(** The scenario of the specification: two records on one note tagged
    [#bitcoin] give the tag a post count of 1 and a zap count of 2, and a tag
    met on one record only is left out. *)
Example hashtag_scenario :
  let post := Sample.note "note1" "Stacking #Bitcoin today" in
  let other := Sample.note "note2" "gm #nostr" in
  map (fun h => (hp_hashtag h, hp_postCount h, hp_zapCount h, hp_totalSats h))
    (analyzeHashtagPerformance
       [Sample.mkZap "z1" Sample.t0 21 "bob" (Some post);
        Sample.mkZap "z2" (Sample.t0 + 60) 42 "carol" (Some post);
        Sample.mkZap "z3" (Sample.t0 + 90) 5 "dave" (Some other)])
  = [("#bitcoin", 1, 2, 63)].
Proof. vm_compute. reflexivity. Qed.

(** C8. A tag written twice in one body is counted twice for one record: a
    single zap of 21 sats on a note that says [#nostr] and [#Nostr] yields
    the tag [#nostr] with a zap count of 2 and a total of 42 sats, and the
    tag passes the filter of at least 2 zaps with one record only. *)
Theorem repeated_hashtag_counts_one_zap_twice :
  let post := Sample.note "note1" "gm #nostr #Nostr" in
  let zaps := [Sample.mkZap "z1" Sample.t0 21 "bob" (Some post)] in
  length zaps = 1%nat /\
  sumZ (map amount zaps) = 21 /\
  extractHashtags (ze_content post) = ["#nostr"; "#nostr"] /\
  map (fun h => (hp_hashtag h, hp_postCount h, hp_zapCount h, hp_totalSats h))
    (analyzeHashtagPerformance zaps)
  = [("#nostr", 1, 2, 42)].
Proof. repeat split; vm_compute; reflexivity. Qed.

(** The nested loops of the first pass are one loop over the hashtag
    occurrences. *)
Lemma hashtag_fold_flat (zaps : list ParsedZap) (hashtagData : JsMap.t string HashtagData) :
  fold_left hashtag_step zaps hashtagData =
  fold_left (fun m (e : TagEvent) => hashtag_update (fst (fst e)) (snd (fst e)) m (snd e))
    (tagEvents zaps) hashtagData.
Proof.
  revert hashtagData. induction zaps as [|zap zaps IH]; intros hashtagData.
  - reflexivity.
  - cbn [fold_left tagEvents flat_map]. rewrite fold_left_app, IH. f_equal.
    unfold hashtag_step. destruct (zappedEvent zap) as [ze|]; [|reflexivity].
    generalize (extractHashtags (ze_content ze)) as tags. intros tags.
    revert hashtagData. induction tags as [|t tags IHt]; intros hashtagData.
    + reflexivity.
    + cbn [fold_left map]. apply IHt.
Qed.

Lemma eventsOf_snoc (tag : string) (seen : list TagEvent) (e : TagEvent) :
  eventsOf tag (seen ++ [e]) =
  if String.eqb (snd e) tag then eventsOf tag seen ++ [e] else eventsOf tag seen.
Proof.
  unfold eventsOf. rewrite List.filter_app. simpl.
  destruct (String.eqb (snd e) tag); [reflexivity | apply app_nil_r].
Qed.

Lemma eventsOf_absent (tag : string) (seen : list TagEvent) :
  ~ In tag (map snd seen) -> eventsOf tag seen = [].
Proof.
  induction seen as [|e seen IH]; simpl; intros Hnot.
  - reflexivity.
  - destruct (String.eqb_spec (snd e) tag) as [Heq|Hne].
    + exfalso. apply Hnot. now left.
    + apply IH. intros Hin. apply Hnot. now right.
Qed.

Lemma hashtag_update_tally (hashtagData : JsMap.t string HashtagData)
    (seen : list TagEvent) (e : TagEvent) :
  hashtagsTally hashtagData seen ->
  hashtagsTally (hashtag_update (fst (fst e)) (snd (fst e)) hashtagData (snd e))
    (seen ++ [e]).
Proof.
  destruct e as [[zap ze] t]. cbn [fst snd].
  intros (Hnd & Hkeys & Hval). unfold hashtag_update.
  destruct (JsMap.get t hashtagData) as [existing|] eqn:Hget.
  - assert (Hin : In t (JsMap.keys hashtagData)).
    { destruct (in_dec string_dec t (JsMap.keys hashtagData)) as [|Hn]; [assumption|].
      apply get_none_keys in Hn. congruence. }
    split; [now apply keys_set_nodup|]. split.
    + intros tag. rewrite keys_set, Hget, map_app, in_app_iff, Hkeys. simpl.
      split; [auto|]. intros [H|[<-|[]]]; [exact H | now apply Hkeys].
    + intros tag data Hp. cbv zeta. rewrite eventsOf_snoc. cbn [snd].
      destruct (String.eqb_spec t tag) as [<-|Hne].
      * rewrite get_set_eq in Hp. injection Hp as <-. cbn.
        destruct (Hval _ _ Hget) as (H1 & H2 & H3 & H4 & H5 & H6).
        rewrite !map_app, sumZ_app, length_app, H2, H3, H4, H5, H6. cbn.
        repeat split; auto; try lia; try (f_equal; lia).
        rewrite list_to_set_app_L. cbn.
        rewrite (right_id_L ∅ (∪)). apply (comm_L (∪)).
      * rewrite get_set_ne in Hp by exact Hne. now apply Hval.
  - pose proof Hget as Hnotin. apply get_none_keys in Hnotin.
    split; [now apply keys_set_nodup|]. split.
    + intros tag. rewrite keys_set, Hget, map_app, !in_app_iff, Hkeys. reflexivity.
    + intros tag data Hp. cbv zeta. rewrite eventsOf_snoc. cbn [snd].
      destruct (String.eqb_spec t tag) as [<-|Hne].
      * rewrite get_set_eq in Hp. injection Hp as <-. cbn.
        rewrite eventsOf_absent by (now rewrite <- Hkeys). cbn.
        repeat split; auto; try lia.
        now rewrite (right_id_L ∅ (∪)).
      * rewrite get_set_ne in Hp by exact Hne. now apply Hval.
Qed.

Lemma hashtagData_tally (zaps : list ParsedZap) :
  hashtagsTally (fold_left hashtag_step zaps JsMap.empty) (tagEvents zaps).
Proof.
  rewrite hashtag_fold_flat.
  assert (Hgen : forall events m seen,
             hashtagsTally m seen ->
             hashtagsTally
               (fold_left (fun m (e : TagEvent) =>
                             hashtag_update (fst (fst e)) (snd (fst e)) m (snd e))
                  events m) (seen ++ events)).
  { induction events as [|e events IH]; intros m seen Hinv; cbn [fold_left].
    - now rewrite app_nil_r.
    - specialize (IH _ _ (hashtag_update_tally m seen e Hinv)).
      now rewrite <- app_assoc in IH. }
  apply (Hgen (tagEvents zaps) JsMap.empty []).
  split; [constructor|]. split; [reflexivity|]. intros tag data. discriminate.
Qed.

Lemma nodup_map_filter {A B : Type} (f : A -> B) (p : A -> bool) (l : list A) :
  List.NoDup (map f l) -> List.NoDup (map f (List.filter p l)).
Proof.
  induction l as [|x l IH]; simpl; intros Hnd.
  - constructor.
  - inversion Hnd as [|y ys Hnotin Hnd']; subst.
    destruct (p x); simpl; [|now apply IH].
    constructor; [|now apply IH].
    intros Hin. apply Hnotin. apply in_map_iff in Hin as (y & Hy & Hin).
    apply in_map_iff. exists y. split; [exact Hy|].
    apply filter_In in Hin. tauto.
Qed.

(** What the hashtag analysis returns, in terms of hashtag occurrences: the
    tags with two occurrences at least, each once, with the count, the total
    and the distinct contents of its occurrences. *)
Lemma analyzeHashtagPerformance_occurrences (zaps : list ParsedZap) :
  let out := analyzeHashtagPerformance zaps in
  let events := tagEvents zaps in
  List.NoDup (map hp_hashtag out) /\
  (forall tag, In tag (map hp_hashtag out) <-> (2 <= length (eventsOf tag events))%nat) /\
  Forall (fun h =>
    let mine := eventsOf (hp_hashtag h) events in
    hp_zapCount h = Z.of_nat (length mine) /\
    hp_totalSats h = sumZ (map (fun e => amount (fst (fst e))) mine) /\
    hp_postCount h =
      Z.of_nat (size (list_to_set (map (fun e => ze_id (snd (fst e))) mine) : gset string)) /\
    hp_avgZapAmount h = avgZapAmountOf (hp_totalSats h) (hp_zapCount h)) out.
Proof.
  intros out events.
  destruct (hashtagData_tally zaps) as (Hnd & Hkeys & Hval).
  set (m := fold_left hashtag_step zaps JsMap.empty) in *.
  fold events in Hkeys, Hval.
  set (kept := List.filter (fun h => 2 <=? hp_zapCount h)
                 (map hashtag_performance (JsMap.values m))).
  assert (Hperm : Permutation out kept) by apply sort_perm.
  assert (Hentry : forall data, In data (JsMap.values m) ->
            JsMap.get (hd_hashtag data) m = Some data).
  { intros data Hin. unfold JsMap.values in Hin.
    apply in_map_iff in Hin as ([tag d] & <- & Hin). simpl.
    pose proof (in_get_some _ _ _ Hnd Hin) as Hget.
    destruct (Hval _ _ Hget) as (-> & _). exact Hget. }
  assert (Htags : map hd_hashtag (JsMap.values m) = JsMap.keys m).
  { unfold JsMap.values, JsMap.keys. rewrite map_map.
    apply map_ext_in. intros [tag d] Hin. simpl.
    pose proof (in_get_some _ _ _ Hnd Hin) as Hget.
    now destruct (Hval _ _ Hget) as (-> & _). }
  split; [|split].
  - eapply Permutation_NoDup; [apply Permutation_map; symmetry; exact Hperm|].
    unfold kept. apply nodup_map_filter. rewrite map_map.
    rewrite <- Htags in Hnd. exact Hnd.
  - intros tag. rewrite (Permutation_in' (eq_refl tag) (Permutation_map hp_hashtag Hperm)).
    unfold kept. rewrite in_map_iff. split.
    + intros (h & <- & Hin). apply filter_In in Hin as (Hin & Hcount).
      apply in_map_iff in Hin as (data & <- & Hin).
      destruct (Hval _ _ (Hentry data Hin)) as (_ & Hc & _).
      cbn [hashtag_performance hp_hashtag hp_zapCount] in *.
      apply Z.leb_le in Hcount. lia.
    + intros Hlen.
      assert (Hin : In tag (JsMap.keys m)).
      { apply Hkeys. destruct (eventsOf tag events) as [|e es] eqn:He; [simpl in Hlen; lia|].
        assert (Hmem : In e (eventsOf tag events)) by (rewrite He; now left).
        apply filter_In in Hmem as (Hmem & Heq). apply String.eqb_eq in Heq. subst tag.
        now apply in_map. }
      destruct (JsMap.get tag m) as [data|] eqn:Hget;
        [|apply get_none_keys in Hget; contradiction].
      destruct (Hval _ _ Hget) as (Hname & Hc & _).
      exists (hashtag_performance data). split; [exact Hname|].
      apply filter_In. split.
      * apply in_map. unfold JsMap.values.
        change data with (snd (tag, data)). apply in_map. now apply get_some_in.
      * cbn [hashtag_performance hp_zapCount]. apply Z.leb_le. lia.
  - eapply Permutation_Forall; [symmetry; exact Hperm|].
    unfold kept. apply List.Forall_forall. intros h Hin.
    apply filter_In in Hin as (Hin & _).
    apply in_map_iff in Hin as (data & <- & Hin).
    destruct (Hval _ _ (Hentry data Hin)) as (_ & Hc & Ht & Hp & _).
    cbn [hashtag_performance hp_hashtag hp_zapCount hp_totalSats hp_postCount
         hp_avgZapAmount].
    cbv zeta. rewrite Hp. auto.
Qed.

Lemma tag_occurrences_once (tag : string) (tags : list string) :
  List.NoDup tags ->
  length (List.filter (fun t => String.eqb t tag) tags) =
  if existsb (String.eqb tag) tags then 1%nat else 0%nat.
Proof.
  induction 1 as [|t tags Hnotin _ IH]; simpl.
  - reflexivity.
  - rewrite (String.eqb_sym tag t). destruct (String.eqb_spec t tag) as [->|Hne]; simpl.
    + rewrite IH.
      destruct (existsb (String.eqb tag) tags) eqn:Hex; [|reflexivity].
      apply existsb_exists in Hex as (t' & Hin & Heq). apply String.eqb_eq in Heq.
      subst t'. contradiction.
    + exact IH.
Qed.

(** When no body writes a tag twice, the occurrences of a tag are the
    records that carry it. *)
Lemma occurrences_are_records (tag : string) (zaps : list ParsedZap) :
  Forall (fun zap => List.NoDup (tagsOf zap)) zaps ->
  length (eventsOf tag (tagEvents zaps)) = length (recordsTagged tag zaps) /\
  sumZ (map (fun e : TagEvent => amount (fst (fst e))) (eventsOf tag (tagEvents zaps))) =
  sumZ (map amount (recordsTagged tag zaps)).
Proof.
  induction 1 as [|zap zaps Hnd _ IH]; [split; reflexivity|].
  destruct IH as [IHlen IHsum].
  cbn [tagEvents flat_map recordsTagged List.filter]. fold (tagEvents zaps).
  fold (recordsTagged tag zaps).
  unfold eventsOf. rewrite List.filter_app. fold (eventsOf tag (tagEvents zaps)).
  rewrite length_app, map_app, sumZ_app, IHlen, IHsum.
  unfold tagsOf in *. destruct (zappedEvent zap) as [ze|]; [|split; reflexivity].
  set (tags := extractHashtags (ze_content ze)) in *.
  assert (Hshape : List.filter (fun e : TagEvent => String.eqb (snd e) tag)
                     (map (fun hashtag => (zap, ze, hashtag)) tags)
                   = map (fun hashtag => (zap, ze, hashtag))
                       (List.filter (fun t => String.eqb t tag) tags)).
  { clear. induction tags as [|t tags IH]; simpl; [reflexivity|].
    destruct (String.eqb t tag); simpl; now rewrite IH. }
  rewrite Hshape, length_map, map_map. cbn [fst].
  pose proof (tag_occurrences_once tag tags Hnd) as Honce.
  destruct (existsb (String.eqb tag) tags).
  - destruct (List.filter (fun t => String.eqb t tag) tags) as [|t [|t' rest]];
      simpl in Honce; try discriminate.
    simpl. split; lia.
  - destruct (List.filter (fun t => String.eqb t tag) tags); simpl in Honce;
      [|discriminate].
    simpl. split; lia.
Qed.

(** The claim about hashtags holds on every input where no body writes a tag
    twice: the output is the tags carried by two records at least, each with
    the number of its records as its zap count and their amounts as its
    total. *)
Lemma hashtags_without_repeats (zaps : list ParsedZap) :
  Forall (fun zap => List.NoDup (tagsOf zap)) zaps ->
  let out := analyzeHashtagPerformance zaps in
  List.NoDup (map hp_hashtag out) /\
  (forall tag, In tag (map hp_hashtag out) <-> (2 <= length (recordsTagged tag zaps))%nat) /\
  Forall (fun h =>
    hp_zapCount h = Z.of_nat (length (recordsTagged (hp_hashtag h) zaps)) /\
    hp_totalSats h = sumZ (map amount (recordsTagged (hp_hashtag h) zaps))) out.
Proof.
  intros Hnd out.
  destruct (analyzeHashtagPerformance_occurrences zaps) as (Huniq & Htags & Hall).
  split; [exact Huniq|]. split.
  - intros tag. fold out in Htags. rewrite Htags.
    now rewrite (proj1 (occurrences_are_records tag zaps Hnd)).
  - eapply List.Forall_impl; [|exact Hall]. intros h (Hc & Ht & _).
    destruct (occurrences_are_records (hp_hashtag h) zaps Hnd) as [Hlen Hsum].
    rewrite Hc, Ht, Hlen, Hsum. auto.
Qed.

(** ** Scenarios of the specification *)

(** Receipts down to 30 minutes after [since]: complete after one batch. *)
Example near_boundary_completes_at_once :
  fst (getDateRange (nowUpdate Sample.clock) R24h None) = Sample.t0 /\
  oldestTimestamp (allReceiptsCache (state Runs.afterFirst)) = Some (Sample.t0 + 1800) /\
  isComplete (state Runs.afterFirst) = true.
Proof. repeat split; vm_compute; reflexivity. Qed.

(** Receipts down to five hours after [since]: not complete after the batch,
    and, the window being a preset, not complete after an empty batch
    either, the oldest cached receipt being outside the tolerance. *)
Example far_from_boundary_stays_incomplete :
  oldestTimestamp (allReceiptsCache (state Runs.afterSparse)) = Some (Sample.t0 + 18000) /\
  isComplete (state Runs.afterSparse) = false /\
  currentBatch (state Runs.afterSparseThenEmpty) = 2 /\
  allReceiptsCache (state Runs.afterSparseThenEmpty) = [Sample.receipt3] /\
  isComplete (state Runs.afterSparseThenEmpty) = false.
Proof. repeat split; vm_compute; reflexivity. Qed.

(** Two fetches of a custom range from a relay that repeats itself: the
    store holds every receipt twice. *)
Example repeated_batch_is_stored_twice :
  map ev_id (allReceiptsCache (state Runs.afterCustomFirst)) = ["r1"; "r2"] /\
  isComplete (state Runs.afterCustomFirst) = false /\
  map ev_id (allReceiptsCache (state Runs.afterCustomSecond)) = ["r1"; "r1"; "r2"; "r2"] /\
  userZapCache Runs.afterCustomSecond !! "alice" =
    Some (allReceiptsCache (state Runs.afterCustomSecond)).
Proof. repeat split; vm_compute; reflexivity. Qed.

(** The boundaries of the loyalty classes: one record is one-time whatever
    its amount; two records that total exactly 10,000 sats make a whale;
    five small records a month apart make a regular; two small records an
    occasional. *)
Example loyalty_boundaries :
  let month := 30 * 86400 in
  let t := Sample.t0 in
  let stats :=
    analyzeZapperLoyalty
      [Sample.mkZap "a1" t 50000 "once" None;
       Sample.mkZap "b1" t 4000 "whale" None;
       Sample.mkZap "b2" (t + 60) 6000 "whale" None;
       Sample.mkZap "c1" t 10 "regular" None;
       Sample.mkZap "c2" (t + month) 10 "regular" None;
       Sample.mkZap "c3" (t + 2 * month) 10 "regular" None;
       Sample.mkZap "c4" (t + 3 * month) 10 "regular" None;
       Sample.mkZap "c5" (t + 4 * month) 10 "regular" None;
       Sample.mkZap "d1" t 10 "seldom" None;
       Sample.mkZap "d2" (t + month) 10 "seldom" None] in
  newZappers stats = 1 /\
  returningZappers stats = 3 /\
  regularSupporters stats = 1 /\
  averageLifetimeValue stats = 15018 /\
  map (fun l => (zl_pubkey l, zl_zapCount l, zl_totalSats l, zl_category l))
    (topLoyalZappers stats)
  = [("whale", 2, 10000, Whale); ("regular", 5, 50, Regular);
     ("seldom", 2, 20, Occasional)].
Proof. repeat split; vm_compute; reflexivity. Qed.

(** ** The theorems at concrete inputs *)

(** C1: the first fetch of the 24-hour window brings receipts down to 30
    minutes after [since], and the coverage is complete at once; the fetch
    of a custom range that brings one event, which is no valid receipt,
    completes the coverage as well. *)
Lemma completion_policy_witness :
  nowUpdate Sample.clock <= nowCheck Sample.clock /\
  (Runs.firstRun = Fetched Runs.firstRequest Runs.afterFirst false /\
   isComplete (state Runs.afterFirst) = true) /\
  (Runs.unpaidRun = Fetched Runs.unpaidRequest Runs.afterUnpaid false /\
   Sample.unpaidRelay Runs.unpaidRequest = Events [Sample.unpaid] /\
   isValidZapReceipt Sample.decode Sample.unpaid = false /\
   isComplete (state Runs.afterUnpaid) = true).
Proof.
  assert (Hclock : nowUpdate Sample.clock <= nowCheck Sample.clock)
    by (unfold Sample.clock; simpl; lia).
  assert (Hrun : loadMoreZaps Sample.decode Sample.relay (Some "alice") R24h None
                   Sample.clock false false emptyWorld
                 = Fetched Runs.firstRequest Runs.afterFirst false) by reflexivity.
  assert (Hunpaid : loadMoreZaps Sample.decode Sample.unpaidRelay (Some "alice") RCustom
                      (Some Runs.day) Sample.clock false false emptyWorld
                    = Fetched Runs.unpaidRequest Runs.afterUnpaid false) by reflexivity.
  split; [exact Hclock|]. split.
  - split; [exact Hrun|].
    apply (proj2 (completion_marked_exactly_by_policy Sample.decode Sample.relay
                    (Some "alice") R24h None Sample.clock false false emptyWorld
                    Runs.firstRequest Runs.afterFirst false Hclock Hrun)).
    exists [Sample.receipt1; Sample.receipt2]. split; [reflexivity|].
    cbv zeta. change (is_custom R24h) with false. cbv iota.
    right. split; [vm_compute; discriminate|].
    exists (Sample.t0 + 1800). split; [|vm_compute; discriminate].
    split.
    + exists Sample.receipt2. split; [vm_compute; auto | reflexivity].
    + intros r Hin. vm_compute in Hin.
      destruct Hin as [<-|[<-|[]]]; vm_compute; discriminate.
  - split; [exact Hunpaid|]. split; [reflexivity|]. split; [reflexivity|].
    apply (proj2 (completion_marked_exactly_by_policy Sample.decode Sample.unpaidRelay
                    (Some "alice") RCustom (Some Runs.day) Sample.clock false false
                    emptyWorld Runs.unpaidRequest Runs.afterUnpaid false Hclock Hunpaid)).
    exists [Sample.unpaid]. split; reflexivity.
Defined.

(** C2: the custom range fetched twice from the relay that repeats itself.
    The first fetch starts from an empty entry and stores the two receipts;
    the second adds them once more, and the ids stay the same. *)
Lemma merge_witness :
  let first := default [] (userZapCache Runs.afterCustomFirst !! "alice") in
  let second := default [] (userZapCache Runs.afterCustomSecond !! "alice") in
  Runs.customFirst = Fetched Runs.customRequest Runs.afterCustomFirst false /\
  Sample.relay Runs.customRequest = Events [Sample.receipt1; Sample.receipt2] /\
  Runs.customSecond = Fetched Runs.customSecondRequest Runs.afterCustomSecond false /\
  Sample.relay Runs.customSecondRequest = Events [Sample.receipt1; Sample.receipt2] /\
  length first = 2%nat /\
  length second = 4%nat /\
  recordIds second = recordIds first /\
  ~ NoDup (map ev_id second).
Proof.
  intros first second.
  assert (Hrun : loadMoreZaps Sample.decode Sample.relay (Some "alice") RCustom
                   (Some Runs.day) Sample.clock false false emptyWorld
                 = Fetched Runs.customRequest Runs.afterCustomFirst false) by reflexivity.
  assert (Hq : Sample.relay Runs.customRequest = Events [Sample.receipt1; Sample.receipt2])
    by reflexivity.
  assert (Hrun2 : loadMoreZaps Sample.decode Sample.relay (Some "alice") RCustom
                    (Some Runs.day) Sample.clock false false Runs.afterCustomFirst
                  = Fetched Runs.customSecondRequest Runs.afterCustomSecond false)
    by reflexivity.
  assert (Hq2 : Sample.relay Runs.customSecondRequest
                = Events [Sample.receipt1; Sample.receipt2]) by reflexivity.
  destruct (merge_is_sorted_concatenation Sample.decode Sample.relay (Some "alice")
              RCustom (Some Runs.day) Sample.clock false false emptyWorld
              Runs.customRequest Runs.afterCustomFirst false
              [Sample.receipt1; Sample.receipt2] Hrun Hq)
    as (_ & _ & _ & _ & _ & _ & Hstep & Hagain).
  destruct (Hstep eq_refl) as (_ & _ & Hlen & _).
  destruct (Hagain RCustom (Some Runs.day) Sample.clock false false
              Runs.customSecondRequest Runs.afterCustomSecond false Hrun2 Hq2)
    as (_ & Hids & Hlen2 & Hdup).
  split; [exact Hrun|]. split; [exact Hq|]. split; [exact Hrun2|]. split; [exact Hq2|].
  split; [exact Hlen|]. split; [exact Hlen2|]. split; [exact Hids|].
  apply Hdup. discriminate.
Defined.

(** C10: the first sample receipt is accepted and parsed into a record of
    21 sats; the event whose first bolt11 tag is empty is not parsed. *)
Lemma validator_witness :
  isValidZapReceipt Sample.decode Sample.receipt1 = true /\
  (exists zap,
     parseZapReceipt Sample.decode Sample.parseJson Sample.receipt1 = Some zap /\
     amount zap = 21 /\ receipt zap = Sample.receipt1) /\
  parseZapReceipt Sample.decode Sample.parseJson Sample.shadowed = None.
Proof.
  destruct (validator_accepts_what_the_parser_keeps Sample.decode Sample.parseJson
              Sample.receipt1) as (Haccepts & Hparsed & _).
  assert (Hvalid : isValidZapReceipt Sample.decode Sample.receipt1 = true).
  { apply Haccepts. split; [reflexivity|].
    exists ["bolt11"; "lnbc210n"], "lnbc210n", 21000.
    split; [|split; [reflexivity|]; split; [discriminate|]; split; reflexivity].
    exists [["p"; "alice"]; ["e"; "note1"]], []. split; [reflexivity|].
    split; [reflexivity|]. repeat constructor; discriminate. }
  split; [exact Hvalid|]. split.
  - destruct (Hparsed Hvalid) as (zap & tag & bolt11 & msat & Hzap & Hfirst & Hvalue
                                    & Hdecoded & Hamount & _ & Hreceipt).
    exists zap. split; [exact Hzap|]. split; [|exact Hreceipt].
    destruct Hfirst as (before & rest & Htags & Hname & Hbefore).
    assert (Htag : tag = ["bolt11"; "lnbc210n"]).
    { simpl in Htags.
      destruct before as [|b1 [|b2 [|b3 before]]]; simpl in Htags.
      - injection Htags as <- _. discriminate.
      - injection Htags as _ <- _. discriminate.
      - now injection Htags as _ _ <- _.
      - injection Htags as _ _ _ Hnil. now destruct before. }
    subst tag. injection Hvalue as <-. vm_compute in Hdecoded.
    injection Hdecoded as <-. exact Hamount.
  - apply (proj2 (proj2 (proj2 (validator_accepts_what_the_parser_keeps Sample.decode
                                  Sample.parseJson Sample.shadowed)))).
    right; left. exists ["bolt11"; ""]. split; [|now right].
    exists [], [["bolt11"; "lnbc210n"]]. split; [reflexivity|].
    split; [reflexivity | constructor].
Defined.

(** C6: the third failure in a row. *)
Lemma failures_witness :
  Runs.failedRun = Fetched Runs.failedRequest Runs.afterFailure false /\
  consecutiveFailures (state Runs.afterFailure) = 3 /\
  autoLoadEnabled (state Runs.afterFailure) = false /\
  userZapCache Runs.afterFailure = userZapCache Runs.shaky.
Proof.
  assert (Hrun : loadMoreZaps Sample.decode Sample.deadRelay (Some "alice") R24h None
                   Sample.clock false true Runs.shaky
                 = Fetched Runs.failedRequest Runs.afterFailure false) by reflexivity.
  split; [exact Hrun|].
  destruct (proj1 (failures_are_counted_and_bounded Sample.decode Sample.deadRelay
                     (Some "alice") R24h None Sample.clock false true Runs.shaky
                     Runs.failedRequest Runs.afterFailure false Hrun)
              (Some "timeout") eq_refl)
    as (Hcount & Hcache & _ & _ & _ & Hauto & _).
  split; [exact Hcount|]. split; [|exact Hcache].
  apply (proj2 Hauto). rewrite Hcount. simpl. lia.
Defined.

(** C5: the first fetch asks for 1000 receipts and gets 2; the detected
    limit becomes 250. *)
Lemma detected_limit_witness :
  Runs.firstRun = Fetched Runs.firstRequest Runs.afterFirst false /\
  f_limit Runs.firstRequest = 1000 /\
  relayLimit (state Runs.afterFirst) = Some 250.
Proof.
  assert (Hrun : loadMoreZaps Sample.decode Sample.relay (Some "alice") R24h None
                   Sample.clock false false emptyWorld
                 = Fetched Runs.firstRequest Runs.afterFirst false) by reflexivity.
  split; [exact Hrun|].
  destruct (detected_limit_and_batch_size Sample.decode Sample.relay
              (Some "alice") R24h None Sample.clock false false emptyWorld
              Runs.firstRequest Runs.afterFirst false Hrun)
    as (Hsize & Hlimit & _ & _).
  split; [exact Hsize|].
  exact (Hlimit [Sample.receipt1; Sample.receipt2] eq_refl).
Defined.

Lemma utc_in_range : getters_in_range Utc.api.
Proof.
  intros date. simpl. unfold Utc.getHours, Utc.getDay. split.
  - apply Z.mod_pos_bound. lia.
  - apply Z.mod_pos_bound. lia.
Defined.

(** C7: the two groupings of an empty list under the UTC calendar. *)
Lemma temporal_buckets_witness :
  getters_in_range Utc.api /\
  (exists buckets, groupZapsByHour Utc.api [] = Some buckets /\ length buckets = 24%nat) /\
  (exists buckets, groupZapsByDayOfWeek Utc.api [] = Some buckets /\ length buckets = 7%nat).
Proof.
  split; [exact utc_in_range|].
  destruct (temporal_buckets_are_zero_filled Utc.api [] utc_in_range)
    as [(hours & Hh & Hlen & _) (days & Hd & Hlen' & _)].
  split; [exists hours | exists days]; auto.
Defined.

(** C9: 30 sats on a note and 10 sats on nothing. The one kind totals 30
    of the 40 sats, and its percentage is 75. *)
Lemma kind_percentages_witness :
  let zaps := [Sample.mkZap "z1" Sample.t0 30 "bob" (Some (Sample.note "note1" "gm"));
               Sample.mkZap "z2" Sample.t0 10 "carol" None] in
  Forall (fun zap => 0 <= amount zap) zaps /\
  sumZ (map ek_totalSats (groupZapsByKind zaps)) = 30 /\
  sumZ (map ek_totalSats (groupZapsByKind zaps)) <> sumZ (map amount zaps) /\
  map ek_percentage (groupZapsByKind zaps) = [F64.of_int 75].
Proof.
  intros zaps.
  assert (Hnonneg : Forall (fun zap => 0 <= amount zap) zaps)
    by (repeat constructor; simpl; lia).
  destruct (kind_percentages_against_grand_total zaps Hnonneg)
    as (_ & Htotal & _ & Hcover & _).
  split; [exact Hnonneg|]. split; [exact Htotal|]. split.
  - intros Heq.
    apply (proj1 Hcover Heq (Sample.mkZap "z2" Sample.t0 10 "carol" None)).
    + right. now left.
    + simpl. lia.
    + reflexivity.
  - vm_compute. reflexivity.
Defined.

(** * Further properties of the code *)

(** ** The grouping loop *)

Section GroupLoopFacts.
Context {A K V : Type} `{EqDecision K}.
Variable key : A -> option K.
Variable init : A -> V.
Variable upd : V -> A -> V.

Lemma membersOf_snoc (k : K) (seen : list A) (a : A) :
  membersOf key k (seen ++ [a]) =
  if bool_decide (key a = Some k) then membersOf key k seen ++ [a]
  else membersOf key k seen.
Proof.
  unfold membersOf. rewrite List.filter_app. simpl.
  destruct (bool_decide (key a = Some k)); [reflexivity | apply app_nil_r].
Qed.

Lemma membersOf_absent (k : K) (seen : list A) :
  ~ In (Some k) (map key seen) -> membersOf key k seen = [].
Proof.
  induction seen as [|a seen IH]; simpl; intros Hnot.
  - reflexivity.
  - destruct (bool_decide_reflect (key a = Some k)) as [Heq|Hne].
    + exfalso. apply Hnot. left. now symmetry.
    + apply IH. intros Hin. apply Hnot. now right.
Qed.

Lemma membersOf_keys (k : K) (seen : list A) :
  Forall (fun a => key a = Some k) (membersOf key k seen).
Proof.
  apply List.Forall_forall. intros a Hin. apply filter_In in Hin as [_ Hk].
  now apply bool_decide_eq_true in Hk.
Qed.

Lemma groupStep_grouped (m : JsMap.t K V) (seen : list A) (a : A) :
  groupedBy key init upd m seen ->
  groupedBy key init upd (groupStep key init upd m a) (seen ++ [a]).
Proof.
  intros (Hnd & Hkeys & Hval). unfold groupStep.
  destruct (key a) as [k0|] eqn:Hk.
  - assert (Hset : forall v',
              groupedBy key init upd
                (JsMap.set k0 v' m) (seen ++ [a]) <->
              (forall k v, JsMap.get k (JsMap.set k0 v' m) = Some v ->
                 exists first rest,
                   membersOf key k (seen ++ [a]) = first :: rest /\
                   v = fold_left upd rest (init first))).
    { intros v'. split; [intros (_ & _ & H3); exact H3|]. intros H3.
      split; [now apply keys_set_nodup|]. split; [|exact H3].
      intros k. rewrite keys_set, map_app, in_app_iff. cbn [map]. rewrite Hk.
      destruct (JsMap.get k0 m) eqn:Hget.
      - rewrite Hkeys. split; [auto|]. intros [Hin|[[= <-]|[]]]; [exact Hin|].
        apply Hkeys. destruct (in_dec (fun x y => decide (x = y)) k0 (JsMap.keys m))
          as [|Hn]; [assumption|]. apply get_none_keys in Hn. congruence.
      - rewrite in_app_iff, Hkeys. cbn [In]. split.
        + intros [Hin|[<-|[]]]; auto.
        + intros [Hin|[[= <-]|[]]]; auto. }
    destruct (JsMap.get k0 m) as [existing|] eqn:Hget; apply Hset; intros k v Hp;
      rewrite membersOf_snoc, Hk.
    + destruct (decide (k0 = k)) as [<-|Hne].
      * rewrite get_set_eq in Hp. injection Hp as <-.
        destruct (Hval _ _ Hget) as (first & rest & Hm & ->).
        rewrite bool_decide_eq_true_2 by reflexivity.
        exists first, (rest ++ [a]). rewrite Hm. split; [reflexivity|].
        now rewrite fold_left_app.
      * rewrite get_set_ne in Hp by exact Hne.
        rewrite bool_decide_eq_false_2 by congruence. now apply Hval.
    + destruct (decide (k0 = k)) as [<-|Hne].
      * rewrite get_set_eq in Hp. injection Hp as <-.
        rewrite bool_decide_eq_true_2 by reflexivity.
        rewrite membersOf_absent.
        -- exists a, []. split; reflexivity.
        -- rewrite <- Hkeys. now apply get_none_keys.
      * rewrite get_set_ne in Hp by exact Hne.
        rewrite bool_decide_eq_false_2 by congruence. now apply Hval.
  - split; [exact Hnd|]. split.
    + intros k. rewrite Hkeys, map_app, in_app_iff. cbn [map In]. rewrite Hk.
      split; [auto|]. intros [Hin|[Hd|[]]]; [exact Hin | discriminate].
    + intros k v Hp. rewrite membersOf_snoc, Hk.
      rewrite bool_decide_eq_false_2 by discriminate. now apply Hval.
Qed.

Lemma groupFold_grouped (l : list A) :
  groupedBy key init upd (fold_left (groupStep key init upd) l JsMap.empty) l.
Proof.
  assert (Hgen : forall l m seen,
             groupedBy key init upd m seen ->
             groupedBy key init upd (fold_left (groupStep key init upd) l m) (seen ++ l)).
  { clear l. induction l as [|a l IH]; intros m seen Hinv; cbn [fold_left].
    - now rewrite app_nil_r.
    - specialize (IH _ _ (groupStep_grouped m seen a Hinv)).
      now rewrite <- app_assoc in IH. }
  apply (Hgen l JsMap.empty []).
  split; [constructor|]. split; [reflexivity|]. intros k v. discriminate.
Qed.

(** Every value of the map is the entry of its key. *)
Lemma grouped_values (m : JsMap.t K V) (seen : list A) (v : V) :
  groupedBy key init upd m seen ->
  In v (JsMap.values m) ->
  exists k first rest,
    In k (JsMap.keys m) /\
    membersOf key k seen = first :: rest /\ v = fold_left upd rest (init first).
Proof.
  intros (Hnd & _ & Hval) Hin. unfold JsMap.values in Hin.
  apply in_map_iff in Hin as ([k v'] & <- & Hin).
  destruct (Hval k v' (in_get_some _ _ _ Hnd Hin)) as (first & rest & Hm & Hv).
  exists k, first, rest. split; [|auto].
  unfold JsMap.keys. change k with (fst (k, v')). now apply in_map.
Qed.

End GroupLoopFacts.

Lemma sort_descending {A : Type} (f : A -> Z) (l : list A) :
  Sorted (fun a b => f b <= f a) (Js.sort (fun a b => f b - f a) l).
Proof.
  apply Sorted_weaken with (R1 := fun a b => f b - f a <= 0).
  - intros a b. lia.
  - apply sort_sorted. intros x y. lia.
Qed.

Lemma sort_ascending {A : Type} (f : A -> Z) (l : list A) :
  Sorted (fun a b => f a <= f b) (Js.sort (fun a b => f a - f b) l).
Proof.
  apply Sorted_weaken with (R1 := fun a b => f a - f b <= 0).
  - intros a b. lia.
  - apply sort_sorted. intros x y. lia.
Qed.

Section GroupOutput.
Context {A K V : Type} `{EqDecision K}.
Variable key : A -> option K.
Variable init : A -> V.
Variable upd : V -> A -> V.

(** [name] reads the key back from an entry. *)
Variable name : V -> K.
Hypothesis name_of_entry : forall k first rest,
  key first = Some k -> name (fold_left upd rest (init first)) = k.

Lemma grouped_names (m : JsMap.t K V) (seen : list A) :
  groupedBy key init upd m seen -> map name (JsMap.values m) = JsMap.keys m.
Proof.
  intros (Hnd & _ & Hval). unfold JsMap.values, JsMap.keys. rewrite map_map.
  apply map_ext_in. intros [k v] Hin. simpl.
  destruct (Hval k v (in_get_some _ _ _ Hnd Hin)) as (first & rest & Hm & ->).
  apply name_of_entry.
  pose proof (membersOf_keys key k seen) as Hk. rewrite Hm in Hk.
  now inversion Hk.
Qed.

(** What an aggregation returns once the values of its map are put in some
    order: one entry per key met, each built from the records of its key. *)
Lemma grouped_output (l : list A) (out : list V) :
  Permutation out (JsMap.values (fold_left (groupStep key init upd) l JsMap.empty)) ->
  List.NoDup (map name out) /\
  (forall k, In k (map name out) <-> In (Some k) (map key l)) /\
  Forall (fun v =>
    exists first rest,
      membersOf key (name v) l = first :: rest /\
      v = fold_left upd rest (init first)) out.
Proof.
  intros Hperm. pose proof (groupFold_grouped key init upd l) as Hg.
  set (m := fold_left (groupStep key init upd) l JsMap.empty) in *.
  pose proof (grouped_names m l Hg) as Hnames.
  destruct Hg as (Hnd & Hkeys & Hval).
  assert (Hpn : Permutation (map name out) (JsMap.keys m)).
  { rewrite <- Hnames. now apply Permutation_map. }
  split; [|split].
  - eapply Permutation_NoDup; [symmetry; exact Hpn | exact Hnd].
  - intros k. rewrite <- Hkeys. split; intros Hin.
    + eapply Permutation_in; [exact Hpn | exact Hin].
    + eapply Permutation_in; [symmetry; exact Hpn | exact Hin].
  - eapply Permutation_Forall; [symmetry; exact Hperm|].
    apply List.Forall_forall. intros v Hin. unfold JsMap.values in Hin.
    apply in_map_iff in Hin as ([k v'] & <- & Hin). simpl.
    destruct (Hval k v' (in_get_some _ _ _ Hnd Hin)) as (first & rest & Hm & Hv).
    assert (Hname : name v' = k).
    { rewrite Hv. apply name_of_entry.
      pose proof (membersOf_keys key k l) as Hk. rewrite Hm in Hk. now inversion Hk. }
    rewrite Hname. eauto.
Qed.

End GroupOutput.

Lemma fold_left_pointwise {A B : Type} (f g : B -> A -> B) (l : list A) (b : B) :
  (forall x y, f x y = g x y) -> fold_left f l b = fold_left g l b.
Proof.
  intros Hfg. revert b. induction l as [|a l IH]; intros b; simpl.
  - reflexivity.
  - now rewrite Hfg, IH.
Qed.

(** ** Earnings by content *)

Lemma groupZapsByContent_step_loop (m : JsMap.t string EarningsByContent) (zap : ParsedZap) :
  groupZapsByContent_step m zap = groupStep contentIdOf content_init content_upd m zap.
Proof.
  unfold groupZapsByContent_step, groupStep, contentIdOf, content_init, targetOf.
  destruct (zappedEvent zap) as [ze|]; simpl; [|reflexivity].
  now destruct (JsMap.get (ze_id ze) m).
Qed.

Lemma content_entry (rest : list ParsedZap) (e : EarningsByContent) :
  let e' := fold_left content_upd rest e in
  ec_eventId e' = ec_eventId e /\ ec_eventKind e' = ec_eventKind e /\
  ec_content e' = ec_content e /\ ec_author e' = ec_author e /\
  ec_created_at e' = ec_created_at e /\
  ec_totalSats e' = ec_totalSats e + sumZ (map amount rest) /\
  ec_zapCount e' = ec_zapCount e + Z.of_nat (length rest).
Proof.
  revert e. induction rest as [|zap rest IH]; intros e; cbn [fold_left].
  - simpl. repeat split; lia.
  - destruct (IH (content_upd e zap)) as (H1 & H2 & H3 & H4 & H5 & H6 & H7).
    cbv zeta. rewrite H1, H2, H3, H4, H5, H6, H7.
    cbn [map length]. rewrite Nat2Z.inj_succ.
    change (sumZ (amount zap :: map amount rest)) with (amount zap + sumZ (map amount rest)).
    unfold content_upd; cbn [ec_eventId ec_eventKind ec_content ec_author ec_created_at
                               ec_totalSats ec_zapCount].
    repeat split; lia.
Qed.

Lemma targetOf_key (zap : ParsedZap) (id : string) :
  contentIdOf zap = Some id -> zappedEvent zap = Some (targetOf zap) /\ ze_id (targetOf zap) = id.
Proof.
  unfold contentIdOf, targetOf. destruct (zappedEvent zap) as [ze|]; simpl.
  - intros [= <-]. auto.
  - discriminate.
Qed.

Lemma content_fold_total (zaps : list ParsedZap) (grouped : JsMap.t string EarningsByContent) :
  sumZ (map ec_totalSats (JsMap.values (fold_left groupZapsByContent_step zaps grouped))) =
  sumZ (map ec_totalSats (JsMap.values grouped)) +
  sumZ (map amount (List.filter referencesContent zaps)).
Proof.
  revert grouped. induction zaps as [|zap zaps IH]; intros grouped; cbn [fold_left].
  - simpl. lia.
  - rewrite IH. unfold groupZapsByContent_step, referencesContent. cbn [List.filter].
    destruct (zappedEvent zap) as [ze|]; [|lia].
    destruct (JsMap.get (ze_id ze) grouped) as [e|] eqn:Hget;
      rewrite sum_values_set, Hget; simpl; lia.
Qed.

(** X2. [groupZapsByContent] returns one entry per content id that some
    record references, and none for records that reference nothing. Each
    entry carries the sum of the amounts and the number of the records that
    reference its id, and the kind, body, author and creation time of the
    first of them; the entries are in descending order of their totals, and
    their totals add up to the amounts of the records that reference
    content. *)
Theorem content_ranking_groups_by_id (zaps : list ParsedZap) :
  let out := groupZapsByContent zaps in
  List.NoDup (map ec_eventId out) /\
  (forall id, In id (map ec_eventId out) <-> In (Some id) (map contentIdOf zaps)) /\
  Forall (fun e =>
    let mine := membersOf contentIdOf (ec_eventId e) zaps in
    ec_totalSats e = sumZ (map amount mine) /\
    ec_zapCount e = Z.of_nat (length mine) /\
    1 <= ec_zapCount e /\
    exists first rest,
      mine = first :: rest /\
      zappedEvent first =
        Some {| ze_id := ec_eventId e; ze_kind := ec_eventKind e;
                ze_author := ec_author e; ze_content := ec_content e;
                ze_created_at := ec_created_at e |}) out /\
  Sorted (fun a b => ec_totalSats b <= ec_totalSats a) out /\
  sumZ (map ec_totalSats out) = sumZ (map amount (List.filter referencesContent zaps)).
Proof.
  intros out.
  assert (Hperm : Permutation out
            (JsMap.values (fold_left (groupStep contentIdOf content_init content_upd)
                             zaps JsMap.empty))).
  { unfold out, groupZapsByContent.
    rewrite (fold_left_pointwise _ _ zaps JsMap.empty groupZapsByContent_step_loop).
    apply sort_perm. }
  assert (Hname : forall k first rest,
            contentIdOf first = Some k ->
            ec_eventId (fold_left content_upd rest (content_init first)) = k).
  { intros k first rest Hk.
    destruct (content_entry rest (content_init first)) as (-> & _).
    now destruct (targetOf_key first k Hk). }
  destruct (grouped_output contentIdOf content_init content_upd ec_eventId Hname zaps out Hperm)
    as (Hnd & Hin & Hall).
  split; [exact Hnd|]. split; [exact Hin|]. split; [|split].
  - eapply List.Forall_impl; [|exact Hall]. intros e (first & rest & Hm & He). cbv zeta.
    destruct (content_entry rest (content_init first)) as (H1 & H2 & H3 & H4 & H5 & H6 & H7).
    rewrite <- He in *. rewrite Hm. cbn [map length]. rewrite Nat2Z.inj_succ.
    change (sumZ (amount first :: map amount rest))
      with (amount first + sumZ (map amount rest)).
    unfold content_init in H6, H7. cbn [ec_totalSats ec_zapCount] in H6, H7.
    split; [lia|]. split; [lia|]. split; [lia|].
    exists first, rest. split; [reflexivity|].
    pose proof (membersOf_keys contentIdOf (ec_eventId e) zaps) as Hk.
    rewrite Hm in Hk. inversion Hk as [|? ? Hfirst _]; subst.
    destruct (targetOf_key first _ Hfirst) as [Hze _].
    rewrite Hze, H1, H2, H3, H4, H5. unfold content_init.
    cbn [ec_eventId ec_eventKind ec_content ec_author ec_created_at].
    now destruct (targetOf first).
  - apply sort_descending.
  - unfold out, groupZapsByContent.
    rewrite (sumZ_perm _ _ (Permutation_map ec_totalSats (sort_perm _ _))).
    rewrite content_fold_total. reflexivity.
Qed.

(** ** Top zappers *)

Lemma getTopZappers_step_loop (m : JsMap.t string ZapperStats) (zap : ParsedZap) :
  getTopZappers_step m zap =
  groupStep (fun zap => Some (zapperOf zap)) zapper_init zapper_upd m zap.
Proof.
  unfold getTopZappers_step, groupStep, zapperOf. cbv zeta.
  now destruct (JsMap.get (zp_pubkey (zapper zap)) m).
Qed.

Lemma membersOf_zapsOf (p : string) (zaps : list ParsedZap) :
  membersOf (fun zap => Some (zapperOf zap)) p zaps = zapsOf p zaps.
Proof.
  unfold membersOf, zapsOf. apply filter_ext. intros zap. unfold zapperOf.
  destruct (String.eqb_spec (zp_pubkey (zapper zap)) p) as [->|Hne].
  - now rewrite bool_decide_eq_true_2.
  - rewrite bool_decide_eq_false_2; [reflexivity|]. intros [= H]. contradiction.
Qed.

Lemma zapper_entry (rest : list ParsedZap) (s : ZapperStats) :
  let s' := fold_left zapper_upd rest s in
  zs_pubkey s' = zs_pubkey s /\ zs_name s' = zs_name s /\
  zs_nip05 s' = zs_nip05 s /\ zs_picture s' = zs_picture s /\
  zs_totalSats s' = zs_totalSats s + sumZ (map amount rest) /\
  zs_zapCount s' = zs_zapCount s + Z.of_nat (length rest).
Proof.
  revert s. induction rest as [|zap rest IH]; intros s; cbn [fold_left].
  - simpl. repeat split; lia.
  - destruct (IH (zapper_upd s zap)) as (H1 & H2 & H3 & H4 & H5 & H6).
    cbv zeta. rewrite H1, H2, H3, H4, H5, H6.
    cbn [map length]. rewrite Nat2Z.inj_succ.
    change (sumZ (amount zap :: map amount rest)) with (amount zap + sumZ (map amount rest)).
    unfold zapper_upd; cbn [zs_pubkey zs_name zs_nip05 zs_picture zs_totalSats zs_zapCount].
    repeat split; lia.
Qed.

Lemma zapper_fold_total (zaps : list ParsedZap) (grouped : JsMap.t string ZapperStats) :
  sumZ (map zs_totalSats (JsMap.values (fold_left getTopZappers_step zaps grouped))) =
  sumZ (map zs_totalSats (JsMap.values grouped)) + sumZ (map amount zaps).
Proof.
  revert grouped. induction zaps as [|zap zaps IH]; intros grouped; cbn [fold_left].
  - simpl. lia.
  - rewrite IH. unfold getTopZappers_step. cbv zeta.
    change (sumZ (map amount (zap :: zaps))) with (amount zap + sumZ (map amount zaps)).
    destruct (JsMap.get (zp_pubkey (zapper zap)) grouped) as [s|] eqn:Hget;
      rewrite sum_values_set, Hget; simpl; lia.
Qed.

Lemma size_of_distinct (l1 l2 : list string) :
  List.NoDup l1 -> (forall x, In x l1 <-> In x l2) ->
  length l1 = size (list_to_set l2 : gset string).
Proof.
  intros Hnd Hin.
  assert (Heq : (list_to_set l2 : gset string) = list_to_set l1).
  { apply set_eq. intros x. rewrite !elem_of_list_to_set, !list_elem_of_In.
    symmetry. apply Hin. }
  rewrite Heq. symmetry. apply size_list_to_set. now apply NoDup_ListNoDup.
Qed.

(** X3. [getTopZappers] returns one entry per distinct zapper of the
    input. Each entry carries the sum of the amounts and the number of that
    zapper's records, and the name, nip05 and picture of the zapper's first
    record; the entries are in descending order of their totals, their
    totals add up to the grand total, and there are as many entries as the
    [uniqueZappers] figure of the same analysis reports. *)
Theorem top_zappers_cover_every_zapper (zaps : list ParsedZap) :
  let out := getTopZappers zaps in
  List.NoDup (map zs_pubkey out) /\
  (forall p, In p (map zs_pubkey out) <-> In p (map zapperOf zaps)) /\
  Forall (fun s =>
    let mine := zapsOf (zs_pubkey s) zaps in
    zs_totalSats s = sumZ (map amount mine) /\
    zs_zapCount s = Z.of_nat (length mine) /\
    exists first rest,
      mine = first :: rest /\
      zs_name s = zp_name (zapper first) /\
      zs_nip05 s = zp_nip05 (zapper first) /\
      zs_picture s = zp_picture (zapper first)) out /\
  Sorted (fun a b => zs_totalSats b <= zs_totalSats a) out /\
  sumZ (map zs_totalSats out) = Js.reduce_sum amount zaps /\
  forall api timeRange customRange,
    Z.of_nat (length out) = uniqueZappers (analytics api zaps timeRange customRange).
Proof.
  intros out.
  assert (Hperm : Permutation out
            (JsMap.values (fold_left
               (groupStep (fun zap => Some (zapperOf zap)) zapper_init zapper_upd)
               zaps JsMap.empty))).
  { unfold out, getTopZappers.
    rewrite (fold_left_pointwise _ _ zaps JsMap.empty getTopZappers_step_loop).
    apply sort_perm. }
  assert (Hname : forall k first rest,
            Some (zapperOf first) = Some k ->
            zs_pubkey (fold_left zapper_upd rest (zapper_init first)) = k).
  { intros k first rest [= Hk].
    now destruct (zapper_entry rest (zapper_init first)) as (-> & _). }
  destruct (grouped_output (fun zap => Some (zapperOf zap)) zapper_init zapper_upd
              zs_pubkey Hname zaps out Hperm) as (Hnd & Hin & Hall).
  assert (Hin' : forall p, In p (map zs_pubkey out) <-> In p (map zapperOf zaps)).
  { intros p. rewrite Hin, !in_map_iff. split.
    - intros (zap & [= Hp] & Hz). eauto.
    - intros (zap & Hp & Hz). exists zap. split; [now f_equal | exact Hz]. }
  split; [exact Hnd|]. split; [exact Hin'|]. split; [|split; [|split]].
  - eapply List.Forall_impl; [|exact Hall]. intros s (first & rest & Hm & Hs). cbv zeta.
    rewrite membersOf_zapsOf in Hm.
    destruct (zapper_entry rest (zapper_init first)) as (_ & H2 & H3 & H4 & H5 & H6).
    rewrite <- Hs in *. rewrite Hm. cbn [map length]. rewrite Nat2Z.inj_succ.
    change (sumZ (amount first :: map amount rest))
      with (amount first + sumZ (map amount rest)).
    unfold zapper_init in H2, H3, H4, H5, H6.
    cbn [zs_name zs_nip05 zs_picture zs_totalSats zs_zapCount] in H2, H3, H4, H5, H6.
    split; [lia|]. split; [lia|]. exists first, rest. auto.
  - apply sort_descending.
  - unfold out, getTopZappers.
    rewrite (sumZ_perm _ _ (Permutation_map zs_totalSats (sort_perm _ _))).
    rewrite zapper_fold_total, reduce_sum_sumZ. reflexivity.
  - intros api timeRange customRange. unfold analytics; cbn [uniqueZappers].
    f_equal. rewrite <- (length_map zs_pubkey out).
    apply size_of_distinct; [exact Hnd | exact Hin'].
Qed.

(** ** Content performance *)

Section MapValues.
Context {K V W : Type} `{EqDecision K}.
Variable f : V -> W.

Lemma values_mapValues (m : JsMap.t K V) :
  JsMap.values (mapValues f m) = map f (JsMap.values m).
Proof. unfold JsMap.values, mapValues. rewrite !map_map. reflexivity. Qed.

Lemma get_mapValues (k : K) (m : JsMap.t K V) :
  JsMap.get k (mapValues f m) = f <$> JsMap.get k m.
Proof.
  induction m as [|[k' v] m IH]; simpl.
  - reflexivity.
  - destruct (decide (k = k')); [reflexivity | exact IH].
Qed.

Lemma set_mapValues (k : K) (v : V) (m : JsMap.t K V) :
  JsMap.set k (f v) (mapValues f m) = mapValues f (JsMap.set k v m).
Proof.
  induction m as [|[k' v'] m IH]; simpl.
  - reflexivity.
  - destruct (decide (k = k')); simpl; [reflexivity | now rewrite IH].
Qed.

End MapValues.

Section SortMap.
Context {A B : Type}.
Variable f : A -> B.
Variable cmpA : A -> A -> Z.
Variable cmpB : B -> B -> Z.
Hypothesis cmp_f : forall a b, cmpB (f a) (f b) = cmpA a b.

Lemma sort_insert_map (x : A) (l : list A) :
  map f (Js.sort_insert cmpA x l) = Js.sort_insert cmpB (f x) (map f l).
Proof.
  induction l as [|y ys IH]; simpl.
  - reflexivity.
  - rewrite cmp_f. destruct (cmpA x y <=? 0); simpl; [reflexivity | now rewrite IH].
Qed.

Lemma sort_map (l : list A) : map f (Js.sort cmpA l) = Js.sort cmpB (map f l).
Proof.
  induction l as [|x xs IH]; simpl.
  - reflexivity.
  - now rewrite sort_insert_map, IH.
Qed.

End SortMap.

Lemma contentData_step_loop (m : JsMap.t string ContentData) (zap : ParsedZap) :
  contentData_step m zap = groupStep contentIdOf data_init data_upd m zap.
Proof.
  unfold contentData_step, groupStep, contentIdOf, data_init, targetOf.
  destruct (zappedEvent zap) as [ze|]; simpl; [|reflexivity].
  now destruct (JsMap.get (ze_id ze) m).
Qed.

Lemma content_step_summary (m : JsMap.t string ContentData) (zap : ParsedZap) :
  groupZapsByContent_step (mapValues summaryOf m) zap =
  mapValues summaryOf (contentData_step m zap).
Proof.
  unfold groupZapsByContent_step, contentData_step.
  destruct (zappedEvent zap) as [ze|]; [|reflexivity].
  rewrite get_mapValues.
  destruct (JsMap.get (ze_id ze) m) as [existing|]; simpl;
    rewrite <- set_mapValues; reflexivity.
Qed.

Lemma content_fold_summary (zaps : list ParsedZap) (m : JsMap.t string ContentData) :
  fold_left groupZapsByContent_step zaps (mapValues summaryOf m) =
  mapValues summaryOf (fold_left contentData_step zaps m).
Proof.
  revert m. induction zaps as [|zap zaps IH]; intros m; cbn [fold_left].
  - reflexivity.
  - now rewrite content_step_summary, IH.
Qed.

(** X4. [analyzeContentPerformance] lists the same content as
    [groupZapsByContent], in the same order and with the same id, kind,
    body, author, creation time, total and count; the average amount of an
    entry is its total divided by its count, rounded to the nearest
    integer. *)
Theorem performance_ranks_like_content (zaps : list ParsedZap) :
  map cp_summary (analyzeContentPerformance zaps) = groupZapsByContent zaps /\
  Forall (fun p => cp_avgZapAmount p = Js.round_div (cp_totalSats p) (cp_zapCount p))
    (analyzeContentPerformance zaps).
Proof.
  split.
  - unfold analyzeContentPerformance, groupZapsByContent.
    rewrite (sort_map cp_summary _ (fun a b => ec_totalSats b - ec_totalSats a))
      by reflexivity.
    change (@JsMap.empty string EarningsByContent)
      with (mapValues summaryOf (@JsMap.empty string ContentData)).
    rewrite content_fold_summary, values_mapValues, map_map. reflexivity.
  - unfold analyzeContentPerformance.
    eapply Permutation_Forall; [symmetry; apply sort_perm|].
    apply List.Forall_forall. intros p Hin.
    apply in_map_iff in Hin as (d & <- & _). reflexivity.
Qed.

Lemma data_entry (rest : list ParsedZap) (d : ContentData) :
  let d' := fold_left data_upd rest d in
  cd_eventId d' = cd_eventId d /\ cd_created_at d' = cd_created_at d /\
  cd_zaps d' = cd_zaps d ++ rest /\
  cd_zapCount d' = cd_zapCount d + Z.of_nat (length rest).
Proof.
  revert d. induction rest as [|zap rest IH]; intros d; cbn [fold_left].
  - simpl. rewrite app_nil_r. repeat split; lia.
  - destruct (IH (data_upd d zap)) as (H1 & H2 & H3 & H4).
    cbv zeta. rewrite H1, H2, H3, H4.
    cbn [length]. rewrite Nat2Z.inj_succ.
    unfold data_upd; cbn [cd_eventId cd_created_at cd_zaps cd_zapCount].
    rewrite <- app_assoc. repeat split; lia.
Qed.

(** Every entry of the analysis is computed from the records of its
    content: the entry holds them in input order and their number. *)
Lemma performance_entries (zaps : list ParsedZap) :
  Forall (fun p =>
    exists d first rest,
      p = performanceOf d /\
      membersOf contentIdOf (cp_eventId p) zaps = first :: rest /\
      cd_zaps d = first :: rest /\
      cd_zapCount d = Z.of_nat (length (first :: rest)))
    (analyzeContentPerformance zaps).
Proof.
  unfold analyzeContentPerformance.
  eapply Permutation_Forall; [symmetry; apply sort_perm|].
  rewrite (fold_left_pointwise _ _ zaps JsMap.empty contentData_step_loop).
  assert (Hname : forall k first rest,
            contentIdOf first = Some k ->
            cd_eventId (fold_left data_upd rest (data_init first)) = k).
  { intros k first rest Hk.
    destruct (data_entry rest (data_init first)) as (-> & _).
    now destruct (targetOf_key first k Hk). }
  destruct (grouped_output contentIdOf data_init data_upd cd_eventId Hname zaps _
              (Permutation_refl _)) as (_ & _ & Hall).
  apply Forall_map. eapply List.Forall_impl; [|exact Hall].
  intros d (first & rest & Hm & Hd).
  destruct (data_entry rest (data_init first)) as (_ & _ & H3 & H4).
  rewrite <- Hd in H3, H4. exists d, first, rest.
  split; [reflexivity|]. split; [exact Hm|]. split; [exact H3|].
  rewrite H4. cbn [data_init cd_zapCount length]. lia.
Qed.


Lemma sum_filter_perm {A : Type} (f : A -> Z) (p : A -> bool) (l1 l2 : list A) :
  Permutation l1 l2 ->
  sumZ (map f (List.filter p l1)) = sumZ (map f (List.filter p l2)).
Proof.
  induction 1 as [|x l1 l2 _ IH|x y l|l1 l2 l3 _ IH1 _ IH2]; simpl.
  - reflexivity.
  - destruct (p x); simpl; now rewrite IH.
  - destruct (p x), (p y); simpl; lia.
  - now rewrite IH1.
Qed.




Lemma peak_in_windows (created : Z) (sortedZaps : list ParsedZap) :
  In (peakEarningsWindow created sortedZaps) peakWindows.
Proof.
  unfold peakEarningsWindow, peakWindows, peak_step. cbn [fold_left fst snd].
  repeat match goal with
         | |- context [if ?c then _ else _] => destruct c; cbn [fst snd]
         end; simpl; tauto.
Qed.


Lemma sum_filter_mono {A : Type} (f : A -> Z) (p q : A -> bool) (l : list A) :
  (forall x, p x = true -> q x = true) ->
  Forall (fun x => 0 <= f x) l ->
  0 <= sumZ (map f (List.filter p l)) <= sumZ (map f (List.filter q l)).
Proof.
  intros Hpq. induction 1 as [|x l Hx _ IH]; simpl.
  - lia.
  - specialize (Hpq x). destruct (p x), (q x); simpl; lia.
Qed.

Lemma earnedWithin_mono (created_at : Z) (mine : list ParsedZap) (h1 h2 : Z) :
  Forall (fun zap => 0 <= amount zap) mine -> h1 <= h2 ->
  0 <= earnedWithin created_at mine h1 <= earnedWithin created_at mine h2.
Proof.
  intros Hnonneg Hle. unfold earnedWithin, zapsUntil.
  apply sum_filter_mono; [|exact Hnonneg].
  intros zap Hz. apply Z.leb_le in Hz. apply Z.leb_le. lia.
Qed.

Lemma windowEarnings_members (created_at : Z) (sortedZaps mine : list ParsedZap) (hours : Z) :
  Permutation sortedZaps mine ->
  windowEarnings (created_at * 1000) sortedZaps hours = earnedWithin created_at mine hours.
Proof.
  intros Hperm. unfold windowEarnings, earnedWithin, zapsUntil.
  rewrite reduce_sum_sumZ. now apply sum_filter_perm.
Qed.

(** The loop over the four windows, given what each window earned. *)
Lemma peak_window_of (created : Z) (sortedZaps : list ParsedZap) :
  let e := windowEarnings created sortedZaps in
  let w := peakEarningsWindow created sortedZaps in
  0 <= e 1 <= e 6 -> e 6 <= e 24 <= e 72 ->
  (e 72 = 0 -> w = 1) /\
  (0 < e 72 ->
   e w = e 72 /\ forall h, In h peakWindows -> h < w -> e h < e 72).
Proof.
  intros e w. subst w. unfold peakEarningsWindow, peakWindows, peak_step.
  cbn [fold_left]. fold e. intros H1 H2.
  assert (He : forall h, In h [1; 6; 24; 72] -> h = 1 \/ h = 6 \/ h = 24 \/ h = 72)
    by (simpl; intuition).
  cbn [fst snd].
  destruct (Z.ltb_spec 0 (e 1)); cbn [fst snd];
    match goal with |- context [?a <? e 6] => destruct (Z.ltb_spec a (e 6)) end;
    cbn [fst snd];
    match goal with |- context [?a <? e 24] => destruct (Z.ltb_spec a (e 24)) end;
    cbn [fst snd];
    match goal with |- context [?a <? e 72] => destruct (Z.ltb_spec a (e 72)) end;
    cbn [fst snd].
  all: split; [lia|].
  all: intros Hpos; split; [try lia|].
  all: try (intros h Hh Hlt; destruct (He h Hh) as [-> | [-> | [-> | ->]]]; lia).
Qed.

(** X6. What [analyzeContentPerformance] reports as the peak earnings
    window, when no amount is negative: the windows of 1, 6, 24 and 72 hours
    after the creation of the content each include the shorter ones, so their
    earnings only grow, and the reported window is the shortest one that
    already holds everything earned within 72 hours; it is 1 hour when
    nothing was earned within 72 hours. *)
Theorem peak_window_is_shortest_holding_all (zaps : list ParsedZap) :
  Forall (fun zap => 0 <= amount zap) zaps ->
  Forall (fun p =>
    let within :=
      earnedWithin (cp_created_at p) (membersOf contentIdOf (cp_eventId p) zaps) in
    let peak := cp_peakEarningsWindow p in
    (0 <= within 1 <= within 6 /\ within 6 <= within 24 <= within 72) /\
    (within 72 = 0 -> peak = 1) /\
    (0 < within 72 ->
     within peak = within 72 /\
     forall h, In h peakWindows -> h < peak -> within h < within 72))
    (analyzeContentPerformance zaps).
Proof.
  intros Hnonneg.
  eapply List.Forall_impl; [|apply performance_entries].
  intros p (d & first & rest & Hp & Hm & Hz & Hc). cbv zeta.
  set (mine := membersOf contentIdOf (cp_eventId p) zaps) in *.
  assert (Hmine : Forall (fun zap => 0 <= amount zap) mine).
  { rewrite List.Forall_forall in *. intros zap Hin. apply Hnonneg.
    unfold mine, membersOf in Hin. now apply filter_In in Hin as [Hin _]. }
  set (sortedZaps := Js.sort (fun a b => ev_created_at (receipt a)
                                         - ev_created_at (receipt b)) (cd_zaps d)).
  assert (Hperm : Permutation sortedZaps mine).
  { unfold sortedZaps. rewrite Hm, <- Hz. apply sort_perm. }
  assert (Hw : forall h,
             windowEarnings (cp_created_at p * 1000) sortedZaps h =
             earnedWithin (cp_created_at p) mine h).
  { intros h. now apply windowEarnings_members. }
  assert (Hpeak : cp_peakEarningsWindow p =
                  peakEarningsWindow (cp_created_at p * 1000) sortedZaps).
  { rewrite Hp. reflexivity. }
  pose proof (earnedWithin_mono (cp_created_at p) mine 1 6 Hmine ltac:(lia)) as H16.
  pose proof (earnedWithin_mono (cp_created_at p) mine 6 24 Hmine ltac:(lia)) as H624.
  pose proof (earnedWithin_mono (cp_created_at p) mine 24 72 Hmine ltac:(lia)) as H2472.
  pose proof (peak_window_of (cp_created_at p * 1000) sortedZaps) as Hspec.
  cbv zeta in Hspec. rewrite <- Hpeak in Hspec. rewrite !Hw in Hspec.
  destruct Hspec as [Hzero Hpos]; [lia | lia |].
  split; [lia|]. split; [exact Hzero|].
  intros H72. destruct (Hpos H72) as [Heq Hbefore]. split; [exact Heq|].
  intros h Hh Hlt. specialize (Hbefore h Hh Hlt). now rewrite Hw in Hbefore.
Qed.

(** X6 on a note zapped after half an hour, after five hours and after two
    days: the six-hour window is reported. *)
Lemma peak_window_witness :
  let zaps := [Sample.mkZap "z1" (Sample.t0 - 1800) 30 "bob" (Some (Sample.note "note1" "gm"));
               Sample.mkZap "z2" (Sample.t0 + 14400) 10 "carol" (Some (Sample.note "note1" "gm"));
               Sample.mkZap "z3" (Sample.t0 + 172800) 0 "dave" (Some (Sample.note "note1" "gm"))] in
  Forall (fun zap => 0 <= amount zap) zaps /\
  map cp_peakEarningsWindow (analyzeContentPerformance zaps) = [6] /\
  Forall (fun p =>
    let within :=
      earnedWithin (cp_created_at p) (membersOf contentIdOf (cp_eventId p) zaps) in
    0 < within 72 -> within (cp_peakEarningsWindow p) = within 72)
    (analyzeContentPerformance zaps).
Proof.
  intros zaps.
  assert (Hnonneg : Forall (fun zap => 0 <= amount zap) zaps)
    by (repeat constructor; simpl; lia).
  split; [exact Hnonneg|]. split; [reflexivity|].
  eapply List.Forall_impl;
    [|exact (peak_window_is_shortest_holding_all zaps Hnonneg)].
  intros p Hp. cbv zeta in Hp |- *. destruct Hp as (_ & _ & Hpos).
  intros H72. exact (proj1 (Hpos H72)).
Defined.

(** ** The buckets of the period grouping *)

Section PeriodBuckets.

Variable api : DateApi.

Lemma groupZapsByPeriod_step_loop (g : GroupBy) (m : JsMap.t string PeriodStats)
    (zap : ParsedZap) :
  groupZapsByPeriod_step api g m zap =
  groupStep (periodKeyOf api g) (period_init api g) period_upd m zap.
Proof.
  unfold groupZapsByPeriod_step, groupStep, periodKeyOf, period_init.
  destruct (periodOf api g (zapDate zap)) as [periodKey periodDate]. cbn [fst snd].
  now destruct (JsMap.get periodKey m).
Qed.

Lemma period_entry (rest : list ParsedZap) (s : PeriodStats) :
  let s' := fold_left period_upd rest s in
  ps_date s' = ps_date s /\
  ps_totalSats s' = ps_totalSats s + sumZ (map amount rest) /\
  ps_zapCount s' = ps_zapCount s + Z.of_nat (length rest).
Proof.
  revert s. induction rest as [|zap rest IH]; intros s; cbn [fold_left].
  - simpl. repeat split; lia.
  - destruct (IH (period_upd s zap)) as (H1 & H2 & H3).
    cbv zeta. rewrite H1, H2, H3.
    cbn [map length]. rewrite Nat2Z.inj_succ.
    change (sumZ (amount zap :: map amount rest)) with (amount zap + sumZ (map amount rest)).
    unfold period_upd; cbn [ps_date ps_totalSats ps_zapCount].
    repeat split; lia.
Qed.

Lemma period_fold_count (g : GroupBy) (zaps : list ParsedZap)
    (grouped : JsMap.t string PeriodStats) :
  sumZ (map ps_zapCount
          (JsMap.values (fold_left (groupZapsByPeriod_step api g) zaps grouped))) =
  sumZ (map ps_zapCount (JsMap.values grouped)) + Z.of_nat (length zaps).
Proof.
  revert grouped. induction zaps as [|zap zaps IH]; intros grouped; cbn [fold_left length].
  - simpl. lia.
  - rewrite IH, Nat2Z.inj_succ. unfold groupZapsByPeriod_step.
    destruct (periodOf api g (zapDate zap)) as [periodKey periodDate].
    rewrite sum_values_set. destruct (JsMap.get periodKey grouped); simpl; lia.
Qed.

(** X7. The buckets of [groupZapsByPeriod]: one bucket per period that
    holds a record and none for an empty period; a bucket carries the sum of
    the amounts and the number of the records of its period, and the date
    computed from the first of them; the buckets are in ascending order of
    their dates, and their counts add up to the number of records. *)
Theorem period_buckets_partition_the_records (zaps : list ParsedZap)
    (timeRange : TimeRange) (customRange : option CustomDateRange) :
  let g := selectGroupBy timeRange customRange in
  let out := groupZapsByPeriod api zaps timeRange customRange in
  List.NoDup (map ep_period out) /\
  (forall k, In k (map ep_period out) <->
             In k (map (fun zap => fst (periodOf api g (zapDate zap))) zaps)) /\
  Forall (fun e =>
    let mine := membersOf (periodKeyOf api g) (ep_period e) zaps in
    ep_totalSats e = sumZ (map amount mine) /\
    ep_zapCount e = Z.of_nat (length mine) /\
    1 <= ep_zapCount e /\
    exists first rest,
      mine = first :: rest /\
      ep_date e = snd (periodOf api g (zapDate first))) out /\
  Sorted (fun a b => ep_date a <= ep_date b) out /\
  sumZ (map ep_zapCount out) = Z.of_nat (length zaps).
Proof.
  intros g out. unfold groupZapsByPeriod in out. fold g in out.
  set (mk := fun '(period, stats) =>
               {| ep_period := period;
                  ep_totalSats := ps_totalSats stats;
                  ep_zapCount := ps_zapCount stats;
                  ep_date := ps_date stats |}).
  set (m := fold_left (groupZapsByPeriod_step api g) zaps JsMap.empty).
  assert (Hperm : Permutation out (map mk m)) by apply sort_perm.
  assert (Hg : groupedBy (periodKeyOf api g) (period_init api g) period_upd m zaps).
  { unfold m.
    rewrite (fold_left_pointwise _ _ zaps JsMap.empty (groupZapsByPeriod_step_loop g)).
    apply groupFold_grouped. }
  destruct Hg as (Hnd & Hkeys & Hval).
  assert (Hnames : map ep_period (map mk m) = JsMap.keys m).
  { unfold JsMap.keys. rewrite map_map. apply map_ext. now intros [period stats]. }
  assert (Hpn : Permutation (map ep_period out) (JsMap.keys m)).
  { rewrite <- Hnames. now apply Permutation_map. }
  split; [|split; [|split; [|split]]].
  - eapply Permutation_NoDup; [symmetry; exact Hpn | exact Hnd].
  - intros k.
    assert (Hk : In k (map ep_period out) <-> In k (JsMap.keys m)).
    { split; intros Hin.
      - eapply Permutation_in; [exact Hpn | exact Hin].
      - eapply Permutation_in; [symmetry; exact Hpn | exact Hin]. }
    rewrite Hk, Hkeys, !in_map_iff. unfold periodKeyOf. split.
    + intros (zap & [= Hp] & Hz). eauto.
    + intros (zap & Hp & Hz). exists zap. split; [now f_equal | exact Hz].
  - eapply Permutation_Forall; [symmetry; exact Hperm|].
    apply List.Forall_forall. intros e Hin.
    apply in_map_iff in Hin as ([k v] & <- & Hin). cbn [mk ep_period ep_totalSats ep_zapCount ep_date].
    destruct (Hval k v (in_get_some _ _ _ Hnd Hin)) as (first & rest & Hm & Hv).
    destruct (period_entry rest (period_init api g first)) as (H1 & H2 & H3).
    rewrite <- Hv in H1, H2, H3. rewrite Hm.
    cbn [map length]. rewrite Nat2Z.inj_succ.
    change (sumZ (amount first :: map amount rest))
      with (amount first + sumZ (map amount rest)).
    unfold period_init in H1, H2, H3. cbn [ps_date ps_totalSats ps_zapCount] in H1, H2, H3.
    split; [lia|]. split; [lia|]. split; [lia|]. exists first, rest. auto.
  - apply sort_ascending.
  - rewrite (sumZ_perm _ _ (Permutation_map ep_zapCount Hperm)), map_map.
    pose proof (period_fold_count g zaps JsMap.empty) as Hfold.
    change (sumZ (map ps_zapCount (JsMap.values JsMap.empty))) with 0 in Hfold.
    rewrite Z.add_0_l in Hfold. rewrite <- Hfold. unfold JsMap.values. rewrite map_map.
    f_equal. apply map_ext. now intros [period stats].
Qed.

End PeriodBuckets.

(** ** The entries of the kind grouping *)

Lemma groupZapsByKind_step_loop (m : JsMap.t Z Tally) (zap : ParsedZap) :
  groupZapsByKind_step m zap =
  groupStep contentKindOf (fun zap => tally_add tally_zero (amount zap))
    (fun existing zap => tally_add existing (amount zap)) m zap.
Proof.
  unfold groupZapsByKind_step, groupStep, contentKindOf.
  destruct (zappedEvent zap) as [ze|]; simpl; [|reflexivity].
  now destruct (JsMap.get (ze_kind ze) m).
Qed.

Lemma tally_entry (rest : list ParsedZap) (t : Tally) :
  let t' := fold_left (fun existing zap => tally_add existing (amount zap)) rest t in
  totalSats t' = totalSats t + sumZ (map amount rest) /\
  zapCount t' = zapCount t + Z.of_nat (length rest).
Proof.
  revert t. induction rest as [|zap rest IH]; intros t; cbn [fold_left].
  - simpl. lia.
  - destruct (IH (tally_add t (amount zap))) as (H1 & H2).
    cbv zeta. rewrite H1, H2.
    cbn [map length]. rewrite Nat2Z.inj_succ.
    change (sumZ (amount zap :: map amount rest)) with (amount zap + sumZ (map amount rest)).
    unfold tally_add; cbn [totalSats zapCount]. lia.
Qed.

(** X8. The entries of [groupZapsByKind]: one entry per kind of content
    that some record references; an entry carries the sum of the amounts and
    the number of the records whose content has its kind, and the name of
    the kind from [KIND_NAMES], or the word Kind and the number for a kind
    the table does not list; the entries are in descending order of their
    totals. *)
Theorem kind_entries_group_by_kind (zaps : list ParsedZap) :
  let out := groupZapsByKind zaps in
  List.NoDup (map ek_kind out) /\
  (forall k, In k (map ek_kind out) <-> In (Some k) (map contentKindOf zaps)) /\
  Forall (fun e =>
    let mine := membersOf contentKindOf (ek_kind e) zaps in
    ek_totalSats e = sumZ (map amount mine) /\
    ek_zapCount e = Z.of_nat (length mine) /\
    1 <= ek_zapCount e /\
    ek_kindName e =
      match KIND_NAMES (ek_kind e) with
      | Some name => name
      | None => String.append "Kind " (pretty (ek_kind e))
      end) out /\
  Sorted (fun a b => ek_totalSats b <= ek_totalSats a) out.
Proof.
  intros out. unfold groupZapsByKind in out. cbv zeta in out.
  set (grandTotal := Js.reduce_sum amount zaps) in out.
  set (mk := fun '(kind, stats) =>
               {| ek_kind := kind;
                  ek_kindName := default (String.append "Kind " (pretty kind)) (KIND_NAMES kind);
                  ek_totalSats := totalSats stats;
                  ek_zapCount := zapCount stats;
                  ek_percentage :=
                    if 0 <? grandTotal
                    then F64.mul (F64.div (F64.of_int (totalSats stats))
                                    (F64.of_int grandTotal))
                           (F64.of_int 100)
                    else F64.of_int 0 |}) in out.
  set (m := fold_left groupZapsByKind_step zaps JsMap.empty) in out.
  assert (Hperm : Permutation out (map mk m)) by apply sort_perm.
  assert (Hg : groupedBy contentKindOf (fun zap => tally_add tally_zero (amount zap))
                 (fun existing zap => tally_add existing (amount zap)) m zaps).
  { unfold m.
    rewrite (fold_left_pointwise _ _ zaps JsMap.empty groupZapsByKind_step_loop).
    apply groupFold_grouped. }
  destruct Hg as (Hnd & Hkeys & Hval).
  assert (Hnames : map ek_kind (map mk m) = JsMap.keys m).
  { unfold JsMap.keys. rewrite map_map. apply map_ext. now intros [kind stats]. }
  assert (Hpn : Permutation (map ek_kind out) (JsMap.keys m)).
  { rewrite <- Hnames. now apply Permutation_map. }
  split; [|split; [|split]].
  - eapply Permutation_NoDup; [symmetry; exact Hpn | exact Hnd].
  - intros k. rewrite <- Hkeys. split; intros Hin.
    + eapply Permutation_in; [exact Hpn | exact Hin].
    + eapply Permutation_in; [symmetry; exact Hpn | exact Hin].
  - eapply Permutation_Forall; [symmetry; exact Hperm|].
    apply List.Forall_forall. intros e Hin.
    apply in_map_iff in Hin as ([k v] & <- & Hin).
    cbn [mk ek_kind ek_kindName ek_totalSats ek_zapCount].
    destruct (Hval k v (in_get_some _ _ _ Hnd Hin)) as (first & rest & Hm & Hv).
    destruct (tally_entry rest (tally_add tally_zero (amount first))) as (H1 & H2).
    rewrite <- Hv in H1, H2. rewrite Hm.
    cbn [map length]. rewrite Nat2Z.inj_succ.
    change (sumZ (amount first :: map amount rest))
      with (amount first + sumZ (map amount rest)).
    cbn [tally_add tally_zero totalSats zapCount] in H1, H2.
    split; [lia|]. split; [lia|]. split; [lia|].
    now destruct (KIND_NAMES k).
  - apply sort_descending.
Qed.

(** ** The top loyal zappers *)

Lemma loyalty_actors (zaps : list ParsedZap) :
  let actors := JsMap.values (groupByZapper zaps) in
  List.NoDup (map zi_pubkey actors) /\
  (forall p, In p (map zi_pubkey actors) <-> In p (map zapperOf zaps)) /\
  Forall (fun a =>
    zi_zapCount a = Z.of_nat (length (zapsOf (zi_pubkey a) zaps)) /\
    zi_totalSats a = sumZ (map amount (zapsOf (zi_pubkey a) zaps)) /\
    1 <= zi_zapCount a) actors.
Proof.
  intros actors.
  destruct (groupByZapper_grouped zaps) as (Hnd & Hkeys & Hval).
  assert (Hpub : map zi_pubkey actors = JsMap.keys (groupByZapper zaps)).
  { unfold actors, JsMap.values, JsMap.keys. rewrite map_map.
    apply map_ext_in. intros [p info] Hin. simpl.
    pose proof (in_get_some _ _ _ Hnd Hin) as Hget.
    now destruct (Hval _ _ Hget) as (-> & _). }
  split; [now rewrite Hpub|]. split; [intros p; now rewrite Hpub|].
  apply List.Forall_forall. intros a Hin. unfold actors, JsMap.values in Hin.
  apply in_map_iff in Hin as ([p info] & <- & Hin). simpl.
  pose proof (in_get_some _ _ _ Hnd Hin) as Hget.
  destruct (Hval _ _ Hget) as (-> & _ & Ht & Hc & Hge). auto.
Qed.

Lemma filter_map_swap {A B : Type} (f : A -> B) (p : B -> bool) (l : list A) :
  List.filter p (map f l) = map f (List.filter (fun a => p (f a)) l).
Proof.
  induction l as [|x l IH]; simpl; [reflexivity|].
  destruct (p (f x)); simpl; now rewrite IH.
Qed.

Lemma filter_split_length {A : Type} (p : A -> bool) (l : list A) :
  (length (List.filter p l) + length (List.filter (fun a => negb (p a)) l) = length l)%nat.
Proof.
  induction l as [|x l IH]; simpl; [reflexivity|].
  destruct (p x); simpl; lia.
Qed.

Lemma Sorted_firstn {A : Type} (R : A -> A -> Prop) (n : nat) (l : list A) :
  Sorted R l -> Sorted R (firstn n l).
Proof.
  intros Hs. revert n. induction Hs as [|x l Hl IH Hhd]; intros [|n]; simpl;
    try constructor.
  - apply IH.
  - destruct Hhd as [|y l' Hxy]; destruct n; simpl; constructor. exact Hxy.
Qed.

Lemma StronglySorted_across {A : Type} (R : A -> A -> Prop) (l1 l2 : list A) :
  StronglySorted R (l1 ++ l2) -> forall x y, In x l1 -> In y l2 -> R x y.
Proof.
  induction l1 as [|a l1 IH]; simpl; intros Hs x y Hx Hy; [contradiction|].
  inversion Hs as [|? ? Hrest Hall]; subst. destruct Hx as [<-|Hx].
  - rewrite List.Forall_forall in Hall. apply Hall, in_or_app. now right.
  - now apply IH.
Qed.

Lemma NoDup_firstn {A : Type} (n : nat) (l : list A) :
  List.NoDup l -> List.NoDup (firstn n l).
Proof.
  intros Hnd. rewrite <- (firstn_skipn n l) in Hnd.
  now apply List.NoDup_app_remove_r in Hnd.
Qed.

(** X9. The top loyal zappers of [analyzeZapperLoyalty]: at most ten
    entries, as many as there are returning zappers when these are fewer;
    each entry is a distinct zapper with more than one record, with the
    number and the sum of the amounts of that zapper's records; the entries
    are in descending order of their totals; a returning zapper is left out
    only when the list is full and no entry of it has a smaller total.
    Besides, the new and the returning zappers together are the distinct
    zappers the snapshot counts. *)
Theorem top_loyal_zappers_are_the_best_returning (zaps : list ParsedZap) :
  let stats := analyzeZapperLoyalty zaps in
  let top := topLoyalZappers stats in
  Z.of_nat (length top) = Z.min 10 (returningZappers stats) /\
  List.NoDup (map zl_pubkey top) /\
  Forall (fun z =>
    In (zl_pubkey z) (map zapperOf zaps) /\
    1 < zl_zapCount z /\
    zl_zapCount z = Z.of_nat (length (zapsOf (zl_pubkey z) zaps)) /\
    zl_totalSats z = sumZ (map amount (zapsOf (zl_pubkey z) zaps))) top /\
  Sorted (fun a b => zl_totalSats b <= zl_totalSats a) top /\
  (forall p,
     (1 < length (zapsOf p zaps))%nat -> ~ In p (map zl_pubkey top) ->
     length top = 10%nat /\
     Forall (fun z => sumZ (map amount (zapsOf p zaps)) <= zl_totalSats z) top) /\
  (forall api timeRange customRange,
     newZappers stats + returningZappers stats =
     uniqueZappers (analytics api zaps timeRange customRange)).
Proof.
  intros stats top.
  set (actors := JsMap.values (groupByZapper zaps)).
  destruct (loyalty_actors zaps) as (Hnd & Hin & Hall). fold actors in Hnd, Hin, Hall.
  pose proof (loyalty_count_fold actors
                {| loyaltyAnalysis := []; acc_newZappers := 0;
                   acc_returningZappers := 0; acc_regularSupporters := 0 |})
    as (Hlist & Hnew & Hret & _).
  cbn [loyaltyAnalysis acc_newZappers acc_returningZappers app] in Hlist, Hnew, Hret.
  rewrite Z.add_0_l in Hnew, Hret.
  set (returning := List.filter (fun z => 1 <? zl_zapCount z) (map loyaltyOf actors)).
  set (sorted := Js.sort (fun a b => zl_totalSats b - zl_totalSats a) returning).
  assert (Htop : top = firstn 10 sorted).
  { unfold top, stats, analyzeZapperLoyalty. cbn [topLoyalZappers]. fold actors.
    rewrite Hlist. reflexivity. }
  assert (Hperm : Permutation sorted returning) by apply sort_perm.
  assert (Hreturning : returning =
            map loyaltyOf (List.filter (fun a => 1 <? zi_zapCount a) actors)).
  { unfold returning. rewrite filter_map_swap. reflexivity. }
  assert (Hsame : List.filter (fun a => negb (zi_zapCount a =? 1)) actors =
                  List.filter (fun a => 1 <? zi_zapCount a) actors).
  { clear -Hall. induction Hall as [|a l Ha _ IH]; simpl; [reflexivity|].
    rewrite IH. destruct Ha as (_ & _ & Ha).
    destruct (Z.eqb_spec (zi_zapCount a) 1), (Z.ltb_spec 1 (zi_zapCount a));
      simpl; try reflexivity; lia. }
  assert (Hcount : returningZappers stats = Z.of_nat (length returning)).
  { unfold stats, analyzeZapperLoyalty. cbn [returningZappers]. fold actors.
    rewrite Hret, Hsame, Hreturning, length_map. reflexivity. }
  assert (Hentry : forall z, In z sorted ->
            exists a, In a actors /\ z = loyaltyOf a /\ 1 < zi_zapCount a).
  { intros z Hz. apply (Permutation_in _ Hperm) in Hz. rewrite Hreturning in Hz.
    apply in_map_iff in Hz as (a & <- & Ha). apply filter_In in Ha as [Ha Hc].
    apply Z.ltb_lt in Hc. eauto. }
  assert (Hsub : forall z, In z top -> In z sorted).
  { intros z Hz. rewrite Htop in Hz. rewrite <- (firstn_skipn 10 sorted).
    apply in_or_app. now left. }
  assert (Hss : StronglySorted (fun a b => zl_totalSats b <= zl_totalSats a) sorted).
  { apply Sorted_StronglySorted; [intros x y z Hxy Hyz; lia | apply sort_descending]. }
  split; [|split; [|split; [|split; [|split]]]].
  - rewrite Hcount, Htop, length_firstn, <- (Permutation_length Hperm). lia.
  - rewrite Htop, <- firstn_map. apply NoDup_firstn.
    eapply Permutation_NoDup; [symmetry; apply Permutation_map; exact Hperm|].
    unfold returning. apply nodup_map_filter. rewrite map_map.
    erewrite map_ext; [exact Hnd|]. reflexivity.
  - apply List.Forall_forall. intros z Hz.
    destruct (Hentry z (Hsub z Hz)) as (a & Ha & -> & Hc).
    rewrite List.Forall_forall in Hall. destruct (Hall a Ha) as (Hlen & Hsum & _).
    cbn [loyaltyOf zl_pubkey zl_zapCount zl_totalSats].
    split; [apply Hin; now apply in_map|]. split; [exact Hc|]. split; assumption.
  - rewrite Htop. apply Sorted_firstn, sort_descending.
  - intros p Hmany Hout.
    assert (Hp : In p (map zapperOf zaps)).
    { destruct (zapsOf p zaps) as [|zap rest] eqn:Hz; [simpl in Hmany; lia|].
      assert (Hzap : In zap (zapsOf p zaps)) by (rewrite Hz; now left).
      unfold zapsOf in Hzap. apply filter_In in Hzap as [Hzap Heq].
      apply String.eqb_eq in Heq. apply in_map_iff. exists zap. now split. }
    apply Hin in Hp. apply in_map_iff in Hp as (a & Hpa & Ha).
    rewrite List.Forall_forall in Hall. destruct (Hall a Ha) as (Hlen & Hsum & _).
    rewrite Hpa in Hlen, Hsum.
    assert (Hsorted : In (loyaltyOf a) sorted).
    { apply (Permutation_in _ (Permutation_sym Hperm)). rewrite Hreturning.
      apply in_map, filter_In. split; [exact Ha|]. apply Z.ltb_lt. lia. }
    rewrite <- (firstn_skipn 10 sorted), <- Htop in Hsorted.
    apply in_app_or in Hsorted as [Hintop|Hrest].
    { exfalso. apply Hout. apply in_map_iff. exists (loyaltyOf a). now split. }
    split.
    + rewrite Htop, length_firstn.
      destruct (Nat.le_gt_cases (length sorted) 10) as [Hshort|Hlong]; [|lia].
      rewrite skipn_all2 in Hrest by exact Hshort. contradiction.
    + apply List.Forall_forall. intros z Hz. rewrite <- Hsum.
      change (zi_totalSats a) with (zl_totalSats (loyaltyOf a)).
      rewrite <- (firstn_skipn 10 sorted), <- Htop in Hss.
      exact (StronglySorted_across _ _ _ Hss z (loyaltyOf a) Hz Hrest).
  - intros api timeRange customRange.
    unfold stats, analyzeZapperLoyalty. cbn [newZappers returningZappers]. fold actors.
    rewrite Hnew, Hret. unfold analytics; cbn [uniqueZappers].
    rewrite <- Nat2Z.inj_add, filter_split_length. f_equal.
    rewrite <- (length_map zi_pubkey actors).
    apply size_of_distinct; [exact Hnd | exact Hin].
Qed.

(** ** Hashtags *)

Lemma word_char_lowered (c : ascii) :
  isWordChar c = true -> isTagChar (toLowerChar c) = true.
Proof. destruct c as [[] [] [] [] [] [] [] []]; vm_compute; congruence. Qed.

Lemma toLowerChar_idem (c : ascii) : toLowerChar (toLowerChar c) = toLowerChar c.
Proof. destruct c as [[] [] [] [] [] [] [] []]; reflexivity. Qed.

Lemma isWordChar_lowered (c : ascii) : isWordChar (toLowerChar c) = isWordChar c.
Proof. destruct c as [[] [] [] [] [] [] [] []]; reflexivity. Qed.

Lemma hash_lowered (c : ascii) : Ascii.eqb (toLowerChar c) "#" = Ascii.eqb c "#".
Proof. destruct c as [[] [] [] [] [] [] [] []]; reflexivity. Qed.

Lemma hash_is_no_word_char (c : ascii) : Ascii.eqb c "#" = true -> isWordChar c = false.
Proof. destruct c as [[] [] [] [] [] [] [] []]; vm_compute; congruence. Qed.

Lemma toLowerCase_rev_app (s acc : string) :
  toLowerCase (String.rev_app s acc) = String.rev_app (toLowerCase s) (toLowerCase acc).
Proof.
  revert acc. induction s as [|c s IH]; intros acc; simpl; [reflexivity|].
  now rewrite IH.
Qed.

Lemma toLowerCase_rev (s : string) : toLowerCase (String.rev s) = String.rev (toLowerCase s).
Proof. apply toLowerCase_rev_app. Qed.

Lemma toLowerCase_idem (s : string) : toLowerCase (toLowerCase s) = toLowerCase s.
Proof.
  induction s as [|c s IH]; simpl; [reflexivity|].
  now rewrite toLowerChar_idem, IH.
Qed.

Lemma allChars_rev_app (p : ascii -> bool) (s acc : string) :
  allChars p (String.rev_app s acc) = allChars p s && allChars p acc.
Proof.
  revert acc. induction s as [|c s IH]; intros acc; simpl; [reflexivity|].
  rewrite IH. simpl. destruct (p c), (allChars p s); reflexivity.
Qed.

Lemma allChars_rev (p : ascii -> bool) (s : string) :
  allChars p (String.rev s) = allChars p s.
Proof. unfold String.rev. rewrite allChars_rev_app. simpl. apply andb_true_r. Qed.

Lemma length_rev_app (s acc : string) :
  String.length (String.rev_app s acc) = (String.length s + String.length acc)%nat.
Proof.
  revert acc. induction s as [|c s IH]; intros acc; simpl; [reflexivity|].
  rewrite IH. simpl. lia.
Qed.

Lemma length_toLowerCase (s : string) : String.length (toLowerCase s) = String.length s.
Proof. induction s as [|c s IH]; simpl; [reflexivity | now rewrite IH]. Qed.

Lemma allChars_lowered (s : string) :
  allChars isWordChar s = true -> allChars isTagChar (toLowerCase s) = true.
Proof.
  induction s as [|c s IH]; simpl; [reflexivity|].
  intros H. apply andb_true_iff in H as [Hc Hs].
  now rewrite (word_char_lowered c Hc), IH.
Qed.

Lemma flushTag_hashtag (pending : option string) :
  (forall w, pending = Some w -> allChars isWordChar w = true) ->
  Forall (fun tag => isHashtag tag = true) (flushTag pending).
Proof.
  intros Hw. destruct pending as [[|c rest]|]; simpl; constructor; [|constructor].
  specialize (Hw _ eq_refl).
  assert (Hrev : allChars isTagChar
                   (toLowerCase (String.rev (String c rest))) = true).
  { apply allChars_lowered. now rewrite allChars_rev. }
  change (toLowerChar "#") with "#"%char.
  destruct (toLowerCase (String.rev (String c rest))) as [|c' rest'] eqn:Hlow.
  - exfalso. apply (f_equal String.length) in Hlow. revert Hlow.
    rewrite length_toLowerCase. unfold String.rev. rewrite length_rev_app. simpl. lia.
  - unfold isHashtag. now rewrite Hrev.
Qed.

Lemma scanHashtags_hashtags (text : string) (pending : option string) :
  (forall w, pending = Some w -> allChars isWordChar w = true) ->
  Forall (fun tag => isHashtag tag = true) (scanHashtags pending text).
Proof.
  revert pending. induction text as [|c text IH]; intros pending Hw; cbn [scanHashtags].
  - now apply flushTag_hashtag.
  - assert (Hnext : forall w,
              (if Ascii.eqb c "#" then Some EmptyString else None) = Some w ->
              allChars isWordChar w = true).
    { intros w. destruct (Ascii.eqb c "#"); [intros [= <-]; reflexivity | discriminate]. }
    destruct pending as [w|].
    + destruct (isWordChar c) eqn:Hc.
      * apply IH. intros w' [= <-]. simpl. rewrite Hc. now apply Hw.
      * apply Forall_app. split; [now apply flushTag_hashtag | now apply IH].
    + now apply IH.
Qed.

Lemma scanHashtags_no_hash (text : string) :
  allChars (fun c => negb (Ascii.eqb c "#")) text = true ->
  scanHashtags None text = [].
Proof.
  induction text as [|c text IH]; simpl; [reflexivity|].
  intros H. apply andb_true_iff in H as [Hc Hs].
  apply negb_true_iff in Hc. rewrite Hc. now apply IH.
Qed.

(** X10. Every hashtag [extractHashtags] returns is a [#] followed by one
    character at least, all of them lower-case letters, digits or
    underscores; a text without [#] has no hashtag. *)
Theorem hashtags_are_lower_case_words (text : string) :
  Forall (fun tag => isHashtag tag = true) (extractHashtags text) /\
  (allChars (fun c => negb (Ascii.eqb c "#")) text = true -> extractHashtags text = []).
Proof.
  split.
  - apply scanHashtags_hashtags. discriminate.
  - apply scanHashtags_no_hash.
Qed.

Lemma flushTag_lowered (pending : option string) :
  flushTag (toLowerCase <$> pending) = flushTag pending.
Proof.
  destruct pending as [[|c rest]|]; try reflexivity.
  cbn [fmap option_fmap option_map toLowerCase flushTag]. f_equal. f_equal.
  change (String (toLowerChar c) (toLowerCase rest)) with (toLowerCase (String c rest)).
  now rewrite !toLowerCase_rev, toLowerCase_idem.
Qed.

Lemma scanHashtags_lowered (text : string) (pending : option string) :
  scanHashtags (toLowerCase <$> pending) (toLowerCase text) = scanHashtags pending text.
Proof.
  revert pending. induction text as [|c text IH]; intros pending.
  - apply flushTag_lowered.
  - cbn [toLowerCase scanHashtags]. rewrite isWordChar_lowered, hash_lowered.
    assert (Hnext : scanHashtags (if Ascii.eqb c "#" then Some EmptyString else None)
                      (toLowerCase text) =
                    scanHashtags (if Ascii.eqb c "#" then Some EmptyString else None) text).
    { rewrite <- IH. now destruct (Ascii.eqb c "#"). }
    destruct pending as [w|]; cbn [fmap option_fmap option_map].
    + destruct (isWordChar c).
      * apply (IH (Some (String c w))).
      * rewrite Hnext. f_equal. apply (flushTag_lowered (Some w)).
    + exact Hnext.
Qed.

Lemma scanHashtags_split (a b : string) (pending : option string) :
  scanHashtags pending (String.append a (String "#" b)) =
  scanHashtags pending a ++ scanHashtags None (String "#" b).
Proof.
  remember (scanHashtags None (String "#" b)) as tail eqn:Htail.
  revert pending. induction a as [|c a IH]; intros pending.
  - rewrite Htail. destruct pending as [w|]; reflexivity.
  - change (String.append (String c a) (String "#" b))
      with (String c (String.append a (String "#" b))).
    cbn [scanHashtags]. destruct pending as [w|].
    + destruct (isWordChar c); [apply IH|]. rewrite IH. apply app_assoc.
    + apply IH.
Qed.

(** X11. [extractHashtags] does not depend on the case of the letters of
    the text, and reads the text before a [#] apart from the text from that
    [#] on: the hashtags of the whole are those of the first part followed
    by those of the second. *)
Theorem hashtags_ignore_case_and_split_at_hash (text before rest : string) :
  extractHashtags (toLowerCase text) = extractHashtags text /\
  extractHashtags (String.append before (String "#" rest)) =
  extractHashtags before ++ extractHashtags (String "#" rest).
Proof.
  split.
  - apply (scanHashtags_lowered text None).
  - apply scanHashtags_split.
Qed.





(** ** Truncating a text *)

Lemma length_substring0 (n : nat) (s : string) :
  String.length (substring 0 n s) = Nat.min n (String.length s).
Proof.
  revert s. induction n as [|n IH]; intros [|c s]; simpl; try reflexivity.
  now rewrite IH.
Qed.

Lemma length_append (a b : string) :
  String.length (String.append a b) = (String.length a + String.length b)%nat.
Proof. induction a as [|c a IH]; simpl; [reflexivity | now rewrite IH]. Qed.

Lemma substring0_all (n : nat) (s : string) :
  (String.length s <= n)%nat -> substring 0 n s = s.
Proof.
  revert s. induction n as [|n IH]; intros [|c s] Hlen; simpl in *; try reflexivity.
  - lia.
  - rewrite IH; [reflexivity | lia].
Qed.

Lemma substring0_append (n : nat) (a b : string) :
  (n <= String.length a)%nat ->
  substring 0 n (String.append a b) = substring 0 n a.
Proof.
  revert a. induction n as [|n IH]; intros [|c a] Hlen; simpl in *.
  - now destruct b.
  - reflexivity.
  - lia.
  - rewrite IH; [reflexivity | lia].
Qed.

(** X13. [truncateText] with a limit that is not negative: a text within
    the limit is returned as it is; a longer text is cut to its first
    [maxLength] characters followed by three dots, so the result has
    [maxLength + 3] characters and can be longer than the text it
    shortens. Truncating the result again changes nothing. *)
Theorem truncateText_cuts_to_limit_plus_dots (text : string) (maxLength : Z) :
  0 <= maxLength ->
  let out := truncateText text maxLength in
  (Z.of_nat (String.length text) <= maxLength -> out = text) /\
  (maxLength < Z.of_nat (String.length text) ->
   out = String.append (substring 0 (Z.to_nat maxLength) text) "..." /\
   Z.of_nat (String.length out) = maxLength + 3) /\
  Z.of_nat (String.length out) <= maxLength + 3 /\
  truncateText out maxLength = out.
Proof.
  intros Hmax out.
  assert (Hshort : Z.of_nat (String.length text) <= maxLength -> out = text).
  { intros Hle. unfold out, truncateText.
    destruct (Z.leb_spec (Z.of_nat (String.length text)) maxLength); [reflexivity | lia]. }
  assert (Hlong : maxLength < Z.of_nat (String.length text) ->
            out = String.append (substring 0 (Z.to_nat maxLength) text) "..." /\
            Z.of_nat (String.length out) = maxLength + 3).
  { intros Hlt.
    assert (Hout : out = String.append (substring 0 (Z.to_nat maxLength) text) "...").
    { unfold out, truncateText, slice0.
      destruct (Z.leb_spec (Z.of_nat (String.length text)) maxLength); [lia|].
      destruct (Z.ltb_spec maxLength 0); [lia|].
      now rewrite Z.min_l by lia. }
    split; [exact Hout|].
    rewrite Hout, length_append, length_substring0. simpl. lia. }
  split; [exact Hshort|]. split; [exact Hlong|].
  destruct (Z.le_gt_cases (Z.of_nat (String.length text)) maxLength) as [Hle|Hgt].
  - rewrite (Hshort Hle). split; [lia|]. exact (Hshort Hle).
  - destruct (Hlong ltac:(lia)) as [Hout Hlen]. split; [lia|].
    unfold truncateText at 1, slice0.
    destruct (Z.leb_spec (Z.of_nat (String.length out)) maxLength); [lia|].
    destruct (Z.ltb_spec maxLength 0); [lia|].
    rewrite Z.min_l by lia. rewrite Hout at 1.
    rewrite substring0_append by (rewrite length_substring0; lia).
    rewrite (substring0_all _ (substring 0 (Z.to_nat maxLength) text))
      by (rewrite length_substring0; lia).
    now rewrite Hout.
Qed.

(** X13 on a text of five characters cut to three. *)
Lemma truncateText_witness :
  0 <= 3 /\
  truncateText "hello" 3 = "hel..." /\
  truncateText (truncateText "hello" 3) 3 = truncateText "hello" 3.
Proof.
  split; [lia|]. split; [reflexivity|].
  exact (proj2 (proj2 (proj2
           (truncateText_cuts_to_limit_plus_dots "hello" 3 ltac:(lia))))).
Defined.

(** ** The label of the chart *)

(** X14. The label [getGroupByLabel] puts on the earnings chart names the
    granularity [groupZapsByPeriod] groups by for the same window, with one
    exception: for a custom window whose range is missing the label reads
    period, while the records are grouped by day. *)
Theorem chart_label_names_the_granularity (timeRange : TimeRange)
    (customRange : option CustomDateRange) :
  (getGroupByLabel timeRange customRange =
     groupByName (selectGroupBy timeRange customRange) <->
   ~ (timeRange = RCustom /\ customRange = None)) /\
  (timeRange = RCustom -> customRange = None ->
   getGroupByLabel timeRange customRange = "period" /\
   selectGroupBy timeRange customRange = Day).
Proof.
  split.
  - destruct timeRange, customRange as [cr|]; cbn [getGroupByLabel selectGroupBy];
      try (split; [intros _ [H1 H2]; discriminate | reflexivity]).
    + split; [intros _ [_ H2]; discriminate|]. intros _.
      destruct (_ <=? 2); [reflexivity|].
      destruct (_ <=? 31); [reflexivity|].
      destruct (_ <=? 90); reflexivity.
    + split; [discriminate | intros H; exfalso; apply H; now split].
  - intros -> ->. split; reflexivity.
Qed.

(** ** The requests of the controller *)

Lemma Sorted_filter {A : Type} (R : A -> A -> Prop) (p : A -> bool) (l : list A) :
  (forall x y z, R x y -> R y z -> R x z) ->
  Sorted R l -> Sorted R (List.filter p l).
Proof.
  intros Htrans Hs. apply StronglySorted_Sorted.
  apply Sorted_StronglySorted in Hs; [|exact Htrans].
  induction Hs as [|x l Hl IH Hx]; simpl; [constructor|].
  destruct (p x); [|exact IH]. constructor; [exact IH|].
  rewrite List.Forall_forall in *. intros y Hy. apply Hx.
  now apply filter_In in Hy as [Hy _].
Qed.

Lemma paginationCursor_spec (timeRange : TimeRange) (until : option Z)
    (currentState : ZapLoadingState) (c : Z) :
  paginationCursor timeRange until currentState = Some c ->
  (allReceiptsCache currentState = [] /\ until = Some c) \/
  (exists o, oldestTimestamp (allReceiptsCache currentState) = Some o /\
             c <= o - 1 /\
             (is_custom timeRange && truthy_num until = false -> c = o - 1) /\
             (is_custom timeRange && truthy_num until = true ->
              c = Z.min (o - 1) (default 0 until))).
Proof.
  unfold paginationCursor.
  destruct (oldestTimestamp (allReceiptsCache currentState)) as [o|] eqn:Ho.
  - intros Hc. right. exists o. split; [reflexivity|].
    destruct (is_custom timeRange && truthy_num until); injection Hc as <-;
      (split; [lia|]); split; intros H; try discriminate; reflexivity.
  - intros Hc. left. split; [|exact Hc].
    destruct (allReceiptsCache currentState); [reflexivity | discriminate].
Qed.

Section Requests.

Variable lightningDecode : string -> option (option Z).
Variable query : Filter -> QueryResult.

Lemma loadMoreZaps_request (user : option string) (timeRange : TimeRange)
    (customRange : option CustomDateRange) (clock : Clock)
    (isLoadingRef isAutomatic : bool) (w : World)
    (request : Filter) (w' : World) (next : bool) :
  loadMoreZaps lightningDecode query user timeRange customRange clock
    isLoadingRef isAutomatic w = Fetched request w' next ->
  request =
    buildFilter (default "" user) (batchSizeFor isAutomatic (state w))
      (fst (getDateRange (nowStart clock) timeRange customRange))
      (paginationCursor timeRange
         (snd (getDateRange (nowStart clock) timeRange customRange)) (state w)).
Proof.
  unfold loadMoreZaps.
  destruct (mayFetch user isLoadingRef isAutomatic (state w)); simpl; [|discriminate].
  destruct (getDateRange (nowStart clock) timeRange customRange) as [since until].
  cbn [fst snd]. set (req := buildFilter _ _ _ _).
  destruct (query req) as [events|msg].
  - destruct (onBatchSuccess _ _ _ _ _ _ _ _ _ _) as [st cache].
    now intros [= <- _ _].
  - now intros [= <- _ _].
Qed.

(** X15. The request of a fetch: it asks for zap receipts (kind 9735)
    addressed to the user, from the start of the window when that is
    positive. Its [until] lies strictly below every cached receipt, so a
    relay that honours it returns nothing the cache holds; with an empty
    cache it is the end of the window, for a preset window it is the oldest
    cached time minus one, and for a custom range it never passes the end
    of the range. The request carries no [until] only when the cache is
    empty and the window has no end, or when the oldest cached receipt was
    created at second 1. *)
Theorem request_pages_below_the_cache (user : option string) (timeRange : TimeRange)
    (customRange : option CustomDateRange) (clock : Clock)
    (isLoadingRef isAutomatic : bool) (w : World)
    (request : Filter) (w' : World) (next : bool) :
  loadMoreZaps lightningDecode query user timeRange customRange clock
    isLoadingRef isAutomatic w = Fetched request w' next ->
  let cached := allReceiptsCache (state w) in
  let since := fst (getDateRange (nowStart clock) timeRange customRange) in
  let until := snd (getDateRange (nowStart clock) timeRange customRange) in
  f_kinds request = [9735] /\
  (exists pubkey, user = Some pubkey /\ pubkey <> "" /\ f_p request = [pubkey]) /\
  f_since request = (if 0 <? since then Some since else None) /\
  (forall u, f_until request = Some u ->
     u <> 0 /\
     Forall (fun r => u < ev_created_at r) cached /\
     (cached = [] -> until = Some u) /\
     (forall o, oldestTimestamp cached = Some o -> is_custom timeRange = false ->
                u = o - 1) /\
     (forall t, is_custom timeRange = true -> until = Some t -> t <> 0 -> u <= t)) /\
  (f_until request = None ->
     (cached = [] /\ truthy_num until = false) \/ oldestTimestamp cached = Some 1).
Proof.
  intros Hrun cached since until.
  pose proof (loadMoreZaps_request _ _ _ _ _ _ _ _ _ _ Hrun) as Hreq.
  apply loadMoreZaps_fetched in Hrun as (Hmay & _ & _).
  apply mayFetch_true in Hmay as (Huser & _).
  fold since until in Hreq. fold cached.
  set (cursor := paginationCursor timeRange until (state w)) in Hreq.
  rewrite Hreq. cbn [buildFilter f_kinds f_p f_since f_until].
  split; [reflexivity|]. split; [|split; [reflexivity|split]].
  - destruct user as [pubkey|]; [|discriminate]. exists pubkey.
    split; [reflexivity|]. split; [|reflexivity].
    intros ->. discriminate.
  - intros u Hu.
    destruct (truthy_num cursor) eqn:Htruthy; [|discriminate].
    assert (Hu0 : u <> 0).
    { rewrite Hu in Htruthy. simpl in Htruthy.
      now apply negb_true_iff, Z.eqb_neq in Htruthy. }
    split; [exact Hu0|].
    destruct (paginationCursor_spec timeRange until (state w) u Hu)
      as [[Hempty Huntil]|(o & Ho & Hle & Hpreset & Hcustom)].
    + fold cached in Hempty. rewrite Hempty.
      split; [constructor|]. split; [intros _; exact Huntil|].
      split; [intros o Ho; discriminate|].
      intros t _ Ht _. rewrite Ht in Huntil. injection Huntil as ->. lia.
    + fold cached in Ho. split; [|split; [|split]].
      * apply oldestTimestamp_spec in Ho as [_ Hall].
        eapply List.Forall_impl; [|exact Hall]. intros r Hr. simpl in Hr. lia.
      * intros Hempty. rewrite Hempty in Ho. discriminate.
      * intros o' Ho' Hnot. rewrite Ho in Ho'. injection Ho' as <-.
        apply Hpreset. now rewrite Hnot.
      * intros t Hc Ht Ht0.
        assert (Htr : truthy_num until = true).
        { rewrite Ht. simpl. now apply negb_true_iff, Z.eqb_neq. }
        rewrite (Hcustom ltac:(now rewrite Hc, Htr)), Ht. simpl. lia.
  - intros Hnone.
    destruct (truthy_num cursor) eqn:Htruthy.
    { destruct cursor; [discriminate Hnone | discriminate Htruthy]. }
    unfold cursor, paginationCursor in Htruthy. fold cached in Htruthy.
    destruct (oldestTimestamp cached) as [o|] eqn:Ho.
    + right. f_equal.
      destruct (is_custom timeRange && truthy_num until) eqn:Hc; simpl in Htruthy;
        apply negb_false_iff, Z.eqb_eq in Htruthy.
      * apply andb_true_iff in Hc as [_ Htr].
        destruct until as [t|]; [|discriminate]. simpl in *.
        apply negb_true_iff, Z.eqb_neq in Htr. lia.
      * lia.
    + left. split; [|exact Htruthy].
      destruct cached; [reflexivity | discriminate].
Qed.

End Requests.

(** X15 on the second fetch of the sample window: the cache holds one
    receipt, and the request ends one second before it. *)
Lemma request_witness :
  Honest.secondRun = Fetched Honest.secondRequest Honest.afterSecond false /\
  f_until Honest.secondRequest = Some (Sample.t0 + 17999) /\
  Forall (fun r => Sample.t0 + 17999 < ev_created_at r)
    (allReceiptsCache (state Runs.afterSparse)).
Proof.
  assert (Hrun : loadMoreZaps Sample.decode Honest.relay (Some "alice") R24h None
                   Sample.clock false false Runs.afterSparse
                 = Fetched Honest.secondRequest Honest.afterSecond false) by reflexivity.
  split; [exact Hrun|].
  assert (Huntil : f_until Honest.secondRequest = Some (Sample.t0 + 17999)) by reflexivity.
  split; [exact Huntil|].
  destruct (request_pages_below_the_cache Sample.decode Honest.relay
              (Some "alice") R24h None Sample.clock false false Runs.afterSparse
              Honest.secondRequest Honest.afterSecond false Hrun)
    as (_ & _ & _ & Hbelow & _).
  exact (proj1 (proj2 (Hbelow _ Huntil))).
Defined.

Lemma Sorted_app {A : Type} (R : A -> A -> Prop) (l1 l2 : list A) :
  Sorted R l1 -> Sorted R l2 ->
  (forall x y, In x l1 -> In y l2 -> R x y) ->
  Sorted R (l1 ++ l2).
Proof.
  intros H1 H2 Hcross. induction H1 as [|x l1 Hl IH Hhd]; simpl; [exact H2|].
  constructor.
  - apply IH. intros a b Ha Hb. apply Hcross; [now right | exact Hb].
  - destruct Hhd as [|y l1' Hxy]; simpl.
    + destruct l2 as [|y l2']; constructor. apply Hcross; now left.
    + constructor. exact Hxy.
Qed.

Lemma validate_sorted (lightningDecode : string -> option (option Z))
    (events : list NostrEvent) :
  Sorted (fun a b => newestFirst a b <= 0) (validate lightningDecode events).
Proof. apply sort_sorted. unfold newestFirst. intros x y. lia. Qed.

Lemma validate_in (lightningDecode : string -> option (option Z))
    (events : list NostrEvent) (r : ZapReceipt) :
  In r (validate lightningDecode events) ->
  In r events /\ isValidZapReceipt lightningDecode r = true.
Proof.
  intros Hin. unfold validate in Hin.
  apply (Permutation_in _ (sort_perm _ _)) in Hin. now apply filter_In in Hin.
Qed.

Section Progress.

Variable lightningDecode : string -> option (option Z).
Variable query : Filter -> QueryResult.

(** X16. A fetch through a transport that honours [until], from a cache
    in newest-first order whose oldest receipt was not created at second 1:
    every receipt of the batch is strictly older than every cached one, so
    no cached receipt comes again; the merge puts the batch behind the
    cache, in the state and in the user's entry of the module-level cache;
    and when neither the cache nor the batch is empty, the oldest cached
    time moves strictly down. *)
Theorem honest_relay_extends_the_cache_downwards (user : option string)
    (timeRange : TimeRange) (customRange : option CustomDateRange) (clock : Clock)
    (isLoadingRef isAutomatic : bool) (w : World)
    (request : Filter) (w' : World) (next : bool) (events : list NostrEvent) :
  honoursUntil query ->
  newestFirstSorted (allReceiptsCache (state w)) ->
  oldestTimestamp (allReceiptsCache (state w)) <> Some 1 ->
  loadMoreZaps lightningDecode query user timeRange customRange clock
    isLoadingRef isAutomatic w = Fetched request w' next ->
  query request = Events events ->
  let cached := allReceiptsCache (state w) in
  let batch := validate lightningDecode events in
  Forall (fun b => Forall (fun r => ev_created_at b < ev_created_at r) cached) batch /\
  Forall (fun b => ~ In b cached) batch /\
  allReceiptsCache (state w') = cached ++ batch /\
  userZapCache w' !! default "" user = Some (cached ++ batch) /\
  (cached <> [] -> batch <> [] ->
   exists o o',
     oldestTimestamp cached = Some o /\
     oldestTimestamp (allReceiptsCache (state w')) = Some o' /\
     o' < o).
Proof.
  intros Hhonest Hsorted Hnot1 Hrun Hq cached batch.
  pose proof (loadMoreZaps_request _ _ _ _ _ _ _ _ _ _ _ _ Hrun) as Hreq.
  apply loadMoreZaps_fetched in Hrun as (_ & _ & Hstep). rewrite Hq in Hstep.
  fold cached in Hsorted, Hnot1.
  set (until := snd (getDateRange (nowStart clock) timeRange customRange)) in Hreq.
  assert (Hbelow : Forall (fun b => Forall (fun r => ev_created_at b < ev_created_at r)
                                      cached) batch).
  { destruct (oldestTimestamp cached) as [o|] eqn:Ho.
    - assert (Hcursor : exists c, f_until request = Some c /\ c <= o - 1).
      { rewrite Hreq. cbn [buildFilter f_until].
        unfold paginationCursor. fold cached. rewrite Ho.
        assert (Htruthy : forall c, c <> 0 ->
                  (if truthy_num (Some c) then Some c else None) = Some c).
        { intros c Hc. cbn [truthy_num]. apply Z.eqb_neq in Hc. now rewrite Hc. }
        assert (Ho1 : o <> 1) by congruence.
        destruct (is_custom timeRange && truthy_num until) eqn:Hc.
        - apply andb_true_iff in Hc as [_ Htr].
          destruct until as [t|]; [|discriminate]. simpl in Htr.
          apply negb_true_iff, Z.eqb_neq in Htr. cbn [default].
          exists (Z.min (o - 1) t). split; [apply Htruthy; lia | lia].
        - exists (o - 1). split; [apply Htruthy; lia | lia]. }
      destruct Hcursor as (c & Hc & Hle).
      pose proof (Hhonest request events c Hq Hc) as Hall.
      apply oldestTimestamp_spec in Ho as [_ Hold].
      apply List.Forall_forall. intros b Hb.
      apply validate_in in Hb as [Hb _].
      rewrite List.Forall_forall in Hall. specialize (Hall b Hb). simpl in Hall.
      eapply List.Forall_impl; [|exact Hold]. intros r Hr. simpl in Hr. lia.
    - assert (Hempty : cached = []).
      { destruct cached; [reflexivity | discriminate]. }
      rewrite Hempty. apply List.Forall_forall. intros b _. constructor. }
  assert (Hmerge : mergeReceipts cached batch = cached ++ batch).
  { unfold mergeReceipts. apply sort_sorted_id. apply Sorted_app.
    - eapply Sorted_weaken; [|exact Hsorted]. unfold newestFirst. intros a b Hab.
      simpl in Hab. lia.
    - apply validate_sorted.
    - intros x y Hx Hy. rewrite List.Forall_forall in Hbelow.
      specialize (Hbelow y Hy). rewrite List.Forall_forall in Hbelow.
      specialize (Hbelow x Hx). unfold newestFirst. lia. }
  unfold onBatchSuccess in Hstep.
  destruct (getDateRange (nowUpdate clock) timeRange customRange) as [s u].
  injection Hstep as Hst Hcache.
  assert (Hstate : allReceiptsCache (state w') = cached ++ batch).
  { rewrite Hst. cbn [allReceiptsCache markLoading]. exact Hmerge. }
  split; [exact Hbelow|]. split; [|split; [exact Hstate|split]].
  - apply List.Forall_forall. intros b Hb Hin.
    rewrite List.Forall_forall in Hbelow. specialize (Hbelow b Hb).
    rewrite List.Forall_forall in Hbelow. specialize (Hbelow b Hin). lia.
  - rewrite Hcache. cbn [allReceiptsCache markLoading]. fold cached batch.
    rewrite Hmerge. apply lookup_insert_eq.
  - intros Hcached Hbatch.
    destruct (oldestTimestamp_nonempty cached Hcached) as (o & Ho).
    assert (Hne : allReceiptsCache (state w') <> []).
    { rewrite Hstate. intros H. apply app_eq_nil in H as [H _]. contradiction. }
    destruct (oldestTimestamp_nonempty _ Hne) as (o' & Ho').
    exists o, o'. split; [exact Ho|]. split; [exact Ho'|].
    apply oldestTimestamp_spec in Ho as [Hin _].
    apply oldestTimestamp_spec in Ho' as [_ Hall'].
    destruct batch as [|b rest] eqn:Hb; [contradiction|].
    apply in_map_iff in Hin as (r & <- & Hr).
    rewrite Hstate in Hall'. rewrite List.Forall_forall in Hall'.
    specialize (Hall' b ltac:(apply in_or_app; right; now left)). simpl in Hall'.
    inversion Hbelow as [|? ? Hb0 _]; subst.
    rewrite List.Forall_forall in Hb0. specialize (Hb0 r Hr). lia.
Qed.

End Progress.

Lemma honest_relay_honours_until : honoursUntil Honest.relay.
Proof.
  intros request events u Hq Hu.
  assert (Hgen : forall pool,
            Events (List.filter
                      (fun e => match f_until request with
                                | Some u => ev_created_at e <=? u
                                | None => true
                                end) pool) = Events events ->
            Forall (fun e => ev_created_at e <= u) events).
  { intros pool [= <-]. apply List.Forall_forall. intros e He.
    apply filter_In in He as [_ He]. rewrite Hu in He. now apply Z.leb_le. }
  exact (Hgen _ Hq).
Qed.

(** X16 on the second fetch of the sample window: the two older receipts
    come behind the cached one. *)
Lemma honest_relay_witness :
  honoursUntil Honest.relay /\
  Honest.secondRun = Fetched Honest.secondRequest Honest.afterSecond false /\
  allReceiptsCache (state Honest.afterSecond) =
    [Sample.receipt3; Sample.receipt1; Sample.receipt2].
Proof.
  assert (Hrun : loadMoreZaps Sample.decode Honest.relay (Some "alice") R24h None
                   Sample.clock false false Runs.afterSparse
                 = Fetched Honest.secondRequest Honest.afterSecond false) by reflexivity.
  split; [exact honest_relay_honours_until|]. split; [exact Hrun|].
  assert (Hsorted : newestFirstSorted (allReceiptsCache (state Runs.afterSparse)))
    by (repeat constructor).
  assert (Hnot1 : oldestTimestamp (allReceiptsCache (state Runs.afterSparse)) <> Some 1)
    by (vm_compute; discriminate).
  assert (Hq : Honest.relay Honest.secondRequest =
               Events [Sample.receipt1; Sample.receipt2]) by reflexivity.
  destruct (honest_relay_extends_the_cache_downwards Sample.decode Honest.relay
              (Some "alice") R24h None Sample.clock false false Runs.afterSparse
              Honest.secondRequest Honest.afterSecond false
              [Sample.receipt1; Sample.receipt2]
              honest_relay_honours_until Hsorted Hnot1 Hrun Hq)
    as (_ & _ & Hstate & _).
  exact Hstate.
Defined.

(** ** What every state of the hook satisfies *)

Lemma newestFirst_transitive (x y z : ZapReceipt) :
  ev_created_at y <= ev_created_at x -> ev_created_at z <= ev_created_at y ->
  ev_created_at z <= ev_created_at x.
Proof. lia. Qed.

Lemma filterForRange_kept (timeRange : TimeRange) (since : Z) (until : option Z)
    (l : list ZapReceipt) :
  newestFirstSorted l ->
  Forall (fun r => In r l) (filterForRange timeRange since until l) /\
  newestFirstSorted (filterForRange timeRange since until l).
Proof.
  intros Hs. unfold filterForRange. split.
  - apply List.Forall_forall. intros r Hr. now apply filter_In in Hr as [Hr _].
  - apply Sorted_filter; [|exact Hs]. intros x y z. apply newestFirst_transitive.
Qed.

Section HookFacts.

Variable lightningDecode : string -> option (option Z).
Variable query : Filter -> QueryResult.

Lemma act_wellFormed (w : World) (a : Action) :
  wellFormed lightningDecode w -> wellFormed lightningDecode (act lightningDecode query w a).
Proof.
  intros Hw.
  pose proof Hw as
    (Hlimit & Hfail & Hbatch & Hload & Htotal & Hsub & Hrs & Hcs & Hvalid & Hglobal).
  destruct a as [user timeRange customRange clock isLoadingRef isAutomatic
                |user timeRange customRange nowMs| | |]; cbn [act].
  - destruct (loadMoreZaps lightningDecode query user timeRange customRange clock
                isLoadingRef isAutomatic w) as [|request w' next] eqn:Hrun.
    { exact Hw. }
    apply loadMoreZaps_fetched in Hrun as (_ & _ & Hstep).
    destruct (query request) as [events|msg].
    + unfold onBatchSuccess in Hstep.
      destruct (getDateRange (nowUpdate clock) timeRange customRange) as [s u].
      injection Hstep as Hst Hcache.
      set (batch := validate lightningDecode events) in *.
      set (merged := mergeReceipts (allReceiptsCache (markLoading (state w))) batch) in *.
      assert (Hms : newestFirstSorted merged) by apply mergeReceipts_sorted.
      assert (Hmv : Forall (fun r => isValidZapReceipt lightningDecode r = true) merged).
      { eapply Permutation_Forall; [symmetry; apply mergeReceipts_perm|].
        apply Forall_app. split; [exact Hvalid|].
        apply List.Forall_forall. intros r Hr. now apply validate_in in Hr. }
      destruct (filterForRange_kept timeRange s u merged Hms) as [Hkept Hfs].
      unfold wellFormed. rewrite Hst, Hcache.
      cbn [relayLimit consecutiveFailures currentBatch isLoading totalFetched receipts
           allReceiptsCache markLoading].
      split; [|split; [lia|split; [lia|split; [reflexivity|split; [reflexivity|
        split; [exact Hkept|split; [exact Hfs|split; [exact Hms|split; [exact Hmv|]]]]]]]]].
      * unfold detectLimit.
        destruct ((Z.of_nat (length batch) <? batchSizeFor isAutomatic (state w)) &&
                  (0 <? Z.of_nat (length batch))).
        -- unfold ZAP_FETCH_CONFIG.MIN_BATCH_SIZE. lia.
        -- exact Hlimit.
      * intros pubkey stored Hlook.
        destruct (decide (pubkey = default "" user)) as [->|Hne].
        -- rewrite lookup_insert_eq in Hlook. injection Hlook as <-. now split.
        -- rewrite lookup_insert_ne in Hlook by congruence.
           exact (Hglobal _ _ Hlook).
    + destruct Hstep as [Hst Hcache]. unfold wellFormed. rewrite Hst, Hcache.
      cbn [relayLimit consecutiveFailures currentBatch isLoading totalFetched receipts
           allReceiptsCache markLoading onBatchFailure].
      split; [exact Hlimit|]. split; [lia|]. split; [exact Hbatch|].
      split; [reflexivity|]. split; [exact Htotal|]. split; [exact Hsub|].
      split; [exact Hrs|]. split; [exact Hcs|]. split; [exact Hvalid | exact Hglobal].
  - unfold wellFormed. cbn [state userZapCache]. unfold initFromCache.
    destruct (Js.truthy_str user); cbn [negb].
    2: { exact Hw. }
    destruct (getDateRange nowMs timeRange customRange) as [s u].
    set (userCache := default [] (userZapCache w !! default "" user)).
    assert (Hus : newestFirstSorted userCache /\
                  Forall (fun r => isValidZapReceipt lightningDecode r = true) userCache).
    { unfold userCache. destruct (userZapCache w !! default "" user) as [stored|] eqn:Hl.
      - now apply Hglobal in Hl.
      - split; constructor. }
    destruct Hus as [Hus Huv].
    destruct (filterForRange_kept timeRange s u userCache Hus) as [Hkept Hfs].
    cbn [relayLimit consecutiveFailures currentBatch isLoading totalFetched receipts
         allReceiptsCache].
    split; [exact Hlimit|]. split; [exact Hfail|]. split; [exact Hbatch|].
    split; [exact Hload|]. split; [reflexivity|]. split; [exact Hkept|].
    split; [exact Hfs|]. split; [exact Hus|]. split; [exact Huv | exact Hglobal].
  - unfold wellFormed. cbn [state userZapCache initialState relayLimit consecutiveFailures
      currentBatch isLoading totalFetched receipts allReceiptsCache length].
    split; [exact I|]. split; [lia|]. split; [lia|]. split; [reflexivity|].
    split; [reflexivity|]. split; [constructor|]. split; [constructor|].
    split; [constructor|]. split; [constructor | exact Hglobal].
  - unfold wellFormed. cbn [state userZapCache toggleAutoLoad relayLimit
      consecutiveFailures currentBatch isLoading totalFetched receipts allReceiptsCache].
    exact Hw.
  - unfold wellFormed. cbn [state userZapCache restartAutoLoad relayLimit
      consecutiveFailures currentBatch isLoading totalFetched receipts allReceiptsCache].
    split; [exact Hlimit|]. split; [lia|]. split; [exact Hbatch|].
    split; [exact Hload|]. split; [exact Htotal|]. split; [exact Hsub|].
    split; [exact Hrs|]. split; [exact Hcs|]. split; [exact Hvalid | exact Hglobal].
Qed.

Lemma after_wellFormed (history : list Action) :
  wellFormed lightningDecode (after lightningDecode query history).
Proof.
  unfold after.
  assert (Hgen : forall w, wellFormed lightningDecode w ->
            wellFormed lightningDecode (fold_left (act lightningDecode query) history w)).
  { induction history as [|a history IH]; intros w Hw; cbn [fold_left].
    - exact Hw.
    - apply IH. now apply act_wellFormed. }
  apply Hgen. unfold wellFormed, emptyWorld.
  cbn [state userZapCache initialState relayLimit consecutiveFailures
       currentBatch isLoading totalFetched receipts allReceiptsCache length].
  split; [exact I|]. split; [lia|]. split; [lia|]. split; [reflexivity|].
  split; [reflexivity|]. split; [constructor|]. split; [constructor|].
  split; [constructor|]. split; [constructor|].
  intros pubkey stored Hl. rewrite lookup_empty in Hl. discriminate.
Qed.

(** X17. Whatever the history of the hook - fetches that run to their end,
    changes of window and of user, switches of the automatic loading - from
    a mount with an empty module-level cache: a detected relay limit is at
    least 250, the counters are not negative, the receipts of the window are
    cached receipts and are as many as [totalFetched] says, the window, the
    cache and every entry of the module-level cache are in newest-first
    order and hold valid receipts only; and the next fetch asks for at
    least 250 and at most 2000 receipts. *)
Theorem hook_states_stay_well_formed (history : list Action) :
  let w := after lightningDecode query history in
  wellFormed lightningDecode w /\
  forall user timeRange customRange clock isLoadingRef isAutomatic request w' next,
    loadMoreZaps lightningDecode query user timeRange customRange clock
      isLoadingRef isAutomatic w = Fetched request w' next ->
    250 <= f_limit request <= 2000.
Proof.
  intros w. pose proof (after_wellFormed history) as Hw. fold w in Hw.
  split; [exact Hw|].
  intros user timeRange customRange clock isLoadingRef isAutomatic request w' next Hrun.
  apply loadMoreZaps_fetched in Hrun as (_ & Hlimit & _).
  rewrite Hlimit, batchSizeFor_spec.
  destruct Hw as (Hrelay & _).
  destruct (relayLimit (state w)) as [limit|].
  - destruct (Z.eqb_spec limit 0); [lia|]. lia.
  - destruct (isAutomatic && (0 <? currentBatch (state w))); lia.
Qed.

End HookFacts.

(** ** The switches of the automatic loading *)

Section Switches.

Variable lightningDecode : string -> option (option Z).
Variable query : Filter -> QueryResult.

Lemma loadMoreZaps_fetches (user : option string) (timeRange : TimeRange)
    (customRange : option CustomDateRange) (clock : Clock)
    (isLoadingRef isAutomatic : bool) (w : World) :
  mayFetch user isLoadingRef isAutomatic (state w) = true ->
  exists request w' next,
    loadMoreZaps lightningDecode query user timeRange customRange clock
      isLoadingRef isAutomatic w = Fetched request w' next.
Proof.
  intros Hmay. unfold loadMoreZaps. rewrite Hmay. cbn [negb].
  destruct (getDateRange (nowStart clock) timeRange customRange) as [since until].
  set (req := buildFilter _ _ _ _).
  destruct (query req) as [events|msg].
  - destruct (onBatchSuccess _ _ _ _ _ _ _ _ _ _) as [st cache]. eauto.
  - eauto.
Qed.



(** X19. The extension effect schedules an automatic call only for a
    signed-in user whose window shows receipts, is not complete and is not
    loading, with the automatic loading on and the oldest cached time (0
    for an empty cache) more than the one-hour tolerance after the start of
    the window; the
    call it schedules fetches when it finds this state, with no fetch in
    flight and fewer than three failures counted. *)
Theorem extension_effect_schedules_a_fetch (user : option string)
    (timeRange : TimeRange) (customRange : option CustomDateRange) (nowMs : Z)
    (clock : Clock) (w : World) :
  needsExtendedData user timeRange customRange nowMs (state w) = true ->
  let since := fst (getDateRange nowMs timeRange customRange) in
  Js.truthy_str user = true /\
  receipts (state w) <> [] /\
  isComplete (state w) = false /\
  isLoading (state w) = false /\
  autoLoadEnabled (state w) = true /\
  since + 3600 < default 0 (oldestTimestamp (allReceiptsCache (state w))) /\
  (consecutiveFailures (state w) < 3 ->
   exists request w' next,
     loadMoreZaps lightningDecode query user timeRange customRange clock
       false true w = Fetched request w' next).
Proof.
  intros Hneeds since. unfold needsExtendedData in Hneeds. fold since in Hneeds.
  destruct (Js.truthy_str user) eqn:Huser; [|discriminate]. cbn [negb] in Hneeds.
  destruct (is_custom timeRange && _); [discriminate|].
  repeat (apply andb_true_iff in Hneeds as [Hneeds ?]).
  match goal with H : autoLoadEnabled _ = true |- _ => rename H into Hauto end.
  match goal with H : negb (isComplete _) = true |- _ =>
    apply negb_true_iff in H; rename H into Hcomplete end.
  match goal with H : negb (isLoading _) = true |- _ =>
    apply negb_true_iff in H; rename H into Hloading end.
  match goal with H : negb (_ <=? _) = true |- _ =>
    apply negb_true_iff, Z.leb_gt in H; rename H into Htol end.
  match goal with H : (since <? _) = true |- _ =>
    apply Z.ltb_lt in H; rename H into Hgap end.
  apply Z.ltb_lt in Hneeds.
  split; [reflexivity|]. split.
  { intros Hnil. rewrite Hnil in Hneeds. simpl in Hneeds. lia. }
  split; [exact Hcomplete|]. split; [exact Hloading|]. split; [exact Hauto|]. split.
  - unfold BOUNDARY_TOLERANCE_SECONDS in Htol. exact Htol.
  - intros Hfail. apply loadMoreZaps_fetches. apply mayFetch_true.
    split; [exact Huser|]. split; [reflexivity|]. split; [exact Hcomplete|].
    intros _. split; [exact Hauto|].
    unfold ZAP_FETCH_CONFIG.MAX_CONSECUTIVE_FAILURES. exact Hfail.
Qed.

End Switches.


(** X19 after the sparse fetch of the sample: the oldest cached receipt
    lies five hours after the start of the window. *)
Lemma extension_witness :
  needsExtendedData (Some "alice") R24h None (nowStart Sample.clock)
    (state Runs.afterSparse) = true /\
  exists request w' next,
    loadMoreZaps Sample.decode Honest.relay (Some "alice") R24h None Sample.clock
      false true Runs.afterSparse = Fetched request w' next.
Proof.
  assert (Hneeds : needsExtendedData (Some "alice") R24h None (nowStart Sample.clock)
                     (state Runs.afterSparse) = true) by reflexivity.
  split; [exact Hneeds|].
  apply (extension_effect_schedules_a_fetch Sample.decode Honest.relay
           (Some "alice") R24h None (nowStart Sample.clock) Sample.clock
           Runs.afterSparse Hneeds).
  vm_compute. reflexivity.
Defined.

(** ** Enrichment *)

Section GroupRelated.
Context {A K V W : Type} `{EqDecision K}.
Variable key : A -> option K.
Variable init : A -> V.
Variable upd : V -> A -> V.
Variable f : A -> A.
Variable proj : V -> W.
Hypothesis key_f : forall a, key (f a) = key a.
Hypothesis init_f : forall a, proj (init (f a)) = proj (init a).
Hypothesis upd_f : forall v v' a, proj v = proj v' -> proj (upd v (f a)) = proj (upd v' a).

Lemma groupStep_related (m m' : JsMap.t K V) (a : A) :
  mapValues proj m = mapValues proj m' ->
  mapValues proj (groupStep key init upd m (f a)) =
  mapValues proj (groupStep key init upd m' a).
Proof.
  intros Hm. unfold groupStep. rewrite key_f.
  destruct (key a) as [k|]; [|exact Hm].
  pose proof (get_mapValues proj k m) as Hg. rewrite Hm, get_mapValues in Hg.
  destruct (JsMap.get k m) as [v|], (JsMap.get k m') as [v'|]; try discriminate.
  - injection Hg as Hv. rewrite <- !set_mapValues, Hm. f_equal. apply upd_f. now symmetry.
  - rewrite <- !set_mapValues, Hm. f_equal. apply init_f.
Qed.

Lemma groupFold_related (l : list A) (m m' : JsMap.t K V) :
  mapValues proj m = mapValues proj m' ->
  mapValues proj (fold_left (groupStep key init upd) (map f l) m) =
  mapValues proj (fold_left (groupStep key init upd) l m').
Proof.
  revert m m'. induction l as [|a l IH]; intros m m' Hm; cbn [map fold_left].
  - exact Hm.
  - apply IH. now apply groupStep_related.
Qed.

End GroupRelated.

Section Enrichment.

Variable contentMap : JsMap.t string NostrEvent.
Variable profileMap : JsMap.t string (option Profile).

Lemma enrichZap_zapper (zap : ParsedZap) :
  zapperOf (enrichZap contentMap profileMap zap) = zapperOf zap.
Proof.
  unfold zapperOf, enrichZap. cbn [zapper].
  now destruct (JsMap.get (zp_pubkey (zapper zap)) profileMap) as [[profile|]|].
Qed.

Lemma enrichZap_content (zap : ParsedZap) :
  contentIdOf (enrichZap contentMap profileMap zap) = contentIdOf zap.
Proof.
  unfold contentIdOf, enrichZap. cbn [zappedEvent].
  destruct (zappedEvent zap) as [ze|]; [|reflexivity].
  now destruct (JsMap.get (ze_id ze) contentMap).
Qed.

Lemma fold_enriched {B : Type} (step : B -> ParsedZap -> B) (zaps : list ParsedZap) (b : B) :
  (forall x zap, step x (enrichZap contentMap profileMap zap) = step x zap) ->
  fold_left step (map (enrichZap contentMap profileMap) zaps) b = fold_left step zaps b.
Proof.
  intros Hstep. revert b. induction zaps as [|zap zaps IH]; intros b; cbn [map fold_left].
  - reflexivity.
  - now rewrite Hstep, IH.
Qed.

(** X1. The enrichment with content and profiles changes no figure of the
    analysis that is computed from amounts, times and keys: the grand
    total, the number of zaps and of distinct zappers, the period, hour and
    weekday groupings are those of the parsed records, and the rankings of
    zappers and of content keep their entries, their order, their totals
    and their counts. *)
Theorem enrichment_keeps_the_figures (api : DateApi) (zaps : list ParsedZap)
    (timeRange : TimeRange) (customRange : option CustomDateRange) :
  let enriched := map (enrichZap contentMap profileMap) zaps in
  let before := analytics api zaps timeRange customRange in
  let after := analytics api enriched timeRange customRange in
  map receipt enriched = map receipt zaps /\
  totalEarnings after = totalEarnings before /\
  totalZaps after = totalZaps before /\
  uniqueZappers after = uniqueZappers before /\
  earningsByPeriod after = earningsByPeriod before /\
  earningsByHour after = earningsByHour before /\
  earningsByDayOfWeek after = earningsByDayOfWeek before /\
  map zs_figures (getTopZappers enriched) = map zs_figures (getTopZappers zaps) /\
  map ec_figures (groupZapsByContent enriched) = map ec_figures (groupZapsByContent zaps).
Proof.
  intros enriched before after.
  unfold before, after, analytics.
  cbn [totalEarnings totalZaps uniqueZappers earningsByPeriod earningsByHour
       earningsByDayOfWeek].
  split; [|split; [|split; [|split; [|split; [|split; [|split; [|split]]]]]]].
  - unfold enriched. rewrite map_map. reflexivity.
  - unfold Js.reduce_sum, enriched. apply fold_enriched. reflexivity.
  - unfold enriched. now rewrite length_map.
  - unfold enriched. rewrite map_map. do 3 f_equal.
    apply map_ext. intros zap. apply enrichZap_zapper.
  - unfold groupZapsByPeriod, groupZapsBy, enriched.
    rewrite fold_enriched; reflexivity.
  - unfold groupZapsByHour, enriched. rewrite fold_enriched; reflexivity.
  - unfold groupZapsByDayOfWeek, enriched. rewrite fold_enriched; reflexivity.
  - unfold getTopZappers.
    rewrite !(sort_map zs_figures _
                (fun a b => snd (fst b) - snd (fst a))) by reflexivity.
    f_equal. rewrite <- !values_mapValues. f_equal.
    rewrite !(fold_left_pointwise _ _ _ JsMap.empty getTopZappers_step_loop).
    apply (groupFold_related (fun zap => Some (zapperOf zap)) zapper_init zapper_upd
             (enrichZap contentMap profileMap) zs_figures).
    + intros zap. now rewrite enrichZap_zapper.
    + intros zap. unfold zs_figures, zapper_init. cbn. f_equal. f_equal.
      apply enrichZap_zapper.
    + intros v v' zap [= H1 H2 H3]. unfold zs_figures, zapper_upd. cbn.
      now rewrite H1, H2, H3.
    + reflexivity.
  - unfold groupZapsByContent.
    rewrite !(sort_map ec_figures _
                (fun a b => snd (fst b) - snd (fst a))) by reflexivity.
    f_equal. rewrite <- !values_mapValues. f_equal.
    rewrite !(fold_left_pointwise _ _ _ JsMap.empty groupZapsByContent_step_loop).
    apply (groupFold_related contentIdOf content_init content_upd
             (enrichZap contentMap profileMap) ec_figures).
    + apply enrichZap_content.
    + intros zap. unfold ec_figures, content_init. cbn [ec_eventId ec_totalSats ec_zapCount].
      f_equal. f_equal. unfold targetOf, enrichZap. cbn [zappedEvent].
      destruct (zappedEvent zap) as [ze|]; [|reflexivity].
      now destruct (JsMap.get (ze_id ze) contentMap).
    + intros v v' zap [= H1 H2 H3]. unfold ec_figures, content_upd. cbn.
      now rewrite H1, H2, H3.
    + reflexivity.
Qed.

End Enrichment.

(** ** From the hook to the analysis *)

Section Pipeline.

Variable lightningDecode : string -> option (option Z).
Variable jsonParseZapRequest : string -> option ZapRequest.
Variable query : Filter -> QueryResult.

Lemma parsedZapsOf_valid (l : list ZapReceipt) :
  Forall (fun r => isValidZapReceipt lightningDecode r = true) l ->
  map receipt (parsedZapsOf lightningDecode jsonParseZapRequest l) = l /\
  Forall (fun zap => 0 < amount zap) (parsedZapsOf lightningDecode jsonParseZapRequest l).
Proof.
  unfold parsedZapsOf. induction 1 as [|r l Hr _ [IHmap IHpos]]; cbn [omap list_omap].
  - split; [reflexivity | constructor].
  - apply isValidZapReceipt_spec in Hr as (_ & bolt11 & Hb & Hpos).
    destruct (parseZapReceipt_some lightningDecode jsonParseZapRequest r bolt11 Hb
                ltac:(lia)) as (zap & Hzap & Hamount & Hreceipt).
    rewrite Hzap. cbn [map]. split.
    + now rewrite Hreceipt, IHmap.
    + constructor; [lia | exact IHpos].
Qed.

(** X20. Whatever the history of the hook, the analysis loses no receipt
    of the window: each one parses, with a positive amount, so the parsed
    records are the receipts of the window in their order, and the number of
    zaps the analysis reports after the enrichment is the [totalFetched] of
    the loading state. *)
Theorem every_receipt_of_the_window_is_analysed (history : list Action)
    (contentMap : JsMap.t string NostrEvent)
    (profileMap : JsMap.t string (option Profile))
    (api : DateApi) (timeRange : TimeRange) (customRange : option CustomDateRange) :
  let w := after lightningDecode query history in
  let parsedZaps := parsedZapsOf lightningDecode jsonParseZapRequest (receipts (state w)) in
  let snapshot :=
    analytics api (map (enrichZap contentMap profileMap) parsedZaps) timeRange customRange in
  map receipt parsedZaps = receipts (state w) /\
  Forall (fun zap => 0 < amount zap) parsedZaps /\
  totalZaps snapshot = totalFetched (state w) /\
  (parsedZaps <> [] -> 0 < totalEarnings snapshot).
Proof.
  intros w parsedZaps snapshot.
  destruct (after_wellFormed lightningDecode query history)
    as (_ & _ & _ & _ & Htotal & Hsub & _ & _ & Hvalid & _).
  fold w in Htotal, Hsub, Hvalid.
  assert (Hrv : Forall (fun r => isValidZapReceipt lightningDecode r = true)
                  (receipts (state w))).
  { rewrite List.Forall_forall in *. intros r Hr. apply Hvalid, Hsub, Hr. }
  destruct (parsedZapsOf_valid _ Hrv) as [Hmap Hpos]. fold parsedZaps in Hmap, Hpos.
  split; [exact Hmap|]. split; [exact Hpos|]. split.
  - unfold snapshot, analytics. cbn [totalZaps].
    rewrite length_map, Htotal, <- Hmap, length_map. reflexivity.
  - intros Hne. unfold snapshot, analytics. cbn [totalEarnings].
    unfold Js.reduce_sum. rewrite fold_enriched by reflexivity.
    change (fold_left (fun sum x => sum + amount x) parsedZaps 0)
      with (Js.reduce_sum amount parsedZaps).
    rewrite reduce_sum_sumZ.
    destruct Hpos as [|zap rest Hzap Hrest]; [contradiction|].
    cbn [map]. change (sumZ (amount zap :: map amount rest))
      with (amount zap + sumZ (map amount rest)).
    assert (0 <= sumZ (map amount rest)).
    { clear -Hrest. induction Hrest as [|x l Hx _ IH]; simpl; lia. }
    lia.
Qed.

End Pipeline.

(** ** Fetching the zapped content *)

Lemma chunksFrom_spec {A : Type} (chunkSize : nat) (fuel : nat) (l : list A) :
  (0 < chunkSize)%nat -> (length l <= fuel)%nat ->
  concat (chunksFrom fuel chunkSize l) = l /\
  Forall (fun chunk => (1 <= length chunk <= chunkSize)%nat) (chunksFrom fuel chunkSize l) /\
  (length l <= length (chunksFrom fuel chunkSize l) * chunkSize
   < length l + chunkSize)%nat.
Proof.
  intros Hsize. revert l. induction fuel as [|fuel IH]; intros l Hlen.
  - destruct l; [|simpl in Hlen; lia]. simpl. split; [reflexivity|].
    split; [constructor | lia].
  - destruct l as [|x l]; [simpl; split; [reflexivity|]; split; [constructor | lia]|].
    cbn [chunksFrom].
    assert (Hskip : (length (skipn chunkSize (x :: l)) <= fuel)%nat).
    { rewrite length_skipn. simpl in *. lia. }
    destruct (IH _ Hskip) as (Hcat & Hall & Hcount).
    cbn [concat]. rewrite Hcat, firstn_skipn. split; [reflexivity|]. split.
    + constructor; [|exact Hall]. rewrite length_firstn. simpl. lia.
    + cbn [length]. rewrite length_skipn in Hcount. cbn [length] in Hcount, Hlen.
      destruct (length (chunksFrom fuel chunkSize (skipn chunkSize (x :: l)))) as [|n];
        [lia|].
      assert (chunkSize <= S n * chunkSize)%nat by (simpl; lia).
      replace (S (S n) * chunkSize)%nat with (chunkSize + S n * chunkSize)%nat by lia.
      lia.
Qed.

Lemma splitCached_fold (cache : gmap string NostrEvent) (eventIds : list string)
    (m : JsMap.t string NostrEvent) (u : list string) :
  let r := fold_left (splitCached cache) eventIds (m, u) in
  snd r = u ++ List.filter (fun id => bool_decide (cache !! id = None)) eventIds /\
  (forall id e, JsMap.get id (fst r) = Some e ->
     JsMap.get id m = Some e \/ cache !! id = Some e) /\
  (forall id, is_Some (JsMap.get id m) \/ (In id eventIds /\ is_Some (cache !! id)) ->
     is_Some (JsMap.get id (fst r))).
Proof.
  revert m u. induction eventIds as [|x ids IH]; intros m u; cbn [fold_left].
  - cbn. rewrite app_nil_r. split; [reflexivity|]. split; [auto|].
    intros id [H|[[] _]]. exact H.
  - destruct (IH (fst (splitCached cache (m, u) x)) (snd (splitCached cache (m, u) x)))
      as (Hu & Hget & Hhas).
    rewrite <- surjective_pairing in Hu, Hget, Hhas.
    cbv zeta. unfold splitCached in *. cbn [fst snd] in *.
    destruct (cache !! x) as [event|] eqn:Hx; cbn [fst snd] in *.
    + split; [|split].
      * rewrite Hu. cbn [List.filter]. rewrite Hx.
        rewrite bool_decide_eq_false_2 by discriminate. reflexivity.
      * intros id e Hid. destruct (Hget id e Hid) as [Hm|Hc]; [|now right].
        destruct (decide (x = id)) as [->|Hne].
        -- rewrite get_set_eq in Hm. injection Hm as <-. now right.
        -- rewrite get_set_ne in Hm by exact Hne. now left.
      * intros id Hid. apply Hhas.
        destruct (decide (x = id)) as [->|Hne].
        -- left. rewrite get_set_eq. eauto.
        -- rewrite get_set_ne by exact Hne.
           destruct Hid as [Hm|[[Heq|Hin] Hc]]; [now left | contradiction | now right].
    + split; [|split].
      * rewrite Hu. cbn [List.filter]. rewrite Hx.
        rewrite bool_decide_eq_true_2 by reflexivity. now rewrite <- app_assoc.
      * exact Hget.
      * intros id Hid. apply Hhas.
        destruct Hid as [Hm|[[Heq|Hin] Hc]]; [now left | | now right].
        subst id. rewrite Hx in Hc. now destruct Hc.
Qed.

Lemma store_events_fold (allEvents : list NostrEvent)
    (m : JsMap.t string NostrEvent) (c : gmap string NostrEvent) :
  let m' := fold_left (fun m event => JsMap.set (ev_id event) event m) allEvents m in
  let c' := fold_left (fun c event => <[ev_id event := event]> c) allEvents c in
  (forall id e, JsMap.get id m = Some e -> c !! id = Some e) ->
  (forall id e, JsMap.get id m' = Some e -> c' !! id = Some e) /\
  (forall id, is_Some (JsMap.get id m) -> is_Some (JsMap.get id m')) /\
  (forall id, is_Some (c !! id) -> is_Some (c' !! id)) /\
  Forall (fun event => JsMap.get (ev_id event) m' <> None) allEvents.
Proof.
  revert m c. induction allEvents as [|event rest IH]; intros m c; cbn [fold_left].
  - cbv zeta. intros Hinv. split; [exact Hinv|]. split; [auto|]. split; [auto | constructor].
  - cbv zeta. intros Hinv.
    destruct (IH (JsMap.set (ev_id event) event m) (<[ev_id event := event]> c))
      as (H1 & H2 & H3 & H4).
    { intros id e. destruct (decide (ev_id event = id)) as [<-|Hne].
      - rewrite get_set_eq, lookup_insert_eq. auto.
      - rewrite get_set_ne by exact Hne. rewrite lookup_insert_ne by exact Hne.
        apply Hinv. }
    split; [exact H1|]. split; [|split].
    + intros id Hid. apply H2. destruct (decide (ev_id event = id)) as [<-|Hne].
      * rewrite get_set_eq. eauto.
      * now rewrite get_set_ne by exact Hne.
    + intros id Hid. apply H3. destruct (decide (ev_id event = id)) as [<-|Hne].
      * rewrite lookup_insert_eq. eauto.
      * now rewrite lookup_insert_ne by exact Hne.
    + constructor; [|exact H4].
      assert (Hs : is_Some (JsMap.get (ev_id event)
                              (fold_left (fun m e => JsMap.set (ev_id e) e m) rest
                                 (JsMap.set (ev_id event) event m)))).
      { apply H2. rewrite get_set_eq. eauto. }
      destruct Hs as [e He]. rewrite He. discriminate.
Qed.

(** X21. The fetch of the zapped content: it asks the relays for the ids
    that the module-level cache does not hold, and for no other - as often
    as an id occurs among the receipts - in chunks of 1 to 150 ids, as few as
    hold them all. What it returns it leaves in the cache: every event of
    the result is the cache's event for its id afterwards; no id leaves the
    cache; every id of the input that was cached is in the result; and
    every event a relay returned is in the result under its own id, asked
    for or not. *)
Theorem content_fetch_asks_only_for_uncached_ids
    (queryIds : list string -> QueryResult) (cache : gmap string NostrEvent)
    (eventIds : list string) :
  let out := fetchContent queryIds cache eventIds in
  let uncached := List.filter (fun id => bool_decide (cache !! id = None)) eventIds in
  concat (requestedChunks out) = uncached /\
  Forall (fun chunk => (1 <= length chunk <= 150)%nat) (requestedChunks out) /\
  (length uncached <= length (requestedChunks out) * 150 < length uncached + 150)%nat /\
  (forall id e, JsMap.get id (eventMap out) = Some e ->
                contentEventCache out !! id = Some e) /\
  (forall id, is_Some (cache !! id) -> is_Some (contentEventCache out !! id)) /\
  (forall id, In id eventIds -> is_Some (cache !! id) ->
              is_Some (JsMap.get id (eventMap out))) /\
  Forall (fun event => JsMap.get (ev_id event) (eventMap out) <> None)
    (concat (map (processChunk queryIds) (requestedChunks out))).
Proof.
  intros out uncached. unfold out, fetchContent.
  pose proof (splitCached_fold cache eventIds JsMap.empty []) as (Hu & Hget & Hhas).
  destruct (fold_left (splitCached cache) eventIds (JsMap.empty, []))
    as [cachedMap uncachedEventIds].
  cbn [fst snd app] in Hu, Hget, Hhas. fold uncached in Hu.
  assert (Hbase : forall id e, JsMap.get id cachedMap = Some e -> cache !! id = Some e).
  { intros id e Hid. destruct (Hget id e Hid) as [H|H]; [discriminate | exact H]. }
  destruct uncachedEventIds as [|x rest] eqn:Hun.
  - cbn [requestedChunks eventMap contentEventCache concat map]. rewrite <- Hu.
    split; [reflexivity|]. split; [constructor|]. split; [simpl; lia|].
    split; [exact Hbase|]. split; [auto|]. split; [|constructor].
    intros id Hin Hc. apply Hhas. right. now split.
  - rewrite <- Hun in *. clear Hun.
    cbn [requestedChunks eventMap contentEventCache].
    destruct (chunksFrom_spec 150 (length uncachedEventIds) uncachedEventIds
                ltac:(lia) ltac:(lia)) as (Hcat & Hall & Hcount).
    fold (chunksOf 150 uncachedEventIds) in Hcat, Hall, Hcount.
    destruct (store_events_fold
                (concat (map (processChunk queryIds) (chunksOf 150 uncachedEventIds)))
                cachedMap cache Hbase) as (H1 & H2 & H3 & H4).
    rewrite <- Hu.
    split; [exact Hcat|]. split; [exact Hall|]. split; [exact Hcount|].
    split; [exact H1|]. split; [exact H3|]. split; [|exact H4].
    intros id Hin Hc. apply H2, Hhas. right. now split.
Qed.

(** ** A change of window *)

Lemma filter_filter_implied {A : Type} (p q : A -> bool) (l : list A) :
  (forall x, p x = true -> q x = true) ->
  List.filter p (List.filter q l) = List.filter p l.
Proof.
  intros Hpq. induction l as [|x l IH]; simpl; [reflexivity|].
  destruct (q x) eqn:Hq; simpl.
  - now rewrite IH.
  - rewrite IH. destruct (p x) eqn:Hp; [|reflexivity].
    rewrite (Hpq x Hp) in Hq. discriminate.
Qed.

(** X22. What the window effect shows for a signed-in user: the user's
    entry of the module-level cache, projected on the window, whatever the
    state showed before - after several changes of window only the last one
    counts. The window is marked complete exactly when that entry is not
    empty and its oldest receipt is not younger than the start of the window
    (without tolerance), and then no call of [loadMoreZaps] fetches. The
    receipts of a preset window are those of any wider preset window read at
    the same time, projected on the narrower one. *)
Theorem window_change_shows_the_cache (pubkey : string) (timeRange : TimeRange)
    (customRange : option CustomDateRange) (nowMs : Z)
    (cache : gmap string (list ZapReceipt)) (prev : ZapLoadingState) :
  pubkey <> "" ->
  let user := Some pubkey in
  let st := initFromCache user timeRange customRange nowMs cache prev in
  let stored := default [] (cache !! pubkey) in
  let since := fst (getDateRange nowMs timeRange customRange) in
  let until := snd (getDateRange nowMs timeRange customRange) in
  allReceiptsCache st = stored /\
  receipts st = filterForRange timeRange since until stored /\
  totalFetched st = Z.of_nat (length (receipts st)) /\
  (isComplete st = true <->
   exists oldest, oldestTimestamp stored = Some oldest /\ oldest <= since) /\
  (forall timeRange' customRange' nowMs',
     initFromCache user timeRange customRange nowMs cache
       (initFromCache user timeRange' customRange' nowMs' cache prev) = st) /\
  (isComplete st = true ->
   forall lightningDecode query clock isLoadingRef isAutomatic store,
     loadMoreZaps lightningDecode query user timeRange customRange clock
       isLoadingRef isAutomatic {| state := st; userZapCache := store |} = Skipped) /\
  (forall wider customRange' d d',
     days (TIME_RANGES timeRange) = Some d ->
     days (TIME_RANGES wider) = Some d' -> d <= d' ->
     receipts st =
     filterForRange timeRange since until
       (receipts (initFromCache user wider customRange' nowMs cache prev))).
Proof.
  intros Hkey user st stored since until.
  assert (Huser : Js.truthy_str user = true).
  { cbn. apply negb_true_iff. now apply String.eqb_neq. }
  assert (Hinit : forall tr cr now p,
            initFromCache user tr cr now cache p =
            {| receipts := filterForRange tr (fst (getDateRange now tr cr))
                             (snd (getDateRange now tr cr)) stored;
               isLoading := isLoading p;
               isComplete := (0 <? Z.of_nat (length stored)) &&
                             (default 0 (oldestTimestamp stored)
                              <=? fst (getDateRange now tr cr));
               currentBatch := currentBatch p;
               totalFetched :=
                 Z.of_nat (length (filterForRange tr (fst (getDateRange now tr cr))
                                     (snd (getDateRange now tr cr)) stored));
               relayLimit := relayLimit p;
               error := None;
               autoLoadEnabled := autoLoadEnabled p;
               consecutiveFailures := consecutiveFailures p;
               allReceiptsCache := stored |}).
  { intros tr cr now p. unfold initFromCache. rewrite Huser. cbn [negb].
    now destruct (getDateRange now tr cr). }
  unfold st. rewrite !Hinit. fold since until.
  cbn [allReceiptsCache receipts totalFetched isComplete].
  split; [reflexivity|]. split; [reflexivity|]. split; [reflexivity|].
  split; [|split; [|split]].
  - rewrite andb_true_iff, Z.ltb_lt, Z.leb_le. split.
    + intros [Hlen Hold]. destruct stored as [|r rest] eqn:Hs; [simpl in Hlen; lia|].
      destruct (oldestTimestamp_nonempty (r :: rest) ltac:(discriminate)) as (o & Ho).
      rewrite Ho in Hold. exists o. now split.
    + intros (o & Ho & Hle). rewrite Ho. split; [|exact Hle].
      destruct stored; [discriminate | simpl; lia].
  - intros timeRange' customRange' nowMs'. rewrite !Hinit. reflexivity.
  - intros Hcomplete lightningDecode query clock isLoadingRef isAutomatic store.
    unfold loadMoreZaps, mayFetch. cbn [state isComplete]. rewrite Hcomplete.
    now rewrite orb_true_r.
  - intros wider customRange' d d' Hd Hd' Hle. rewrite Hinit.
    cbn [receipts]. unfold filterForRange.
    assert (Hpreset : forall tr dd, days (TIME_RANGES tr) = Some dd ->
              is_custom tr = false /\
              forall cr, fst (getDateRange nowMs tr cr) = nowMs / 1000 - dd * 24 * 60 * 60).
    { intros tr dd Hdd. destruct tr; try discriminate; cbn in Hdd;
        injection Hdd as <-; split; try reflexivity; intros cr; reflexivity. }
    destruct (Hpreset _ _ Hd) as [Hc Hs]. destruct (Hpreset _ _ Hd') as [Hc' Hs'].
    rewrite Hc, Hc'. cbn [andb]. symmetry. apply filter_filter_implied.
    intros r Hr. apply Z.leb_le in Hr. apply Z.leb_le.
    unfold since in Hr. rewrite Hs in Hr. rewrite Hs'. lia.
Qed.

(** X22 on the sample cache after the first fetch, shown in the 7-day
    window. *)
Lemma window_change_witness :
  "alice" <> "" /\
  receipts (initFromCache (Some "alice") R7d None (nowStart Sample.clock)
              (userZapCache Runs.afterFirst) initialState) =
    [Sample.receipt1; Sample.receipt2].
Proof.
  assert (Hkey : "alice" <> "") by discriminate.
  split; [exact Hkey|].
  rewrite (proj1 (proj2 (window_change_shows_the_cache "alice" R7d None
                           (nowStart Sample.clock) (userZapCache Runs.afterFirst)
                           initialState Hkey))).
  reflexivity.
Defined.

(** ** The label of the peak window *)

(** X23. The label the content table prints for the peak window of an
    entry of [analyzeContentPerformance] is one of the four named ones; the
    fallback that prints a number of hours is never used. *)
Theorem peak_window_label_is_named (zaps : list ParsedZap) :
  Forall (fun p =>
    In (getPeakWindowLabel (cp_peakEarningsWindow p))
       ["1 hour"; "6 hours"; "1 day"; "3 days"])
    (analyzeContentPerformance zaps).
Proof.
  eapply List.Forall_impl; [|apply performance_entries].
  intros p (d & first & rest & Hp & _). rewrite Hp.
  cbn [performanceOf cp_peakEarningsWindow].
  pose proof (peak_in_windows (cd_created_at d * 1000)
                (Js.sort (fun a b => ev_created_at (receipt a) - ev_created_at (receipt b))
                   (cd_zaps d))) as Hin.
  unfold peakWindows in Hin. simpl in Hin.
  destruct Hin as [<-|[<-|[<-|[<-|[]]]]]; simpl; tauto.
Qed.

(** ** The zappers whose profiles are fetched *)

Section ListedZappers.

Variable lightningDecode : string -> option (option Z).
Variable jsonParseZapRequest : string -> option ZapRequest.

(** X24. The pubkey [useZapAnalytics] lists for the profile fetch of a
    receipt, against the zapper [parseZapReceipt] records for it: a listed
    pubkey is the zapper of the parsed record. The zapper is left out of
    the list when its key is empty, and otherwise exactly when the
    description of the receipt parses to a zap request without pubkey: the
    parser then falls back to the pubkey of the receipt, the list does
    not. *)
Theorem listed_zapper_is_the_parsed_one (r : ZapReceipt) (zap : ParsedZap) :
  parseZapReceipt lightningDecode jsonParseZapRequest r = Some zap ->
  (forall p, listedZapper jsonParseZapRequest r = Some p -> zapperOf zap = p /\ p <> "") /\
  (listedZapper jsonParseZapRequest r = None /\ zapperOf zap <> "" <->
   exists desc zapRequest,
     truthy_tag_value "description" (ev_tags r) = Some desc /\
     jsonParseZapRequest desc = Some zapRequest /\
     Js.truthy_str (zr_pubkey zapRequest) = false /\
     zapperOf zap = ev_pubkey r /\ ev_pubkey r <> "").
Proof.
  unfold parseZapReceipt, listedZapper.
  destruct (truthy_tag_value "bolt11" (ev_tags r)) as [bolt11|]; [|discriminate].
  destruct (parseBolt11Amount lightningDecode bolt11 =? 0); [discriminate|].
  intros [= <-]. unfold zapperOf. cbn [zapper zp_pubkey].
  assert (Htruthy : forall s, Js.truthy_str (Some s) = true <-> s <> "").
  { intros s. cbn. rewrite negb_true_iff. apply String.eqb_neq. }
  destruct (truthy_tag_value "description" (ev_tags r)) as [desc|].
  - destruct (jsonParseZapRequest desc) as [zr|] eqn:Hjson.
    + destruct (Js.truthy_str (zr_pubkey zr)) eqn:Hzr.
      * destruct (zr_pubkey zr) as [k|] eqn:Hk; [|discriminate]. cbn [default].
        split.
        -- intros p [= <-]. split; [reflexivity | now apply Htruthy].
        -- split; [intros [H _]; discriminate|].
           intros (desc' & zr' & Hd & Hz & Hf & _).
           injection Hd as Hd. subst desc'. rewrite Hjson in Hz.
           injection Hz as Hz. subst zr'. congruence.
      * split; [intros p H; discriminate|]. split.
        -- intros [_ Hne]. exists desc, zr. auto.
        -- intros (_ & _ & _ & _ & _ & _ & Hne). split; [reflexivity | exact Hne].
    + destruct (Js.truthy_str (Some (ev_pubkey r))) eqn:Hr.
      * split.
        -- intros p [= <-]. split; [reflexivity | now apply Htruthy].
        -- split; [intros [H _]; discriminate|].
           intros (desc' & zr' & Hd & Hz & _).
           injection Hd as Hd. subst desc'. congruence.
      * split; [intros p H; discriminate|]. split.
        -- intros [_ Hne]. apply Htruthy in Hne. congruence.
        -- intros (desc' & zr' & Hd & Hz & _).
           injection Hd as Hd. subst desc'. congruence.
  - destruct (Js.truthy_str (Some (ev_pubkey r))) eqn:Hr.
    + split.
      * intros p [= <-]. split; [reflexivity | now apply Htruthy].
      * split; [intros [H _]; discriminate|].
        intros (desc' & zr' & H & _). discriminate.
    + split; [intros p H; discriminate|]. split.
      * intros [_ Hne]. apply Htruthy in Hne. congruence.
      * intros (desc' & zr' & H & _). discriminate.
Qed.

End ListedZappers.

(** X24 on a receipt whose zap request carries no pubkey: the zapper is
    the wallet, and no pubkey is listed for it. *)
Lemma listed_zapper_witness :
  let json := fun _ : string =>
    Some {| zr_pubkey := None; zr_content := None; zr_created_at := None |} in
  let r := {| ev_id := "r9"; ev_created_at := Sample.t0; ev_pubkey := "wallet";
              ev_kind := 9735;
              ev_tags := [["bolt11"; "lnbc210n"]; ["description"; "{}"]];
              ev_content := ""; ev_sig := "" |} in
  (exists zap, parseZapReceipt Sample.decode json r = Some zap /\
               zapperOf zap = "wallet") /\
  listedZapper json r = None.
Proof.
  intros json r.
  assert (Hparse : parseZapReceipt Sample.decode json r =
                   Some {| receipt := r; zappedEvent := None;
                           zapper := {| zp_pubkey := "wallet"; zp_name := None;
                                        zp_nip05 := None; zp_picture := None |};
                           amount := 21; comment := None;
                           zapRequest := Some {| zr_pubkey := None; zr_content := None;
                                                 zr_created_at := None |} |})
    by reflexivity.
  split; [eexists; split; [exact Hparse | reflexivity]|].
  apply (proj2 (listed_zapper_is_the_parsed_one Sample.decode json r _ Hparse)).
  exists "{}", {| zr_pubkey := None; zr_content := None; zr_created_at := None |}.
  repeat split; discriminate.
Defined.

(** ** The hour and weekday buckets account for every record *)

Lemma bucket_fold_none (index : Z -> Z) (zaps : list ParsedZap) :
  fold_left (bucket_step index) zaps None = None.
Proof. induction zaps as [|zap zaps IH]; [reflexivity | exact IH]. Qed.

Lemma bucket_fold_sum (index : Z -> Z) (zaps : list ParsedZap)
    (grouped grouped' : JsMap.t Z Tally) :
  fold_left (bucket_step index) zaps (Some grouped) = Some grouped' ->
  sumZ (map totalSats (JsMap.values grouped')) =
    sumZ (map totalSats (JsMap.values grouped)) + sumZ (map amount zaps) /\
  sumZ (map zapCount (JsMap.values grouped')) =
    sumZ (map zapCount (JsMap.values grouped)) + Z.of_nat (length zaps).
Proof.
  revert grouped. induction zaps as [|zap zaps IH]; intros grouped; cbn [fold_left].
  - intros [= <-]. simpl. lia.
  - cbn [bucket_step].
    destruct (JsMap.get (index (zapDate zap)) grouped) as [existing|] eqn:Hget.
    + intros Hfold. destruct (IH _ Hfold) as [Ht Hc].
      rewrite Ht, Hc, !sum_values_set, Hget. cbn [map length].
      rewrite Nat2Z.inj_succ.
      change (sumZ (amount zap :: map amount zaps))
        with (amount zap + sumZ (map amount zaps)).
      unfold tally_add; cbn [totalSats zapCount]. lia.
    + rewrite bucket_fold_none. discriminate.
Qed.

(** X25. With the getters of [Date] in their ranges, every record falls in
    one hour bucket and in one weekday bucket: the totals of the 24 hour
    buckets add up to the grand total and their counts to the number of
    records, and so do those of the 7 weekday buckets, which are named
    Sunday to Saturday in this order. *)
Theorem temporal_buckets_account_for_every_record (api : DateApi)
    (zaps : list ParsedZap) :
  getters_in_range api ->
  exists hours days,
    groupZapsByHour api zaps = Some hours /\
    groupZapsByDayOfWeek api zaps = Some days /\
    sumZ (map eh_totalSats hours) = Js.reduce_sum amount zaps /\
    sumZ (map eh_zapCount hours) = Z.of_nat (length zaps) /\
    sumZ (map ed_totalSats days) = Js.reduce_sum amount zaps /\
    sumZ (map ed_zapCount days) = Z.of_nat (length zaps) /\
    map ed_dayName days = dayNames.
Proof.
  intros Hrange.
  destruct (groupZapsByHour_buckets api Hrange zaps) as (hours & Hh & _).
  destruct (groupZapsByDayOfWeek_buckets api Hrange zaps) as (days & Hd & Hdays & _).
  exists hours, days. split; [exact Hh|]. split; [exact Hd|].
  rewrite reduce_sum_sumZ.
  unfold groupZapsByHour in Hh. unfold groupZapsByDayOfWeek in Hd.
  destruct (fold_left (bucket_step (getHours api)) zaps (Some (zeroBuckets 24)))
    as [gh|] eqn:Hfh; [|discriminate].
  destruct (fold_left (bucket_step (getDay api)) zaps (Some (zeroBuckets 7)))
    as [gd|] eqn:Hfd; [|discriminate].
  destruct (bucket_fold_sum _ _ _ _ Hfh) as [Hht Hhc].
  destruct (bucket_fold_sum _ _ _ _ Hfd) as [Hdt Hdc].
  change (sumZ (map totalSats (JsMap.values (zeroBuckets 24)))) with 0 in Hht.
  change (sumZ (map zapCount (JsMap.values (zeroBuckets 24)))) with 0 in Hhc.
  change (sumZ (map totalSats (JsMap.values (zeroBuckets 7)))) with 0 in Hdt.
  change (sumZ (map zapCount (JsMap.values (zeroBuckets 7)))) with 0 in Hdc.
  rewrite Z.add_0_l in Hht, Hhc, Hdt, Hdc.
  injection Hh as <-. injection Hd as Hd.
  assert (Hperm : Permutation days
            (map (fun '(dayOfWeek, stats) =>
                    {| ed_dayOfWeek := dayOfWeek;
                       ed_dayName := nth (Z.to_nat dayOfWeek) dayNames "";
                       ed_totalSats := totalSats stats;
                       ed_zapCount := zapCount stats;
                       ed_avgZapAmount :=
                         avgZapAmountOf (totalSats stats) (zapCount stats) |}) gd)).
  { rewrite <- Hd. apply sort_perm. }
  split; [|split; [|split; [|split]]].
  - rewrite (sumZ_perm _ _ (Permutation_map eh_totalSats (sort_perm _ _))).
    rewrite map_map, <- Hht. unfold JsMap.values. rewrite map_map.
    f_equal. apply map_ext. now intros [h s].
  - rewrite (sumZ_perm _ _ (Permutation_map eh_zapCount (sort_perm _ _))).
    rewrite map_map, <- Hhc. unfold JsMap.values. rewrite map_map.
    f_equal. apply map_ext. now intros [h s].
  - rewrite (sumZ_perm _ _ (Permutation_map ed_totalSats Hperm)).
    rewrite map_map, <- Hdt. unfold JsMap.values. rewrite map_map.
    f_equal. apply map_ext. now intros [h s].
  - rewrite (sumZ_perm _ _ (Permutation_map ed_zapCount Hperm)).
    rewrite map_map, <- Hdc. unfold JsMap.values. rewrite map_map.
    f_equal. apply map_ext. now intros [h s].
  - assert (Hnames : Forall (fun b => ed_dayName b =
                                      nth (Z.to_nat (ed_dayOfWeek b)) dayNames "") days).
    { eapply Permutation_Forall; [symmetry; exact Hperm|].
      apply Forall_map. apply List.Forall_forall. now intros [h s] _. }
    transitivity (map (fun d => nth (Z.to_nat d) dayNames "") (map ed_dayOfWeek days)).
    + rewrite map_map. apply map_ext_in. intros b Hb.
      rewrite List.Forall_forall in Hnames. now apply Hnames.
    + rewrite Hdays. reflexivity.
Qed.

(** X25 on two sample records, read in UTC. *)
Lemma temporal_totals_witness :
  let zaps := [Sample.mkZap "z1" Sample.t0 30 "bob" None;
               Sample.mkZap "z2" (Sample.t0 + 7200) 10 "carol" None] in
  getters_in_range Utc.api /\
  exists hours days,
    groupZapsByHour Utc.api zaps = Some hours /\
    groupZapsByDayOfWeek Utc.api zaps = Some days /\
    sumZ (map eh_totalSats hours) = 40 /\
    sumZ (map ed_totalSats days) = 40.
Proof.
  intros zaps. split; [exact utc_in_range|].
  destruct (temporal_buckets_account_for_every_record Utc.api zaps utc_in_range)
    as (hours & days & Hh & Hd & Hht & _ & Hdt & _).
  exists hours, days. split; [exact Hh|]. split; [exact Hd|].
  split; [exact Hht | exact Hdt].
Defined.
